(** * monofonIC: the perturbative cascade of [ic_generator::Run]

    A shallow embedding of [src/ic_generator.cc] (function [Run]) and of the
    older driver in [src/main.cc] (function [main]).  [Run] is followed for
    one species of its loop over species.

    [real_t] and [double] are read as the real numbers [R], [ccomplex_t]
    ([std::complex<real_t>]) as pairs of reals with the arithmetic of
    [std::complex]; rounding is not modelled.  A quotient by zero, which is
    infinite or not a number on doubles, is a number over the reals: where a
    statement is about such a quotient, a checked quotient without a value
    stands for it.  The [int] that holds the LPT
    order is a [Z] (it is only compared with 1 and 2), [size_t] counters are
    [nat], and the 64-bit particle id keeps its wrap-around.

    The headers of the grid, of the convolver and of the particle container
    are not among the sources; what [Run] calls from them is modelled from
    the specification, each definition saying so. *)

From Stdlib Require Import Reals.Reals Lra Lia ZArith String List Bool.
Import ListNotations.

Open Scope R_scope.

(** ** Complex numbers ([ccomplex_t]) *)

Record ccomplex_t : Type := mkC { Re : R; Im : R }.

Declare Scope C_scope.
Delimit Scope C_scope with C.
Bind Scope C_scope with ccomplex_t.

Definition Czero : ccomplex_t := mkC 0 0.
Definition Cone : ccomplex_t := mkC 1 0.
Definition Ci : ccomplex_t := mkC 0 1.
Definition RtoC (x : R) : ccomplex_t := mkC x 0.

Definition Cplus (a b : ccomplex_t) : ccomplex_t :=
  mkC (Re a + Re b) (Im a + Im b).
Definition Copp (a : ccomplex_t) : ccomplex_t := mkC (- Re a) (- Im a).
Definition Cminus (a b : ccomplex_t) : ccomplex_t :=
  mkC (Re a - Re b) (Im a - Im b).
Definition Cmult (a b : ccomplex_t) : ccomplex_t :=
  mkC (Re a * Re b - Im a * Im b) (Re a * Im b + Im a * Re b).
(** [std::conj] *)
Definition Cconj (a : ccomplex_t) : ccomplex_t := mkC (Re a) (- Im a).
(** [std::abs] of a complex number *)
Definition Cabs (a : ccomplex_t) : R := sqrt (Re a * Re a + Im a * Im a).
(** [real * complex], [complex * real] and [complex / real], componentwise
    as in [std::complex] *)
Definition Cscal (r : R) (a : ccomplex_t) : ccomplex_t :=
  mkC (r * Re a) (r * Im a).
Definition Cmulr (a : ccomplex_t) (r : R) : ccomplex_t :=
  mkC (Re a * r) (Im a * r).
Definition Cdivr (a : ccomplex_t) (r : R) : ccomplex_t :=
  mkC (Re a / r) (Im a / r).
(** [complex / complex] *)
Definition Cdiv (a b : ccomplex_t) : ccomplex_t :=
  mkC ((Re a * Re b + Im a * Im b) / (Re b * Re b + Im b * Im b))
      ((Im a * Re b - Re a * Im b) / (Re b * Re b + Im b * Im b)).

Infix "+" := Cplus : C_scope.
Infix "-" := Cminus : C_scope.
Infix "*" := Cmult : C_scope.
Infix "/" := Cdiv : C_scope.
Notation "- x" := (Copp x) : C_scope.

(** ** Run parameters, [ic_generator.cc] lines 39-73 *)

(** The keys of the configuration file that [Run] reads.  A key read with
    [GetValueSafe] may be absent ([None]); [setup_LPTorder] holds the value
    after the conversion of the [double] to [int]. *)
Record ConfigFile : Type := mkConfig {
  setup_GridRes : nat;
  setup_BoxLength : R;
  setup_zstart : R;
  setup_LPTorder : option Z;
  setup_BCClattice : option bool;
  setup_SymplecticPT : option bool;
  setup_DoFixing : option bool
}.

Definition GetValueSafe {A : Type} (entry : option A) (default : A) : A :=
  match entry with
  | Some v => v
  | None => default
  end.

(** the two log streams [csoca::wlog] and [csoca::ilog] *)
Inductive log_entry : Type :=
| wlog (msg : string)
| ilog (msg : string).

Definition warn_symplectic : log_entry :=
  wlog "SymplecticPT has been selected and will overwrite chosen order of LPT to 2".

(** line 42 *)
Definition read_LPTorder (cfg : ConfigFile) : Z :=
  GetValueSafe (setup_LPTorder cfg) 100%Z.
(** lines 43, 44, 48 *)
Definition read_bcc (cfg : ConfigFile) : bool :=
  GetValueSafe (setup_BCClattice cfg) false.
Definition read_symplectic (cfg : ConfigFile) : bool :=
  GetValueSafe (setup_SymplecticPT cfg) false.
Definition read_fixing (cfg : ConfigFile) : bool :=
  GetValueSafe (setup_DoFixing cfg) false.

(** lines 54-57: the order after the symplectic override, and what is
    written to the log *)
Definition override_order (bSymplecticPT : bool) (LPTorder : Z)
  : Z * list log_entry :=
  if bSymplecticPT && negb (LPTorder =? 2)%Z
  then (2%Z, [warn_symplectic])
  else (LPTorder, []).

(** line 46 *)
Definition volfac (boxlen : R) (ngrid : nat) : R :=
  Rpower (boxlen / INR ngrid / 2 / PI) 1.5.

(** lines 65-73: the time coefficients of the LPT terms *)
Record coefficients : Type := mkCoeff {
  g1 : R; g2 : R; g3a : R; g3b : R; g3c : R;
  vfac1 : R; vfac2 : R; vfac3 : R
}.

Definition lpt_coefficients (LPTorder : Z) (Dplus0 vfac : R) : coefficients :=
  {| g1 := - Dplus0;
     g2 := if (LPTorder >? 1)%Z then -3 / 7 * Dplus0 * Dplus0 else 0;
     g3a := if (LPTorder >? 2)%Z then -1 / 3 * Dplus0 * Dplus0 * Dplus0 else 0;
     g3b := if (LPTorder >? 2)%Z then 10 / 21 * Dplus0 * Dplus0 * Dplus0 else 0;
     g3c := if (LPTorder >? 2)%Z then -1 / 7 * Dplus0 * Dplus0 * Dplus0 else 0;
     vfac1 := vfac;
     vfac2 := 2 * vfac;
     vfac3 := 3 * vfac |}.

(** ** Grids in Fourier state

    A [Grid_FFT] in k-space is read through [kelem(idx)]: a complex value for
    each linear index [idx] of the local slab.  In real space the cells of a
    real grid hold reals and those of a complex grid hold complex numbers. *)

Definition kgrid : Type := nat -> ccomplex_t.

(** [g[i] = v] *)
Definition upd (g : kgrid) (i : nat) (v : ccomplex_t) : kgrid :=
  fun j => if Nat.eqb j i then v else g j.

(** [for (size_t i = 0; i < n; ++i) body(i)] over a state *)
Definition for_loop {S : Type} (n : nat) (body : nat -> S -> S) (s : S) : S :=
  fold_left (fun st i => body i st) (seq 0 n) s.

(** The geometry of the local slab: how many modes it stores, the integer
    wave numbers of the mode stored at a linear index, and the box length. *)
Record geometry : Type := mkGeometry {
  local_n : nat;
  mode_of : nat -> Z * Z * Z;
  boxlen : R
}.

Definition mode_comp (n : Z * Z * Z) (a : nat) : Z :=
  match a with
  | O => fst (fst n)
  | S O => snd (fst n)
  | _ => snd n
  end.

(** Modelled from the spec: [Grid_FFT::get_k] (grid_fft.hh is not among the
    sources).  Section 3: the wavevector in k-state is
    k_a = 2 pi n_a / L. *)
Definition get_k (geo : geometry) (idx a : nat) : R :=
  2 * PI * IZR (mode_comp (mode_of geo idx) a) / boxlen geo.

(** [k.norm_squared()] and [k.norm()] *)
Definition norm_squared (geo : geometry) (idx : nat) : R :=
  get_k geo idx 0 * get_k geo idx 0 + get_k geo idx 1 * get_k geo idx 1
  + get_k geo idx 2 * get_k geo idx 2.
Definition norm (geo : geometry) (idx : nat) : R := sqrt (norm_squared geo idx).

Definition is_DC (n : Z * Z * Z) : bool :=
  (fst (fst n) =? 0)%Z && (snd (fst n) =? 0)%Z && (snd n =? 0)%Z.

(** Modelled from the spec: [Grid_FFT::apply_function_k_dep].  Section 4.1:
    for each owned frequency triple compute x' = f(x, k_vec); the lambdas of
    [Run] are given the linear index in place of the vector and read the
    components they use through [get_k]. *)
Definition apply_function_k_dep (geo : geometry)
    (f : ccomplex_t -> nat -> ccomplex_t) (g : kgrid) : kgrid :=
  for_loop (local_n geo) (fun idx st => upd st idx (f (st idx) idx)) g.

(** Modelled from the spec: [Grid_FFT::zero_DC_mode].  Section 4.1: in
    k-state, set (0,0,0) to 0 on the owning rank. *)
Definition zero_DC_mode (geo : geometry) (g : kgrid) : kgrid :=
  apply_function_k_dep geo
    (fun x idx => if is_DC (mode_of geo idx) then Czero else x) g.

(** Modelled from the spec: [Grid_FFT::apply_InverseLaplacian].  Section 4.2:
    G[k] <- -G[k]/|k|^2 for k <> 0; G[0] <- 0. *)
Definition apply_InverseLaplacian (geo : geometry) (g : kgrid) : kgrid :=
  apply_function_k_dep geo
    (fun x idx => if is_DC (mode_of geo idx) then Czero
                  else Cdivr (- x)%C (norm_squared geo idx)) g.

(** Modelled from the spec: [Grid_FFT::operator*=], section 4.1
    elemwise_scale. *)
Definition scale (geo : geometry) (alpha : R) (g : kgrid) : kgrid :=
  apply_function_k_dep geo (fun x _ => Cscal alpha x) g.

(** Section 4.2: hessian_component is -k_a k_b G[k], gradient_component is
    i k_a G[k]. *)
Definition hessian_component (geo : geometry) (ab : nat * nat) (g : kgrid)
  : kgrid :=
  fun idx => Cscal (- (get_k geo idx (fst ab) * get_k geo idx (snd ab))) (g idx).
Definition gradient_component (geo : geometry) (a : nat) (g : kgrid) : kgrid :=
  fun idx => (mkC 0 (get_k geo idx a) * g idx)%C.

(** ** The writers of [Run], lines 96-100 *)

Definition writer : Type := kgrid -> nat -> ccomplex_t -> kgrid.

Definition assign_to : writer := fun g i v => upd g i v.
Definition add_to : writer := fun g i v => upd g i (g i + v)%C.
Definition add_twice_to : writer := fun g i v => upd g i (g i + Cscal 2 v)%C.
Definition subtract_from : writer := fun g i v => upd g i (g i - v)%C.
Definition subtract_twice_from : writer :=
  fun g i v => upd g i (g i - Cscal 2 v)%C.

(** The operators of [main], main.cc lines 177-181: [res] is the value the
    convolver delivers, [val] the value the destination holds. *)
Definition assign_op (res val : ccomplex_t) : ccomplex_t := res.
Definition add_op (res val : ccomplex_t) : ccomplex_t := (val + res)%C.
Definition add2_op (res val : ccomplex_t) : ccomplex_t := (val + Cscal 2 res)%C.
Definition sub_op (res val : ccomplex_t) : ccomplex_t := (val - res)%C.
Definition sub2_op (res val : ccomplex_t) : ccomplex_t := (val - Cscal 2 res)%C.

(** ** The convolver

    convolution.hh is not among the sources.  The Fourier transforms it runs
    on its scratch grids are an interface: the cells of real space, the
    backward and the forward transform of a real grid (with the padding and
    the truncation of the Orszag rule inside them), and the transforms of a
    complex grid that the semiclassical path uses. *)
Record Transforms : Type := mkTransforms {
  rcell : Type;
  FourierTransformBackward : kgrid -> rcell -> R;
  FourierTransformForward : (rcell -> R) -> kgrid;
  cFourierTransformBackward : kgrid -> rcell -> ccomplex_t;
  cFourierTransformForward : (rcell -> ccomplex_t) -> kgrid
}.

(** the forward transform is linear *)
Record linear_forward (T : Transforms) : Prop := mkLinear {
  forward_ext : forall u v,
    (forall x, u x = v x) ->
    forall idx, FourierTransformForward T u idx = FourierTransformForward T v idx;
  forward_plus : forall u v idx,
    FourierTransformForward T (fun x => u x + v x) idx =
    (FourierTransformForward T u idx + FourierTransformForward T v idx)%C;
  forward_scal : forall c u idx,
    FourierTransformForward T (fun x => c * u x) idx =
    Cscal c (FourierTransformForward T u idx)
}.

(** a Hessian entry and a gradient component of a field, in real space *)
Definition Hess (T : Transforms) (geo : geometry) (g : kgrid) (ab : nat * nat)
  : rcell T -> R :=
  FourierTransformBackward T (hessian_component geo ab g).
Definition Grad (T : Transforms) (geo : geometry) (g : kgrid) (a : nat)
  : rcell T -> R :=
  FourierTransformBackward T (gradient_component geo a g).

(** step (vi) of section 4.3: the result is streamed into the destination
    through the writer, index by index *)
Definition stream (geo : geometry) (w : writer) (res : kgrid) (dest : kgrid)
  : kgrid :=
  for_loop (local_n geo) (fun idx st => w st idx (res idx)) dest.

(** Modelled from the spec: the primitives of [OrszagConvolver]
    (convolution.hh is not among the sources).  Section 4.3: the result at k
    is the transform of the product, in real space, of the Hessian entries
    of the operands; [convolve_SumOfHessians] multiplies A by the sum of two
    Hessians of B, [convolve_DifferenceOfHessians] by their difference,
    [convolve_Gradient_and_Hessian] multiplies a gradient component of A by
    a Hessian entry of B. *)
Definition convolve_Hessians (T : Transforms) (geo : geometry)
    (A : kgrid) (h1 : nat * nat) (B : kgrid) (h2 : nat * nat)
    (w : writer) (dest : kgrid) : kgrid :=
  stream geo w
    (FourierTransformForward T (fun x => Hess T geo A h1 x * Hess T geo B h2 x))
    dest.

Definition convolve_Hessians3 (T : Transforms) (geo : geometry)
    (A : kgrid) (h1 : nat * nat) (B : kgrid) (h2 : nat * nat)
    (C : kgrid) (h3 : nat * nat) (w : writer) (dest : kgrid) : kgrid :=
  stream geo w
    (FourierTransformForward T
       (fun x => Hess T geo A h1 x * Hess T geo B h2 x * Hess T geo C h3 x))
    dest.

Definition convolve_SumOfHessians (T : Transforms) (geo : geometry)
    (A : kgrid) (h1 : nat * nat) (B : kgrid) (h2 h3 : nat * nat)
    (w : writer) (dest : kgrid) : kgrid :=
  stream geo w
    (FourierTransformForward T
       (fun x => Hess T geo A h1 x * (Hess T geo B h2 x + Hess T geo B h3 x)))
    dest.

Definition convolve_DifferenceOfHessians (T : Transforms) (geo : geometry)
    (A : kgrid) (h1 : nat * nat) (B : kgrid) (h2 h3 : nat * nat)
    (w : writer) (dest : kgrid) : kgrid :=
  stream geo w
    (FourierTransformForward T
       (fun x => Hess T geo A h1 x * (Hess T geo B h2 x - Hess T geo B h3 x)))
    dest.

Definition convolve_Gradient_and_Hessian (T : Transforms) (geo : geometry)
    (A : kgrid) (a : nat) (B : kgrid) (h : nat * nat)
    (w : writer) (dest : kgrid) : kgrid :=
  stream geo w
    (FourierTransformForward T (fun x => Grad T geo A a x * Hess T geo B h x))
    dest.

(** ** The cascade of [Run], lines 108-247 *)

Record fields : Type := mkFields {
  phi : kgrid;
  phi2 : kgrid;
  phi3a : kgrid;
  phi3b : kgrid;
  A3 : nat -> kgrid
}.

Definition set_phi (F : fields) (g : kgrid) : fields :=
  mkFields g (phi2 F) (phi3a F) (phi3b F) (A3 F).
Definition set_phi2 (F : fields) (g : kgrid) : fields :=
  mkFields (phi F) g (phi3a F) (phi3b F) (A3 F).
Definition set_phi3a (F : fields) (g : kgrid) : fields :=
  mkFields (phi F) (phi2 F) g (phi3b F) (A3 F).
Definition set_phi3b (F : fields) (g : kgrid) : fields :=
  mkFields (phi F) (phi2 F) (phi3a F) g (A3 F).
Definition set_A3 (F : fields) (idim : nat) (g : kgrid) : fields :=
  mkFields (phi F) (phi2 F) (phi3a F) (phi3b F)
           (fun d => if Nat.eqb d idim then g else A3 F d).

(** line 131: the fixing of a mode *)
Definition fix_mode (bDoFixing : bool) (x : ccomplex_t) : ccomplex_t :=
  if bDoFixing
  then (if Req_dec_T (Cabs x) 0 then x else Cdivr x (Cabs x))
  else x.

(** lines 129-134: the lambda given to [phi.apply_function_k_dep]; [amp] is
    [the_cosmo_calc->GetAmplitude(., total)] *)
Definition phi1_kernel (bDoFixing : bool) (amp : R -> R) (volfac : R)
    (x : ccomplex_t) (kmod : R) : ccomplex_t :=
  let x := fix_mode bDoFixing x in
  let delta := Cmulr x (amp kmod) in
  Cdivr (Cdivr (- delta)%C (kmod * kmod)) volfac.

(** lines 125-136; [noise] is the white noise after the forward transform *)
Definition compute_phi1 (geo : geometry) (bDoFixing : bool) (amp : R -> R)
    (volfac : R) (noise : kgrid) : kgrid :=
  zero_DC_mode geo
    (apply_function_k_dep geo
       (fun x idx => phi1_kernel bDoFixing amp volfac x (norm geo idx)) noise).

(** lines 170-175 *)
Definition compute_phi2 (T : Transforms) (geo : geometry) (phi dest : kgrid)
  : kgrid :=
  let dest := convolve_SumOfHessians T geo phi (0, 0)%nat phi (1, 1)%nat (2, 2)%nat assign_to dest in
  let dest := convolve_Hessians T geo phi (1, 1)%nat phi (2, 2)%nat add_to dest in
  let dest := convolve_Hessians T geo phi (0, 1)%nat phi (0, 1)%nat subtract_from dest in
  let dest := convolve_Hessians T geo phi (0, 2)%nat phi (0, 2)%nat subtract_from dest in
  let dest := convolve_Hessians T geo phi (1, 2)%nat phi (1, 2)%nat subtract_from dest in
  apply_InverseLaplacian geo dest.

(** lines 187-192 *)
Definition compute_phi3a (T : Transforms) (geo : geometry) (phi dest : kgrid)
  : kgrid :=
  let dest := convolve_Hessians3 T geo phi (0, 0)%nat phi (1, 1)%nat phi (2, 2)%nat assign_to dest in
  let dest := convolve_Hessians3 T geo phi (0, 1)%nat phi (0, 2)%nat phi (1, 2)%nat add_twice_to dest in
  let dest := convolve_Hessians3 T geo phi (1, 2)%nat phi (1, 2)%nat phi (0, 0)%nat subtract_from dest in
  let dest := convolve_Hessians3 T geo phi (0, 2)%nat phi (0, 2)%nat phi (1, 1)%nat subtract_from dest in
  let dest := convolve_Hessians3 T geo phi (0, 1)%nat phi (0, 1)%nat phi (2, 2)%nat subtract_from dest in
  apply_InverseLaplacian geo dest.

(** lines 199-206 *)
Definition compute_phi3b (T : Transforms) (geo : geometry)
    (phi phi2 dest : kgrid) : kgrid :=
  let dest := convolve_SumOfHessians T geo phi (0, 0)%nat phi2 (1, 1)%nat (2, 2)%nat assign_to dest in
  let dest := convolve_SumOfHessians T geo phi (1, 1)%nat phi2 (2, 2)%nat (0, 0)%nat add_to dest in
  let dest := convolve_SumOfHessians T geo phi (2, 2)%nat phi2 (0, 0)%nat (1, 1)%nat add_to dest in
  let dest := convolve_Hessians T geo phi (0, 1)%nat phi2 (0, 1)%nat subtract_twice_from dest in
  let dest := convolve_Hessians T geo phi (0, 2)%nat phi2 (0, 2)%nat subtract_twice_from dest in
  let dest := convolve_Hessians T geo phi (1, 2)%nat phi2 (1, 2)%nat subtract_twice_from dest in
  scale geo 0.5 (apply_InverseLaplacian geo dest).

(** lines 214-220: the body of the loop over [idim] *)
Definition compute_A3 (T : Transforms) (geo : geometry)
    (phi phi2 : kgrid) (idim : nat) (dest : kgrid) : kgrid :=
  let idimp := ((idim + 1) mod 3)%nat in
  let idimpp := ((idim + 2) mod 3)%nat in
  let dest := convolve_Hessians T geo phi2 (idim, idimp) phi (idim, idimpp) assign_to dest in
  let dest := convolve_Hessians T geo phi2 (idim, idimpp) phi (idim, idimp) subtract_from dest in
  let dest := convolve_DifferenceOfHessians T geo phi (idimp, idimpp) phi2 (idimp, idimp) (idimpp, idimpp) add_to dest in
  let dest := convolve_DifferenceOfHessians T geo phi2 (idimp, idimpp) phi (idimp, idimp) (idimpp, idimpp) subtract_from dest in
  apply_InverseLaplacian geo dest.

(** lines 231-234: the body of the loop over [idim] in symplectic mode *)
Definition compute_vNLO (T : Transforms) (geo : geometry)
    (phi phi2 : kgrid) (idim : nat) (dest : kgrid) : kgrid :=
  let dest := convolve_Gradient_and_Hessian T geo phi 0%nat phi2 (idim, 0%nat) assign_to dest in
  let dest := convolve_Gradient_and_Hessian T geo phi 1%nat phi2 (idim, 1%nat) add_to dest in
  convolve_Gradient_and_Hessian T geo phi 2%nat phi2 (idim, 2%nat) add_to dest.

(** lines 241-247 *)
Definition scale_fields (geo : geometry) (c : coefficients) (F : fields)
  : fields :=
  mkFields (scale geo (g1 c) (phi F)) (scale geo (g2 c) (phi2 F))
           (scale geo (g3a c) (phi3a F)) (scale geo (g3b c) (phi3b F))
           (fun d => scale geo (g3c c) (A3 F d)).

(** lines 212-221 and 229-235: the loops over [idim] *)
Definition loop_A3 (T : Transforms) (geo : geometry) (F : fields) : fields :=
  for_loop 3
    (fun idim F => set_A3 F idim (compute_A3 T geo (phi F) (phi2 F) idim (A3 F idim)))
    F.
Definition loop_vNLO (T : Transforms) (geo : geometry) (F : fields) : fields :=
  for_loop 3
    (fun idim F => set_A3 F idim (compute_vNLO T geo (phi F) (phi2 F) idim (A3 F idim)))
    F.

(** Lines 108-247 for one species.  [LPTorder] is the order after the
    override of lines 54-57; the log collects the terms that are announced
    on [csoca::ilog] as they are computed. *)
Definition Run_cascade (T : Transforms) (geo : geometry) (amp : R -> R)
    (bDoFixing bSymplecticPT : bool) (LPTorder : Z) (Dplus0 vfac vol : R)
    (noise : kgrid) (F : fields) : fields * list log_entry :=
  let log := [ilog "Computing phi(1) term"] in
  let F := set_phi F (compute_phi1 geo bDoFixing amp vol noise) in
  let '(F, log) :=
    if (LPTorder >? 1)%Z || bSymplecticPT
    then (set_phi2 F (compute_phi2 T geo (phi F) (phi2 F)),
          log ++ [ilog "Computing phi(2) term"])
    else (F, log) in
  let '(F, log) :=
    if (LPTorder >? 2)%Z && negb bSymplecticPT
    then
      let F := set_phi3a F (compute_phi3a T geo (phi F) (phi3a F)) in
      let F := set_phi3b F (compute_phi3b T geo (phi F) (phi2 F) (phi3b F)) in
      (loop_A3 T geo F,
       log ++ [ilog "Computing phi(3a) term"; ilog "Computing phi(3b) term";
               ilog "Computing A(3) term"])
    else (F, log) in
  let '(F, log) :=
    if bSymplecticPT
    then (loop_vNLO T geo F, log ++ [ilog "Computing vNLO(3) term"])
    else (F, log) in
  (scale_fields geo (lpt_coefficients LPTorder Dplus0 vfac) F, log).

(** [Run] from the reading of the configuration to the scaled potentials of
    one species: the order that the cascade uses, the potentials, the log. *)
Definition Run_potentials (T : Transforms) (geo : geometry) (amp : R -> R)
    (cfg : ConfigFile) (Dplus0 vfac : R) (noise : kgrid) (F : fields)
  : Z * fields * list log_entry :=
  let bSymplecticPT := read_symplectic cfg in
  let '(LPTorder, log0) := override_order bSymplecticPT (read_LPTorder cfg) in
  let '(F, log) :=
    Run_cascade T geo amp (read_fixing cfg) bSymplecticPT LPTorder Dplus0 vfac
      (volfac (setup_BoxLength cfg) (setup_GridRes cfg)) noise F in
  (LPTorder, F, log0 ++ log).

(** ** The cascade of [main], main.cc lines 108-283 *)

(** The convolver that [main] calls takes the destination and an operator
    of (result, held value). *)
Definition stream_op (geo : geometry)
    (op : ccomplex_t -> ccomplex_t -> ccomplex_t) (res : kgrid) (dest : kgrid)
  : kgrid :=
  for_loop (local_n geo) (fun idx st => upd st idx (op (res idx) (st idx))) dest.

Definition main_convolve_Hessians (T : Transforms) (geo : geometry)
    (A : kgrid) (h1 : nat * nat) (B : kgrid) (h2 : nat * nat) (dest : kgrid)
    (op : ccomplex_t -> ccomplex_t -> ccomplex_t) : kgrid :=
  stream_op geo op
    (FourierTransformForward T (fun x => Hess T geo A h1 x * Hess T geo B h2 x))
    dest.

Definition main_convolve_Hessians3 (T : Transforms) (geo : geometry)
    (A : kgrid) (h1 : nat * nat) (B : kgrid) (h2 : nat * nat)
    (C : kgrid) (h3 : nat * nat) (dest : kgrid)
    (op : ccomplex_t -> ccomplex_t -> ccomplex_t) : kgrid :=
  stream_op geo op
    (FourierTransformForward T
       (fun x => Hess T geo A h1 x * Hess T geo B h2 x * Hess T geo C h3 x))
    dest.

Definition main_convolve_DifferenceOfHessians (T : Transforms) (geo : geometry)
    (A : kgrid) (h1 : nat * nat) (B : kgrid) (h2 h3 : nat * nat) (dest : kgrid)
    (op : ccomplex_t -> ccomplex_t -> ccomplex_t) : kgrid :=
  stream_op geo op
    (FourierTransformForward T
       (fun x => Hess T geo A h1 x * (Hess T geo B h2 x - Hess T geo B h3 x)))
    dest.

(** main.cc line 112 *)
Definition main_bDoFixing : bool := false.

(** main.cc lines 194-200 *)
Definition main_phi1_kernel (amp : R -> R) (volfac : R)
    (x : ccomplex_t) (kmod : R) : ccomplex_t :=
  let x := if main_bDoFixing then Cdivr x (Cabs x) else x in
  let delta := Cmulr x (amp kmod) in
  Cdivr (Cdivr (- delta)%C (kmod * kmod)) volfac.

(** main.cc lines 192-202 *)
Definition main_compute_phi1 (geo : geometry) (amp : R -> R) (volfac : R)
    (noise : kgrid) : kgrid :=
  zero_DC_mode geo
    (apply_function_k_dep geo
       (fun x idx => main_phi1_kernel amp volfac x (norm geo idx)) noise).

Definition main_convolve_SumOfHessians (T : Transforms) (geo : geometry)
    (A : kgrid) (h1 : nat * nat) (B : kgrid) (h2 h3 : nat * nat) (dest : kgrid)
    (op : ccomplex_t -> ccomplex_t -> ccomplex_t) : kgrid :=
  stream_op geo op
    (FourierTransformForward T
       (fun x => Hess T geo A h1 x * (Hess T geo B h2 x + Hess T geo B h3 x)))
    dest.

(** main.cc lines 210-215 *)
Definition main_compute_phi2 (T : Transforms) (geo : geometry)
    (phi dest : kgrid) : kgrid :=
  let dest := main_convolve_SumOfHessians T geo phi (0, 0)%nat phi (1, 1)%nat (2, 2)%nat dest assign_op in
  let dest := main_convolve_Hessians T geo phi (1, 1)%nat phi (2, 2)%nat dest add_op in
  let dest := main_convolve_Hessians T geo phi (0, 1)%nat phi (0, 1)%nat dest sub_op in
  let dest := main_convolve_Hessians T geo phi (0, 2)%nat phi (0, 2)%nat dest sub_op in
  let dest := main_convolve_Hessians T geo phi (1, 2)%nat phi (1, 2)%nat dest sub_op in
  apply_InverseLaplacian geo dest.

(** main.cc lines 224-229 *)
Definition main_compute_phi3a (T : Transforms) (geo : geometry)
    (phi dest : kgrid) : kgrid :=
  let dest := main_convolve_Hessians3 T geo phi (0, 0)%nat phi (1, 1)%nat phi (2, 2)%nat dest assign_op in
  let dest := main_convolve_Hessians3 T geo phi (0, 1)%nat phi (0, 2)%nat phi (1, 2)%nat dest add2_op in
  let dest := main_convolve_Hessians3 T geo phi (1, 2)%nat phi (1, 2)%nat phi (0, 0)%nat dest sub_op in
  let dest := main_convolve_Hessians3 T geo phi (0, 2)%nat phi (0, 2)%nat phi (1, 1)%nat dest sub_op in
  let dest := main_convolve_Hessians3 T geo phi (0, 1)%nat phi (0, 1)%nat phi (2, 2)%nat dest sub_op in
  apply_InverseLaplacian geo dest.

(** main.cc lines 250-255: the body of the loop over [idim] *)
Definition main_compute_A3 (T : Transforms) (geo : geometry)
    (phi phi2 : kgrid) (idim : nat) (dest : kgrid) : kgrid :=
  let idimp := ((idim + 1) mod 3)%nat in
  let idimpp := ((idim + 2) mod 3)%nat in
  let dest := main_convolve_Hessians T geo phi (idim, idimp) phi2 (idim, idimpp) dest assign_op in
  let dest := main_convolve_Hessians T geo phi (idim, idimpp) phi2 (idim, idimp) dest sub_op in
  let dest := main_convolve_DifferenceOfHessians T geo phi2 (idimp, idimpp) phi (idimp, idimp) (idimpp, idimpp) dest add_op in
  let dest := main_convolve_DifferenceOfHessians T geo phi (idimp, idimpp) phi2 (idimp, idimp) (idimpp, idimpp) dest sub_op in
  apply_InverseLaplacian geo dest.

(** main.cc line 108 and lines 150-158: [main] reads the order and uses it
    in the coefficients only; it computes every term whatever the order. *)
Definition main_coefficients (cfg : ConfigFile) (Dplus0 vfac : R)
  : coefficients :=
  lpt_coefficients (read_LPTorder cfg) Dplus0 vfac.

(** ** The semiclassical (QPT) path, lines 313-345 *)

(** the lambda given to [rho.assign_function_of_grids_r], lines 316-319 *)
Definition rho_of_psi (p : ccomplex_t) : R :=
  Re p * Re p + Im p * Im p - 1.

(** the lambda given to [grad_psi.apply_function_k_dep], lines 333-335 *)
Definition grad_kernel (kd : R) (x : ccomplex_t) : ccomplex_t :=
  (x * mkC 0 kd)%C.

(** the lambda given to [tmp.assign_function_of_grids_r], lines 339-341 *)
Definition qpt_velocity (hbar : R) (ppsi pgrad_psi : ccomplex_t) (prho : R)
  : R :=
  Re (Cdivr ((Cconj ppsi * pgrad_psi - ppsi * Cconj pgrad_psi)
               / mkC 0 (2 / hbar))%C
            (1 + prho)).

(** lines 330-336: the gradient of psi along [idim] *)
Definition grad_psi (T : Transforms) (geo : geometry)
    (psi : rcell T -> ccomplex_t) (idim : nat) : rcell T -> ccomplex_t :=
  cFourierTransformBackward T
    (apply_function_k_dep geo
       (fun x idx => grad_kernel (get_k geo idx idim) x)
       (cFourierTransformForward T psi)).

(** lines 316-341: the grid [tmp] that is written out as the velocity
    component [idim] *)
Definition qpt_velocity_field (T : Transforms) (geo : geometry) (hbar : R)
    (psi : rcell T -> ccomplex_t) (idim : nat) : rcell T -> R :=
  let rho := fun x => rho_of_psi (psi x) in
  let grad := grad_psi T geo psi idim in
  fun x => qpt_velocity hbar (psi x) (grad x) (rho x).

(** ** Emission of displacements and velocities, lines 383-463 *)

(** lines 394-398: the value written to [tmp.kelem(idx)] *)
Definition displacement_mode (geo : geometry) (lunit : R) (F : fields)
    (idim idx : nat) : ccomplex_t :=
  let idimp := ((idim + 1) mod 3)%nat in
  let idimpp := ((idim + 2) mod 3)%nat in
  let phitot := (phi F idx + phi2 F idx + phi3a F idx + phi3b F idx)%C in
  Cdivr (Cscal lunit Ci
         * (Cscal (get_k geo idx idim) phitot
            + Cscal (get_k geo idx idimp) (A3 F idimpp idx)
            - Cscal (get_k geo idx idimpp) (A3 F idimp idx)))%C
        (boxlen geo).

(** lines 450-459: the value written to [tmp.kelem(idx)] *)
Definition velocity_mode (geo : geometry) (bSymplecticPT : bool) (vunit : R)
    (c : coefficients) (F : fields) (idim idx : nat) : ccomplex_t :=
  let idimp := ((idim + 1) mod 3)%nat in
  let idimpp := ((idim + 2) mod 3)%nat in
  if negb bSymplecticPT then
    let phitot_v :=
      (Cscal (vfac1 c) (phi F idx) + Cscal (vfac2 c) (phi2 F idx)
       + Cscal (vfac3 c) (phi3a F idx + phi3b F idx))%C in
    Cdivr (Cscal vunit Ci
           * (Cscal (get_k geo idx idim) phitot_v
              + Cscal (vfac3 c)
                  (Cscal (get_k geo idx idimp) (A3 F idimpp idx)
                   - Cscal (get_k geo idx idimpp) (A3 F idimp idx))))%C
          (boxlen geo)
  else
    let phitot_v :=
      (Cscal (vfac1 c) (phi F idx) + Cscal (vfac2 c) (phi2 F idx))%C in
    (Cscal vunit Ci * Cscal (get_k geo idx idim) phitot_v
     + Cscal (vfac1 c) (A3 F idim idx))%C.

(** lines 447-462: the loop that fills [tmp] in k-space *)
Definition velocity_grid (geo : geometry) (bSymplecticPT : bool) (vunit : R)
    (c : coefficients) (F : fields) (idim : nat) (tmp : kgrid) : kgrid :=
  for_loop (local_n geo)
    (fun idx tmp => upd tmp idx (velocity_mode geo bSymplecticPT vunit c F idim idx))
    tmp.

(** ** The particle container, lines 354-427 *)

Definition vec3 : Type := nat -> R.

(** Modelled from the spec: [particle_container] (its header is not among
    the sources).  Section 3: a contiguous array of length M with, for each
    particle, a position, a velocity and one 64-bit id. *)
Record particle_container : Type := mkParticles {
  ids : list Z;
  positions : list vec3;
  velocities : list vec3
}.

Fixpoint list_set {A : Type} (l : list A) (i : nat) (v : A) : list A :=
  match l, i with
  | [], _ => []
  | _ :: t, O => v :: t
  | h :: t, S i' => h :: list_set t i' v
  end.

Definition allocate (n : nat) : particle_container :=
  mkParticles (repeat 0%Z n) (repeat (fun _ => 0) n) (repeat (fun _ => 0) n).

Definition wrap64 (z : Z) : Z := (z mod 2 ^ 64)%Z.

Definition set_id (P : particle_container) (ipart : nat) (id : Z)
  : particle_container :=
  mkParticles (list_set (ids P) ipart (wrap64 id)) (positions P) (velocities P).

Definition set_comp (v : vec3) (idim : nat) (x : R) : vec3 :=
  fun d => if Nat.eqb d idim then x else v d.

Definition set_pos (P : particle_container) (ipart idim : nat) (x : R)
  : particle_container :=
  mkParticles (ids P)
    (list_set (positions P) ipart (set_comp (nth ipart (positions P) (fun _ => 0)) idim x))
    (velocities P).

(** Modelled from the spec: [particle_container::get_local_offset].
    Section 3: the local offset in IDs is (BCC ? 2 : 1) * local_offset * N^2,
    with [local_offset] the first plane of the slab of the rank. *)
Definition get_local_offset (local_offset N : nat) : nat :=
  (local_offset * N * N)%nat.

(** Modelled from the spec: [Grid_FFT::local_size], section 3:
    M = N_loc * N^2. *)
Definition local_size (N_loc N : nat) : nat := (N_loc * N * N)%nat.

(** lines 361-364 *)
Definition allocate_particles (initial_bcc_lattice : bool) (num_p_in_load : nat)
  : particle_container :=
  if initial_bcc_lattice then allocate (2 * num_p_in_load)
  else allocate num_p_in_load.

(** lines 371-376: the body of the innermost loop, on the counter and the
    container *)
Definition id_body (initial_bcc_lattice : bool) (ipcount0 : Z)
    (st : nat * particle_container) : nat * particle_container :=
  let '(ipcount, P) := st in
  let P := set_id P ipcount (Z.of_nat ipcount + ipcount0) in
  let ipcount := S ipcount in
  if initial_bcc_lattice
  then (S ipcount, set_id P ipcount (Z.of_nat ipcount + ipcount0))
  else (ipcount, P).

(** lines 367-379; [n0], [n1], [n2] are [tmp.size(0..2)] *)
Definition generate_ids (initial_bcc_lattice : bool) (local_offset : nat)
    (n0 n1 n2 : nat) (P : particle_container) : particle_container :=
  let ipcount0 :=
    wrap64 ((if initial_bcc_lattice then 2 else 1) * Z.of_nat local_offset) in
  snd (for_loop n0 (fun _ =>
         for_loop n1 (fun _ =>
           for_loop n2 (fun _ => id_body initial_bcc_lattice ipcount0)))
         (O, P)).

(** lines 407-414 and 419-426: one pass over the cells that stores the
    component [idim] of the positions from slot [start] on; [unit_r] is
    [get_unit_r] or [get_unit_r_staggered], [relem] the displacement *)
Definition store_positions (lunit : R) (unit_r : nat -> nat -> nat -> vec3)
    (relem : nat -> nat -> nat -> R) (idim n0 n1 n2 start : nat)
    (P : particle_container) : particle_container :=
  snd (for_loop n0 (fun i =>
         for_loop n1 (fun j =>
           for_loop n2 (fun k (st : nat * particle_container) =>
             let '(ipcount, P) := st in
             (S ipcount,
              set_pos P ipcount idim (unit_r i j k idim * lunit + relem i j k)))))
         (start, P)).

(** lines 405-428 for particle output: [relem_s] is [tmp] after
    [stagger_field] *)
Definition emit_positions (initial_bcc_lattice : bool) (lunit : R)
    (unit_r unit_r_staggered : nat -> nat -> nat -> vec3)
    (relem relem_s : nat -> nat -> nat -> R) (idim n0 n1 n2 : nat)
    (num_p_in_load : nat) (P : particle_container) : particle_container :=
  let P := store_positions lunit unit_r relem idim n0 n1 n2 0 P in
  if initial_bcc_lattice
  then store_positions lunit unit_r_staggered relem_s idim n0 n1 n2
         num_p_in_load P
  else P.

(** ** A periodic box with two cells per axis

    The smallest box on which the Hessians do not vanish: eight cells, eight
    modes with wave numbers 0 or -1 along each axis, box length 2 pi, and the
    discrete Fourier transform itself (all its phases are 1 or -1), without
    padding.  The closed examples below run the cascade on it; the values
    they read come from products of waves whose wave numbers add up inside
    the band, which the padding of the convolver leaves as they are. *)

Definition sgn (b : bool) : R := if b then -1 else 1.

(** the phase exp(2 pi i n.x / 2) of mode [i] at cell [x] *)
Definition chi (i x : nat) : R :=
  sgn (Nat.testbit i 0 && Nat.testbit x 0)
  * sgn (Nat.testbit i 1 && Nat.testbit x 1)
  * sgn (Nat.testbit i 2 && Nat.testbit x 2).

Definition sum8 (f : nat -> R) : R :=
  f 0%nat + f 1%nat + f 2%nat + f 3%nat + f 4%nat + f 5%nat + f 6%nat + f 7%nat.

Definition csum8 (f : nat -> ccomplex_t) : ccomplex_t :=
  mkC (sum8 (fun i => Re (f i))) (sum8 (fun i => Im (f i))).

Definition box2 : Transforms :=
  {| rcell := nat;
     FourierTransformBackward := fun g x => sum8 (fun i => Re (g i) * chi i x) / 8;
     FourierTransformForward := fun u i => RtoC (sum8 (fun x => u x * chi i x));
     cFourierTransformBackward :=
       fun g x => Cdivr (csum8 (fun i => Cscal (chi i x) (g i))) 8;
     cFourierTransformForward := fun u i => csum8 (fun x => Cscal (chi i x) (u x)) |}.

Definition neg_bit (i a : nat) : Z := if Nat.testbit i a then (-1)%Z else 0%Z.

Definition geo2 : geometry :=
  {| local_n := 8;
     mode_of := fun i => (neg_bit i 0, neg_bit i 1, neg_bit i 2);
     boxlen := 2 * PI |}.

(** a potential with the three axis modes excited *)
Definition phi_axes : kgrid :=
  fun i => if (Nat.eqb i 1 || Nat.eqb i 2 || Nat.eqb i 4)%bool then Cone else Czero.

Definition zero_grid : kgrid := fun _ => Czero.

Definition zero_fields : fields :=
  mkFields zero_grid zero_grid zero_grid zero_grid (fun _ => zero_grid).

(** a wave function of modulus one: the Nyquist mode along axis 0 *)
Definition psi_nyquist : nat -> ccomplex_t := fun x => RtoC (chi 1 x).

(** ** The combinations as the specification writes them

    Section 4.4, the formula block: the transverse component A[d], in real
    space, before the inverse Laplacian. *)
Definition A3_combination (T : Transforms) (geo : geometry)
    (phi phi2 : kgrid) (d : nat) : rcell T -> R :=
  let d' := ((d + 1) mod 3)%nat in
  let d'' := ((d + 2) mod 3)%nat in
  fun x =>
    Hess T geo phi2 (d, d') x * Hess T geo phi (d, d'') x
    - Hess T geo phi2 (d, d'') x * Hess T geo phi (d, d') x
    + (Hess T geo phi (d', d'') x
         * (Hess T geo phi2 (d', d') x - Hess T geo phi2 (d'', d'') x)
       - Hess T geo phi2 (d', d'') x
         * (Hess T geo phi (d', d') x - Hess T geo phi (d'', d'') x)).


(** Section 4.4, the formula block: the 3a combination, in real space. *)
Definition phi3a_combination (T : Transforms) (geo : geometry) (phi : kgrid)
  : rcell T -> R :=
  fun x =>
    Hess T geo phi (0, 0)%nat x * Hess T geo phi (1, 1)%nat x
      * Hess T geo phi (2, 2)%nat x
    + 2 * (Hess T geo phi (0, 1)%nat x * Hess T geo phi (0, 2)%nat x
           * Hess T geo phi (1, 2)%nat x)
    - Hess T geo phi (1, 2)%nat x * Hess T geo phi (1, 2)%nat x
      * Hess T geo phi (0, 0)%nat x
    - Hess T geo phi (0, 2)%nat x * Hess T geo phi (0, 2)%nat x
      * Hess T geo phi (1, 1)%nat x
    - Hess T geo phi (0, 1)%nat x * Hess T geo phi (0, 1)%nat x
      * Hess T geo phi (2, 2)%nat x.

(** Section 4.6: the velocity in symplectic mode,
    V_d(k) = i k_d (v_f1 phi + v_f2 phi2) / L + v_f1 A[d](k). *)
Definition spec_symplectic_velocity (geo : geometry) (c : coefficients)
    (F : fields) (d idx : nat) : ccomplex_t :=
  (Cdivr (Ci * Cscal (get_k geo idx d)
                 (Cscal (vfac1 c) (phi F idx) + Cscal (vfac2 c) (phi2 F idx)))
         (boxlen geo)
   + Cscal (vfac1 c) (A3 F d idx))%C.

(** a single excited mode *)
Definition delta_mode (m : nat) : kgrid :=
  fun i => if Nat.eqb i m then Cone else Czero.


(** ** Configurations of the closed examples *)

(** a configuration that differs in the order only *)
Definition with_LPTorder (cfg : ConfigFile) (order : option Z) : ConfigFile :=
  mkConfig (setup_GridRes cfg) (setup_BoxLength cfg) (setup_zstart cfg)
           order (setup_BCClattice cfg) (setup_SymplecticPT cfg)
           (setup_DoFixing cfg).

(** GridRes = 2, BoxLength = 2 pi, zstart = 49, DoFixing = true *)
Definition cfg_fixing : ConfigFile :=
  mkConfig 2 (2 * PI) 49 None None None (Some true).

(** GridRes = 2, BoxLength = 2 pi, zstart = 49, LPTorder = 3,
    SymplecticPT = true *)
Definition cfg_symplectic : ConfigFile :=
  mkConfig 2 (2 * PI) 49 (Some 3%Z) None (Some true) None.

(** what [Run] computes for one species: the potentials, the terms
    announced in the log, and the time coefficients of the order in use *)
Definition Run_terms (T : Transforms) (geo : geometry) (amp : R -> R)
    (cfg : ConfigFile) (Dplus0 vfac : R) (noise : kgrid) (F : fields)
  : fields * list log_entry * coefficients :=
  let '(LPTorder, F, log) := Run_potentials T geo amp cfg Dplus0 vfac noise F in
  (F, log, lpt_coefficients LPTorder Dplus0 vfac).


(** ** The ranks of a run

    The slab decomposition gives each rank [N_loc] planes from plane
    [local_offset] on; the offsets are the running sums of the slab sizes.
    Each rank runs lines 354-380 on its own slab. *)

Definition rank_ids (initial_bcc_lattice : bool) (N local_offset N_loc : nat)
  : list Z :=
  ids (generate_ids initial_bcc_lattice (get_local_offset local_offset N)
         N_loc N N
         (allocate_particles initial_bcc_lattice (local_size N_loc N))).

Fixpoint all_rank_ids (initial_bcc_lattice : bool) (N : nat)
    (slabs : list nat) (local_offset : nat) : list Z :=
  match slabs with
  | [] => []
  | N_loc :: rest =>
      rank_ids initial_bcc_lattice N local_offset N_loc
      ++ all_rank_ids initial_bcc_lattice N rest (local_offset + N_loc)
  end.

(** the cells of a slab in the order in which three nested loops visit them *)
Definition cells (n0 n1 n2 : nat) : list (nat * nat * nat) :=
  flat_map (fun i => flat_map (fun j => map (fun k => (i, j, k)) (seq 0 n2))
                              (seq 0 n1))
           (seq 0 n0).


(** Section 4.4: the second-order combination, in real space. *)
Definition phi2_combination (T : Transforms) (geo : geometry) (phi : kgrid)
  : rcell T -> R :=
  fun x =>
    Hess T geo phi (0, 0)%nat x
      * (Hess T geo phi (1, 1)%nat x + Hess T geo phi (2, 2)%nat x)
    + Hess T geo phi (1, 1)%nat x * Hess T geo phi (2, 2)%nat x
    - Hess T geo phi (0, 1)%nat x * Hess T geo phi (0, 1)%nat x
    - Hess T geo phi (0, 2)%nat x * Hess T geo phi (0, 2)%nat x
    - Hess T geo phi (1, 2)%nat x * Hess T geo phi (1, 2)%nat x.

(** ** Runs on the box with two cells per axis

    The amplitude is one at every scale; the volume factor is that of
    BoxLength = 2 pi and GridRes = 2.  The noise is chosen so that the
    first-order potential is one at the excited modes. *)
Definition amp_one : R -> R := fun _ => 1.
Definition vol2 : R := volfac (2 * PI) 2.

(** white noise with the three axis modes excited *)
Definition noise_axes : kgrid :=
  fun i => if (Nat.eqb i 1 || Nat.eqb i 2 || Nat.eqb i 4)%bool
           then mkC (- vol2) 0 else Czero.

(** white noise with the mode (-1,0,0) excited *)
Definition noise_single : kgrid :=
  fun i => if Nat.eqb i 1 then mkC (- vol2) 0 else Czero.


(** a second-order potential: the three modes (-1,-1,0), (-1,0,-1) and
    (0,-1,-1) excited *)
Definition phi2_axes : kgrid :=
  fun i => if (Nat.eqb i 3 || Nat.eqb i 5 || Nat.eqb i 6)%bool
           then mkC (-1 / 16) 0 else Czero.


(** ** Further code of [Run] and [main] *)

(** main.cc lines 235-242 *)
Definition main_compute_phi3b (T : Transforms) (geo : geometry)
    (phi phi2 dest : kgrid) : kgrid :=
  let dest := main_convolve_SumOfHessians T geo phi (0, 0)%nat phi2 (1, 1)%nat (2, 2)%nat dest assign_op in
  let dest := main_convolve_SumOfHessians T geo phi (1, 1)%nat phi2 (2, 2)%nat (0, 0)%nat dest add_op in
  let dest := main_convolve_SumOfHessians T geo phi (2, 2)%nat phi2 (0, 0)%nat (1, 1)%nat dest add_op in
  let dest := main_convolve_Hessians T geo phi (0, 1)%nat phi2 (0, 1)%nat dest sub2_op in
  let dest := main_convolve_Hessians T geo phi (0, 2)%nat phi2 (0, 2)%nat dest sub2_op in
  let dest := main_convolve_Hessians T geo phi (1, 2)%nat phi2 (1, 2)%nat dest sub2_op in
  scale geo 0.5 (apply_InverseLaplacian geo dest).

(** main.cc lines 409-412: the value written to [tmp.kelem(idx)] for the
    displacement *)
Definition main_displacement_mode (geo : geometry) (F : fields)
    (idim idx : nat) : ccomplex_t :=
  let idimp := ((idim + 1) mod 3)%nat in
  let idimpp := ((idim + 2) mod 3)%nat in
  let phitot := (phi F idx + phi2 F idx + phi3a F idx + phi3b F idx)%C in
  Cdivr (Ci * (Cscal (get_k geo idx idim) phitot
               + Cscal (get_k geo idx idimp) (A3 F idimpp idx)
               - Cscal (get_k geo idx idimpp) (A3 F idimp idx)))%C
        (boxlen geo).

(** main.cc lines 434-437: the value written to [tmp.kelem(idx)] for the
    velocity *)
Definition main_velocity_mode (geo : geometry) (c : coefficients) (F : fields)
    (idim idx : nat) : ccomplex_t :=
  let idimp := ((idim + 1) mod 3)%nat in
  let idimpp := ((idim + 2) mod 3)%nat in
  let phitot_v :=
    (Cscal (vfac1 c) (phi F idx) + Cscal (vfac2 c) (phi2 F idx)
     + Cscal (vfac3 c) (phi3a F idx + phi3b F idx))%C in
  Cdivr (Ci * (Cscal (get_k geo idx idim) phitot_v
               + Cscal (vfac3 c)
                   (Cscal (get_k geo idx idimp) (A3 F idimpp idx)
                    - Cscal (get_k geo idx idimpp) (A3 F idimp idx))))%C
        (boxlen geo).

(** main.cc lines 141-146: the rows written to input_powerspec.txt.  The
    loop [for (k = kmin; k < kmax; k *= 1.1)] is run with fuel; the flag
    tells whether the loop ended by its own test.  [k] is a real number
    here: what the rounding of the double does to the growth of a positive
    [k] is not modelled. *)
Definition powerspec_row (amp : R -> R) (Dplus0 k : R) : R * R * R :=
  (k, (amp k * Dplus0) * (amp k * Dplus0), amp k * amp k).

Fixpoint powerspec_rows (fuel : nat) (amp : R -> R) (Dplus0 k kmax : R)
  : list (R * R * R) * bool :=
  match fuel with
  | O => ([], false)
  | S fuel' =>
      if Rlt_dec k kmax
      then let '(rows, finished) :=
             powerspec_rows fuel' amp Dplus0 (k * 1.1) kmax in
           (powerspec_row amp Dplus0 k :: rows, finished)
      else ([], true)
  end.

(** *** The wave function of the semiclassical path, lines 277-311 *)

(** [std::exp] of a complex number *)
Definition Cexp (z : ccomplex_t) : ccomplex_t :=
  mkC (exp (Re z) * cos (Im z)) (exp (Re z) * sin (Im z)).

(** line 280; [std_phi1] is [phi.std()] *)
Definition hbar_of (ngrid : nat) (std_phi1 Dplus0 : R) : R :=
  2 * PI / INR ngrid * (2 * std_phi1 / Dplus0).

(** lines 284-286: the lambda for order 1 *)
Definition psi_init1 (hbar Dplus0 pphi : R) : ccomplex_t :=
  Cexp (Cmulr (mkC 0 (1 / hbar)) (pphi / Dplus0)).

(** lines 290-292: the lambda for an order of 2 or more *)
Definition psi_init2 (hbar Dplus0 pphi pphi2 : R) : ccomplex_t :=
  Cexp (Cdivr (Cmulr (mkC 0 (1 / hbar)) (pphi + pphi2)) Dplus0).

(** lines 301-304: the drift in k-space *)
Definition drift_kernel (hbar Dplus0 : R) (epsi : ccomplex_t) (k2 : R)
  : ccomplex_t :=
  (epsi * Cexp (Cmulr (Cmulr (Cmulr (- mkC 0 0.5) hbar) k2) Dplus0))%C.

(** lines 308-310: the second multiplication by the phase of phi2 *)
Definition kick_kernel (hbar Dplus0 : R) (ppsi : ccomplex_t) (pphi2 : R)
  : ccomplex_t :=
  (ppsi * Cexp (Cdivr (Cmulr (mkC 0 (1 / hbar)) pphi2) Dplus0))%C.

(** lines 283-294: psi is assigned for an order of 1 and for an order of 2
    or more, and left as constructed otherwise *)
Definition qpt_psi_init (T : Transforms) (hbar Dplus0 : R) (LPTorder : Z)
    (phi_r phi2_r : rcell T -> R) (psi0 : rcell T -> ccomplex_t)
  : rcell T -> ccomplex_t :=
  if (LPTorder =? 1)%Z then fun x => psi_init1 hbar Dplus0 (phi_r x)
  else if (LPTorder >=? 2)%Z
       then fun x => psi_init2 hbar Dplus0 (phi_r x) (phi2_r x)
       else psi0.

(** lines 300-304: psi in k-space after the drift *)
Definition qpt_psi_drifted_k (T : Transforms) (geo : geometry)
    (hbar Dplus0 : R) (psi : rcell T -> ccomplex_t) : kgrid :=
  apply_function_k_dep geo
    (fun epsi idx => drift_kernel hbar Dplus0 epsi (norm_squared geo idx))
    (cFourierTransformForward T psi).

(** lines 283-311: the wave function from which rho and the velocities are
    taken; [phi_r] and [phi2_r] are phi and phi2 in real space *)
Definition qpt_psi (T : Transforms) (geo : geometry) (hbar Dplus0 : R)
    (LPTorder : Z) (phi_r phi2_r : rcell T -> R)
    (psi0 : rcell T -> ccomplex_t) : rcell T -> ccomplex_t :=
  let psi := qpt_psi_init T hbar Dplus0 LPTorder phi_r phi2_r psi0 in
  let psi := cFourierTransformBackward T
               (qpt_psi_drifted_k T geo hbar Dplus0 psi) in
  if (LPTorder >=? 2)%Z
  then fun x => kick_kernel hbar Dplus0 (psi x) (phi2_r x)
  else psi.

(** *** Velocities of the particles, lines 466-485 *)

Definition set_vel (P : particle_container) (ipart idim : nat) (x : R)
  : particle_container :=
  mkParticles (ids P) (positions P)
    (list_set (velocities P) ipart
       (set_comp (nth ipart (velocities P) (fun _ => 0)) idim x)).

(** lines 467-473 and 478-484: one pass over the cells that stores the
    component [idim] of the velocities from slot [start] on *)
Definition store_velocities (relem : nat -> nat -> nat -> R)
    (idim n0 n1 n2 start : nat) (P : particle_container) : particle_container :=
  snd (for_loop n0 (fun i =>
         for_loop n1 (fun j =>
           for_loop n2 (fun k (st : nat * particle_container) =>
             let '(ipcount, P) := st in
             (S ipcount, set_vel P ipcount idim (relem i j k)))))
         (start, P)).

(** lines 466-486 for particle output *)
Definition emit_velocities (initial_bcc_lattice : bool)
    (relem relem_s : nat -> nat -> nat -> R) (idim n0 n1 n2 : nat)
    (num_p_in_load : nat) (P : particle_container) : particle_container :=
  let P := store_velocities relem idim n0 n1 n2 0 P in
  if initial_bcc_lattice
  then store_velocities relem_s idim n0 n1 n2 num_p_in_load P
  else P.

(** Section 4.4, the formula block: the 3b combination, in real space,
    before the inverse Laplacian and the factor 1/2. *)
Definition phi3b_combination (T : Transforms) (geo : geometry)
    (phi phi2 : kgrid) : rcell T -> R :=
  fun x =>
    Hess T geo phi (0, 0)%nat x
      * (Hess T geo phi2 (1, 1)%nat x + Hess T geo phi2 (2, 2)%nat x)
    + Hess T geo phi (1, 1)%nat x
      * (Hess T geo phi2 (2, 2)%nat x + Hess T geo phi2 (0, 0)%nat x)
    + Hess T geo phi (2, 2)%nat x
      * (Hess T geo phi2 (0, 0)%nat x + Hess T geo phi2 (1, 1)%nat x)
    - 2 * (Hess T geo phi (0, 1)%nat x * Hess T geo phi2 (0, 1)%nat x)
    - 2 * (Hess T geo phi (0, 2)%nat x * Hess T geo phi2 (0, 2)%nat x)
    - 2 * (Hess T geo phi (1, 2)%nat x * Hess T geo phi2 (1, 2)%nat x).

(** Section 4.4, symplectic variant: the sum over e of phi_e phi2_de. *)
Definition vNLO_combination (T : Transforms) (geo : geometry)
    (phi phi2 : kgrid) (d : nat) : rcell T -> R :=
  fun x =>
    Grad T geo phi 0 x * Hess T geo phi2 (d, 0%nat) x
    + Grad T geo phi 1 x * Hess T geo phi2 (d, 1%nat) x
    + Grad T geo phi 2 x * Hess T geo phi2 (d, 2%nat) x.

(** ** Quotients that may have no value

    The model divides over the reals, where a quotient by zero is a number
    like any other.  On doubles [x / 0.0] is infinite or not a number.  The
    checked quotient has no value there; it is used where a statement is
    about such a division. *)
Definition checked_Cdivr (a : ccomplex_t) (r : R) : option ccomplex_t :=
  if Req_dec_T r 0 then None else Some (Cdivr a r).

(** line 131 of ic_generator.cc,
    [if( bDoFixing ) x = (std::abs(x)!=0.0)? x / std::abs(x) : x;],
    with the checked quotient *)
Definition fix_mode_checked (bDoFixing : bool) (x : ccomplex_t)
  : option ccomplex_t :=
  if bDoFixing
  then (if Req_dec_T (Cabs x) 0 then Some x else checked_Cdivr x (Cabs x))
  else Some x.

(** main.cc lines 196-197,
    [if( bDoFixing ) x = x / std::abs(x); else x = x;],
    with the checked quotient; [main] runs it with [main_bDoFixing] *)
Definition main_fix_mode_checked (bDoFixing : bool) (x : ccomplex_t)
  : option ccomplex_t :=
  if bDoFixing then checked_Cdivr x (Cabs x) else Some x.

(** Section 4.4 of the specification, 1LPT, as it is worded: x_k is replaced
    by x_k/|x_k| when fixing is enabled, then
    phi_k = -(x_k Phat(|k|)) / (|k|^2 V_f).  The quotient x_k/|x_k| is the
    checked one: the wording gives no value to a mode of modulus zero. *)
Definition spec_phi1_value (fixing : bool) (x : ccomplex_t) (P k2 Vf : R)
  : option ccomplex_t :=
  match (if fixing then checked_Cdivr x (Cabs x) else Some x) with
  | Some x' => Some (Cdivr (- Cmulr x' P)%C (k2 * Vf))
  | None => None
  end.

(** ** The key setup.LPTorder as it is configured

    Line 42, [int LPTorder = the_config.GetValueSafe<double>(...,100);]: the
    value of the key is a double, and the initialisation of the [int]
    truncates it towards zero.  The conversion is defined for the doubles
    whose truncation fits an [int] of 32 bits. *)
Definition double_to_int (x : R) : Z :=
  if Rle_dec 0 x then Int_part x else (- Int_part (- x))%Z.

Definition fits_int (x : R) : Prop := -2147483649 < x < 2147483648.

(** the configuration in which the key holds the double [value], or is
    absent *)
Definition with_configured_order (cfg : ConfigFile) (value : option R)
  : ConfigFile :=
  with_LPTorder cfg (option_map double_to_int value).

(** ** The orders as the specification describes them *)

(** Section 6 of the specification, setup.LPTorder: the order is 1, 2 or 3,
    other values being clamped. *)
Definition clamped_order (n : Z) : Z := Z.max 1 (Z.min n 3).

(** Section 4.4: the terms of an order, in the order of their computation
    (2LPT from order 2 on, the three terms of 3LPT at order 3) *)
Definition terms_of_order (e : Z) : list log_entry :=
  [ilog "Computing phi(1) term"]
  ++ (if (2 <=? e)%Z then [ilog "Computing phi(2) term"] else [])
  ++ (if (3 <=? e)%Z
      then [ilog "Computing phi(3a) term"; ilog "Computing phi(3b) term";
            ilog "Computing A(3) term"]
      else []).

(** Section 3: the growth coefficients g1 = -D, g2 = -(3/7) D^2,
    g3a = -(1/3) D^3, g3b = (10/21) D^3, g3c = -(1/7) D^3 and the velocity
    factors, those above the order being zero *)
Definition coefficients_of_order (e : Z) (Dplus0 vfac : R) : coefficients :=
  {| g1 := - Dplus0;
     g2 := if (2 <=? e)%Z then -3 / 7 * Dplus0 * Dplus0 else 0;
     g3a := if (3 <=? e)%Z then -1 / 3 * Dplus0 * Dplus0 * Dplus0 else 0;
     g3b := if (3 <=? e)%Z then 10 / 21 * Dplus0 * Dplus0 * Dplus0 else 0;
     g3c := if (3 <=? e)%Z then -1 / 7 * Dplus0 * Dplus0 * Dplus0 else 0;
     vfac1 := vfac;
     vfac2 := 2 * vfac;
     vfac3 := 3 * vfac |}.

(** ** A periodic box with four cells per axis and the padded convolver

    N = 4 and box length 2 pi.  The 64 modes have wave numbers -2, -1, 0, 1
    along each axis, stored in the order 0, 1, -2, -1; the scratch grids of
    the convolver have N' = 6 cells per axis. *)

Definition cent4 (i : nat) : Z :=
  if (i <? 2)%nat then Z.of_nat i else (Z.of_nat i - 4)%Z.

Definition geo4 : geometry :=
  {| local_n := 64;
     mode_of := fun idx =>
       (cent4 (idx / 16), cent4 ((idx / 4) mod 4), cent4 (idx mod 4));
     boxlen := 2 * PI |}.

(** cos and sin of 2 pi m / 6 *)
Definition cos6 (m : Z) : R :=
  match (m mod 6)%Z with
  | 0%Z => 1 | 1%Z => 1 / 2 | 2%Z => -1 / 2 | 3%Z => -1 | 4%Z => -1 / 2
  | _ => 1 / 2
  end.
Definition sin6 (m : Z) : R :=
  match (m mod 6)%Z with
  | 0%Z => 0 | 1%Z => sqrt 3 / 2 | 2%Z => sqrt 3 / 2 | 3%Z => 0
  | 4%Z => - sqrt 3 / 2 | _ => - sqrt 3 / 2
  end.

(** n.x for a mode n and a cell x of the padded grid *)
Definition dot6 (n : Z * Z * Z) (x : nat * nat * nat) : Z :=
  (fst (fst n) * Z.of_nat (fst (fst x)) + snd (fst n) * Z.of_nat (snd (fst x))
   + snd n * Z.of_nat (snd x))%Z.

Definition sum6 (f : nat -> R) : R :=
  f 0%nat + f 1%nat + f 2%nat + f 3%nat + f 4%nat + f 5%nat.
Definition sum_cells6 (f : nat * nat * nat -> R) : R :=
  sum6 (fun x0 => sum6 (fun x1 => sum6 (fun x2 => f (x0, x1, x2)))).
Definition sum_modes (n : nat) (f : nat -> R) : R :=
  fold_right (fun idx acc => f idx + acc) 0 (seq 0 n).

(** Modelled from the spec: the transforms that [OrszagConvolver] runs on
    its scratch grids (convolution.hh is not among the sources), section
    4.3, steps (i), (iii), (v) and (vi).  Backward: the k-cube is copied
    into the padded buffer, the rest being zero, and transformed to the 216
    cells with the normalization 1/N'^3; the grids of the cascade are
    transforms of real fields, and the real part is what a cell holds.
    Forward: the transform of the 216 cells, of which the central cube, the
    64 modes, is kept.  The sum of two wave numbers of the band lies between
    -4 and 2 and comes back into the band, on the padded grid, only when it
    lies in the band: no product of two fields is aliased.  The transforms
    of a complex grid, which the cascade does not use, are those of the
    same cells. *)
Definition pad6 : Transforms :=
  {| rcell := (nat * nat * nat)%type;
     FourierTransformBackward := fun g x =>
       sum_modes 64 (fun idx =>
         Re (g idx) * cos6 (dot6 (mode_of geo4 idx) x)
         - Im (g idx) * sin6 (dot6 (mode_of geo4 idx) x)) / 216;
     FourierTransformForward := fun u idx =>
       mkC (sum_cells6 (fun x => u x * cos6 (dot6 (mode_of geo4 idx) x)))
           (- sum_cells6 (fun x => u x * sin6 (dot6 (mode_of geo4 idx) x)));
     cFourierTransformBackward := fun g x =>
       mkC (sum_modes 64 (fun idx =>
              Re (g idx) * cos6 (dot6 (mode_of geo4 idx) x)
              - Im (g idx) * sin6 (dot6 (mode_of geo4 idx) x)) / 216)
           (sum_modes 64 (fun idx =>
              Re (g idx) * sin6 (dot6 (mode_of geo4 idx) x)
              + Im (g idx) * cos6 (dot6 (mode_of geo4 idx) x)) / 216);
     cFourierTransformForward := fun u idx =>
       mkC (sum_cells6 (fun x =>
              Re (u x) * cos6 (dot6 (mode_of geo4 idx) x)
              + Im (u x) * sin6 (dot6 (mode_of geo4 idx) x)))
           (sum_cells6 (fun x =>
              Im (u x) * cos6 (dot6 (mode_of geo4 idx) x)
              - Re (u x) * sin6 (dot6 (mode_of geo4 idx) x))) |}.

(** a real field with one wave: the mode [m] and its conjugate [m'] hold 1 *)
Definition pair_mode (m m' : nat) : kgrid :=
  fun i => if (Nat.eqb i m || Nat.eqb i m')%bool then Cone else Czero.

(** phi with the wave (0,1,1), phi2 with the wave (0,1,0) *)
Definition phi_diag4 : kgrid := pair_mode 5 15.



(** * Properties *)

(** ** Complex arithmetic *)

Lemma C_eq (a b : ccomplex_t) : Re a = Re b -> Im a = Im b -> a = b.
Proof. destruct a, b; simpl; intros -> ->; reflexivity. Qed.

(** closes an equation between complex expressions, componentwise *)
Ltac Cring :=
  apply C_eq; unfold Cplus, Cminus, Cmult, Copp, Cscal, Cmulr, Cconj, RtoC,
    Czero, Cone, Ci; simpl; ring.

Lemma Cabs_zero_inv (x : ccomplex_t) : Cabs x = 0 -> x = Czero.
Proof.
  unfold Cabs. intros H. apply sqrt_eq_0 in H; [|nra].
  apply C_eq; simpl; nra.
Qed.

Lemma Cabs_phase (x : ccomplex_t) : Cabs x <> 0 -> Cabs (Cdivr x (Cabs x)) = 1.
Proof.
  intros Hx. unfold Cabs in *. simpl.
  set (s := Re x * Re x + Im x * Im x) in *.
  assert (Hs : 0 <= s) by (unfold s; nra).
  assert (Hq : sqrt s * sqrt s = s) by (apply sqrt_sqrt; exact Hs).
  replace (Re x / sqrt s * (Re x / sqrt s) + Im x / sqrt s * (Im x / sqrt s))
    with (s / (sqrt s * sqrt s)) by (unfold s; field; exact Hx).
  rewrite Hq. replace (s / s) with 1.
  - apply sqrt_1.
  - field. intros E. apply Hx. rewrite E. apply sqrt_0.
Qed.

(** ** Loops over the local slab *)

Lemma for_loop_S {S : Type} (n : nat) (body : nat -> S -> S) (s : S) :
  for_loop (Datatypes.S n) body s = body n (for_loop n body s).
Proof.
  unfold for_loop. rewrite seq_S, fold_left_app. reflexivity.
Qed.

Lemma upd_same (g : kgrid) (i : nat) (v : ccomplex_t) : upd g i v i = v.
Proof. unfold upd. rewrite Nat.eqb_refl. reflexivity. Qed.

Lemma upd_other (g : kgrid) (i j : nat) (v : ccomplex_t) :
  j <> i -> upd g i v j = g j.
Proof.
  intros H. unfold upd. apply Nat.eqb_neq in H. rewrite H. reflexivity.
Qed.

(** a loop whose body rewrites cell [idx] from the value it holds touches
    every cell below the bound once *)
Lemma pointwise_loop (F : nat -> ccomplex_t -> ccomplex_t) (n : nat)
    (g : kgrid) (j : nat) :
  for_loop n (fun idx st => upd st idx (F idx (st idx))) g j =
  if (j <? n)%nat then F j (g j) else g j.
Proof.
  induction n as [|n IH].
  - reflexivity.
  - rewrite for_loop_S. destruct (Nat.eq_dec j n) as [->|Hne].
    + rewrite upd_same.
      replace (n <? Datatypes.S n)%nat with true
        by (symmetry; apply Nat.ltb_lt; lia).
      f_equal.
      change (for_loop n (fun idx st => upd st idx (F idx (st idx))) g n = g n).
      rewrite IH. rewrite Nat.ltb_irrefl. reflexivity.
    + rewrite upd_other by exact Hne. rewrite IH.
      destruct (Nat.ltb_spec j n), (Nat.ltb_spec j (Datatypes.S n));
        try reflexivity; lia.
Qed.

Lemma apply_function_k_dep_at (geo : geometry)
    (f : ccomplex_t -> nat -> ccomplex_t) (g : kgrid) (idx : nat) :
  apply_function_k_dep geo f g idx =
  if (idx <? local_n geo)%nat then f (g idx) idx else g idx.
Proof.
  unfold apply_function_k_dep.
  apply (pointwise_loop (fun idx x => f x idx)).
Qed.

Lemma for_loop_ext {S : Type} (n : nat) (body1 body2 : nat -> S -> S) (s : S) :
  (forall i st, body1 i st = body2 i st) ->
  for_loop n body1 s = for_loop n body2 s.
Proof.
  intros H. induction n as [|n IH].
  - reflexivity.
  - rewrite !for_loop_S, IH. apply H.
Qed.

Lemma stream_at (geo : geometry) (op : ccomplex_t -> ccomplex_t -> ccomplex_t)
    (w : writer) (res dest : kgrid) (idx : nat) :
  (forall g i v, w g i v = upd g i (op (g i) v)) ->
  stream geo w res dest idx =
  if (idx <? local_n geo)%nat then op (dest idx) (res idx) else dest idx.
Proof.
  intros Hw. unfold stream.
  rewrite (for_loop_ext _ _
             (fun idx0 st => upd st idx0 (op (st idx0) (res idx0)))).
  - apply (pointwise_loop (fun i old => op old (res i))).
  - intros i st. apply Hw.
Qed.

Lemma stream_op_at (geo : geometry)
    (op : ccomplex_t -> ccomplex_t -> ccomplex_t) (res dest : kgrid)
    (idx : nat) :
  stream_op geo op res dest idx =
  if (idx <? local_n geo)%nat then op (res idx) (dest idx) else dest idx.
Proof.
  unfold stream_op. apply (pointwise_loop (fun i old => op (res i) old)).
Qed.

Lemma apply_InverseLaplacian_at (geo : geometry) (g : kgrid) (idx : nat) :
  (idx < local_n geo)%nat ->
  apply_InverseLaplacian geo g idx =
  if is_DC (mode_of geo idx) then Czero
  else Cdivr (- g idx)%C (norm_squared geo idx).
Proof.
  intros H. unfold apply_InverseLaplacian. rewrite apply_function_k_dep_at.
  apply Nat.ltb_lt in H. rewrite H. reflexivity.
Qed.

Lemma apply_InverseLaplacian_ext (geo : geometry) (g h : kgrid) (idx : nat) :
  g idx = h idx ->
  apply_InverseLaplacian geo g idx = apply_InverseLaplacian geo h idx.
Proof.
  intros E. unfold apply_InverseLaplacian. rewrite !apply_function_k_dep_at.
  rewrite E. reflexivity.
Qed.

(** ** The box with two cells per axis *)

Lemma get_k_geo2 (i a : nat) :
  get_k geo2 i a = IZR (mode_comp (mode_of geo2 i) a).
Proof.
  unfold get_k. simpl boxlen. field. apply PI_neq0.
Qed.

Lemma box2_linear : linear_forward box2.
Proof.
  constructor.
  - intros u v H idx. simpl. unfold sum8. rewrite !H. reflexivity.
  - intros u v idx. simpl. unfold sum8. Cring.
  - intros c u idx. simpl. unfold sum8. Cring.
Qed.

(** ** The semiclassical velocity *)

Lemma qpt_velocity_eq (hbar : R) (ppsi pgrad_psi : ccomplex_t) (prho : R) :
  hbar <> 0 ->
  qpt_velocity hbar ppsi pgrad_psi prho =
  hbar * Im (Cconj ppsi * pgrad_psi)%C / (1 + prho).
Proof.
  intros Hh. unfold qpt_velocity, Cdivr, Cdiv, Cmult, Cminus, Cconj; simpl.
  unfold Rdiv. rewrite <- Rmult_assoc. f_equal. field. exact Hh.
Qed.

Lemma rho_of_psi_abs (p : ccomplex_t) : rho_of_psi p = Cabs p * Cabs p - 1.
Proof.
  unfold rho_of_psi, Cabs. rewrite sqrt_sqrt by nra. reflexivity.
Qed.

(** a wave function that is the Nyquist mode along axis 0 *)
Lemma grad_psi_nyquist (x : nat) :
  (x < 8)%nat ->
  grad_psi box2 geo2 psi_nyquist 0 x = mkC 0 (- chi 1 x).
Proof.
  intros Hx. unfold grad_psi, psi_nyquist. simpl cFourierTransformBackward.
  unfold csum8, sum8. rewrite !apply_function_k_dep_at. simpl local_n.
  simpl Nat.ltb. cbv iota. unfold grad_kernel. rewrite !get_k_geo2.
  do 8 (destruct x as [|x];
        [apply C_eq; simpl; unfold chi, sgn, neg_bit; simpl; lra|]).
  lia.
Qed.

(** C1 (amended).  In the semiclassical path the velocity component along
    axis [d] that is written out at cell [x] is
    hbar * Im(conj(psi) * grad_d psi) / (1 + rho), with rho = |psi|^2 - 1 and
    grad_d psi the backward transform of psi multiplied in k-space by
    i * k_d: the current is multiplied by hbar, not divided by it. *)
Theorem qpt_velocity_field_current (T : Transforms) (geo : geometry)
    (hbar : R) (psi : rcell T -> ccomplex_t) (d : nat) (x : rcell T) :
  hbar <> 0 ->
  qpt_velocity_field T geo hbar psi d x =
    hbar * Im (Cconj (psi x) * grad_psi T geo psi d x)%C
    / (1 + (Cabs (psi x) * Cabs (psi x) - 1))
  /\ exists gk : kgrid,
       grad_psi T geo psi d = cFourierTransformBackward T gk
       /\ forall idx, (idx < local_n geo)%nat ->
            gk idx = (mkC 0 (get_k geo idx d) * cFourierTransformForward T psi idx)%C.
Proof.
  intros Hh. split.
  - unfold qpt_velocity_field. rewrite qpt_velocity_eq by exact Hh.
    rewrite rho_of_psi_abs. reflexivity.
  - eexists. split.
    + reflexivity.
    + intros idx Hidx. rewrite apply_function_k_dep_at.
      apply Nat.ltb_lt in Hidx. rewrite Hidx. unfold grad_kernel. Cring.
Qed.

Lemma qpt_velocity_field_current_witness :
  2 <> 0
  /\ qpt_velocity_field box2 geo2 2 psi_nyquist 0 0%nat =
       2 * Im (Cconj (psi_nyquist 0%nat) * grad_psi box2 geo2 psi_nyquist 0 0%nat)%C
       / (1 + (Cabs (psi_nyquist 0%nat) * Cabs (psi_nyquist 0%nat) - 1)).
Proof.
  split.
  - lra.
  - apply (qpt_velocity_field_current box2 geo2 2 psi_nyquist 0 0%nat). lra.
Defined.

(** C1 as stated fails: with hbar = 2 and the Nyquist wave function on the
    box with two cells per axis, the velocity written at cell 0 is -2, while
    Im(conj(psi) * grad psi) / (hbar * (1 + rho)) is -1/2. *)
Lemma qpt_velocity_not_divided_by_hbar :
  qpt_velocity_field box2 geo2 2 psi_nyquist 0 0%nat = -2
  /\ Im (Cconj (psi_nyquist 0%nat) * grad_psi box2 geo2 psi_nyquist 0 0%nat)%C
     / (2 * (1 + rho_of_psi (psi_nyquist 0%nat))) = -1 / 2
  /\ qpt_velocity_field box2 geo2 2 psi_nyquist 0 0%nat <>
     Im (Cconj (psi_nyquist 0%nat) * grad_psi box2 geo2 psi_nyquist 0 0%nat)%C
     / (2 * (1 + rho_of_psi (psi_nyquist 0%nat))).
Proof.
  assert (E1 : qpt_velocity_field box2 geo2 2 psi_nyquist 0 0%nat = -2).
  { unfold qpt_velocity_field. rewrite qpt_velocity_eq by lra.
    rewrite grad_psi_nyquist by lia.
    unfold psi_nyquist, rho_of_psi, chi, sgn. simpl. field. }
  assert (E2 : Im (Cconj (psi_nyquist 0%nat)
                   * grad_psi box2 geo2 psi_nyquist 0 0%nat)%C
               / (2 * (1 + rho_of_psi (psi_nyquist 0%nat))) = -1 / 2).
  { rewrite grad_psi_nyquist by lia.
    unfold psi_nyquist, rho_of_psi, chi, sgn. simpl. field. }
  split; [exact E1|]. split; [exact E2|].
  rewrite E1, E2. lra.
Qed.

(** ** Writers and the linear forward transform *)

Section Streams.

Variable geo : geometry.
Variables res dest : kgrid.
Variable idx : nat.
Hypothesis Hidx : (idx < local_n geo)%nat.

Lemma stream_in (op : ccomplex_t -> ccomplex_t -> ccomplex_t) (w : writer) :
  (forall g i v, w g i v = upd g i (op (g i) v)) ->
  stream geo w res dest idx = op (dest idx) (res idx).
Proof.
  intros Hw. rewrite (stream_at geo op w) by exact Hw.
  apply Nat.ltb_lt in Hidx. rewrite Hidx. reflexivity.
Qed.

Lemma stream_assign_to : stream geo assign_to res dest idx = res idx.
Proof. apply (stream_in (fun _ v => v)). reflexivity. Qed.

Lemma stream_add_to :
  stream geo add_to res dest idx = (dest idx + res idx)%C.
Proof. apply (stream_in (fun old v => (old + v)%C)). reflexivity. Qed.

Lemma stream_add_twice_to :
  stream geo add_twice_to res dest idx = (dest idx + Cscal 2 (res idx))%C.
Proof. apply (stream_in (fun old v => (old + Cscal 2 v)%C)). reflexivity. Qed.

Lemma stream_subtract_from :
  stream geo subtract_from res dest idx = (dest idx - res idx)%C.
Proof. apply (stream_in (fun old v => (old - v)%C)). reflexivity. Qed.

Lemma stream_subtract_twice_from :
  stream geo subtract_twice_from res dest idx = (dest idx - Cscal 2 (res idx))%C.
Proof. apply (stream_in (fun old v => (old - Cscal 2 v)%C)). reflexivity. Qed.

Lemma stream_op_in (op : ccomplex_t -> ccomplex_t -> ccomplex_t) :
  stream_op geo op res dest idx = op (res idx) (dest idx).
Proof.
  rewrite stream_op_at. apply Nat.ltb_lt in Hidx. rewrite Hidx. reflexivity.
Qed.

End Streams.

Section Linear.

Variable T : Transforms.
Hypothesis HT : linear_forward T.

Lemma forward_minus (u v : rcell T -> R) (idx : nat) :
  FourierTransformForward T (fun x => u x - v x) idx = (FourierTransformForward T u idx - FourierTransformForward T v idx)%C.
Proof.
  rewrite (forward_ext T HT _ (fun x => u x + (-1) * v x))
    by (intros x; ring).
  rewrite (forward_plus T HT u (fun x => (-1) * v x)).
  rewrite (forward_scal T HT (-1) v). Cring.
Qed.

Lemma forward_opp (u : rcell T -> R) (idx : nat) :
  FourierTransformForward T (fun x => - u x) idx = (- FourierTransformForward T u idx)%C.
Proof.
  rewrite (forward_ext T HT _ (fun x => (-1) * u x)) by (intros x; ring).
  rewrite (forward_scal T HT (-1) u). Cring.
Qed.

(** the four terms of a transverse component *)
Lemma forward_four (u v w z : rcell T -> R) (idx : nat) :
  FourierTransformForward T (fun x => u x - v x + (w x - z x)) idx =
  (FourierTransformForward T u idx - FourierTransformForward T v idx + FourierTransformForward T w idx - FourierTransformForward T z idx)%C.
Proof.
  rewrite (forward_plus T HT (fun x => u x - v x) (fun x => w x - z x)).
  rewrite !forward_minus. Cring.
Qed.

(** the five terms of the 3a combination *)
Lemma forward_five (a b c d e : rcell T -> R) (idx : nat) :
  FourierTransformForward T (fun x => a x + 2 * b x - c x - d x - e x) idx =
  (FourierTransformForward T a idx + Cscal 2 (FourierTransformForward T b idx) - FourierTransformForward T c idx - FourierTransformForward T d idx - FourierTransformForward T e idx)%C.
Proof.
  rewrite (forward_minus (fun x => a x + 2 * b x - c x - d x) e).
  rewrite (forward_minus (fun x => a x + 2 * b x - c x) d).
  rewrite (forward_minus (fun x => a x + 2 * b x) c).
  rewrite (forward_plus T HT a (fun x => 2 * b x)).
  rewrite (forward_scal T HT 2 b). reflexivity.
Qed.

End Linear.

(** ** The transverse term A(3) *)

(** [Run] assembles A[d] as the inverse Laplacian of that combination *)
Lemma Run_A3_combination (T : Transforms) (geo : geometry)
    (phi phi2 dest : kgrid) (d idx : nat) :
  linear_forward T -> (idx < local_n geo)%nat ->
  compute_A3 T geo phi phi2 d dest idx =
  apply_InverseLaplacian geo
    (FourierTransformForward T (A3_combination T geo phi phi2 d)) idx.
Proof.
  intros HT Hidx. unfold compute_A3. apply apply_InverseLaplacian_ext.
  unfold convolve_DifferenceOfHessians, convolve_Hessians.
  rewrite stream_subtract_from, stream_add_to, stream_subtract_from,
    stream_assign_to by exact Hidx.
  unfold A3_combination. cbv zeta.
  rewrite (forward_four T HT). reflexivity.
Qed.

(** [main] assembles the opposite combination *)
Lemma main_A3_combination (T : Transforms) (geo : geometry)
    (phi phi2 dest : kgrid) (d idx : nat) :
  linear_forward T -> (idx < local_n geo)%nat ->
  main_compute_A3 T geo phi phi2 d dest idx =
  apply_InverseLaplacian geo
    (FourierTransformForward T (fun x => - A3_combination T geo phi phi2 d x))
    idx.
Proof.
  intros HT Hidx. unfold main_compute_A3. apply apply_InverseLaplacian_ext.
  unfold main_convolve_DifferenceOfHessians, main_convolve_Hessians.
  rewrite !stream_op_in by exact Hidx.
  unfold sub_op, add_op, assign_op.
  rewrite (forward_ext T HT (fun x => - A3_combination T geo phi phi2 d x)
    (fun x =>
       Hess T geo phi (d, (d + 1) mod 3)%nat x
         * Hess T geo phi2 (d, (d + 2) mod 3)%nat x
       - Hess T geo phi (d, (d + 2) mod 3)%nat x
         * Hess T geo phi2 (d, (d + 1) mod 3)%nat x
       + (Hess T geo phi2 ((d + 1) mod 3, (d + 2) mod 3)%nat x
            * (Hess T geo phi ((d + 1) mod 3, (d + 1) mod 3)%nat x
               - Hess T geo phi ((d + 2) mod 3, (d + 2) mod 3)%nat x)
          - Hess T geo phi ((d + 1) mod 3, (d + 2) mod 3)%nat x
            * (Hess T geo phi2 ((d + 1) mod 3, (d + 1) mod 3)%nat x
               - Hess T geo phi2 ((d + 2) mod 3, (d + 2) mod 3)%nat x))))
    by (intros x; unfold A3_combination; cbv zeta; ring).
  rewrite (forward_four T HT). reflexivity.
Qed.

(** ** The 3a term *)

Lemma Run_phi3a_combination (T : Transforms) (geo : geometry)
    (phi dest : kgrid) (idx : nat) :
  linear_forward T -> (idx < local_n geo)%nat ->
  compute_phi3a T geo phi dest idx =
  apply_InverseLaplacian geo
    (FourierTransformForward T (phi3a_combination T geo phi)) idx.
Proof.
  intros HT Hidx. unfold compute_phi3a. apply apply_InverseLaplacian_ext.
  unfold convolve_Hessians3.
  rewrite !stream_subtract_from, stream_add_twice_to, stream_assign_to
    by exact Hidx.
  unfold phi3a_combination.
  rewrite (forward_five T HT). reflexivity.
Qed.

Lemma main_phi3a_combination (T : Transforms) (geo : geometry)
    (phi dest : kgrid) (idx : nat) :
  linear_forward T -> (idx < local_n geo)%nat ->
  main_compute_phi3a T geo phi dest idx =
  apply_InverseLaplacian geo
    (FourierTransformForward T (phi3a_combination T geo phi)) idx.
Proof.
  intros HT Hidx. unfold main_compute_phi3a. apply apply_InverseLaplacian_ext.
  unfold main_convolve_Hessians3.
  rewrite !stream_op_in by exact Hidx.
  unfold sub_op, add2_op, assign_op, phi3a_combination.
  rewrite (forward_five T HT). reflexivity.
Qed.

(** C4 (amended).  After the 3a step, in [Run] and in [main] alike, phi3a
    holds the inverse Laplacian of the combination
    phi_00 phi_11 phi_22 + 2 phi_01 phi_02 phi_12 - phi_12^2 phi_00
    - phi_02^2 phi_11 - phi_01^2 phi_22 of the five triple products: at the
    DC mode zero, at any other mode minus its transform divided by |k|^2. *)
Theorem phi3a_inverse_laplacian (T : Transforms) (geo : geometry)
    (phi dest : kgrid) (idx : nat) :
  linear_forward T -> (idx < local_n geo)%nat ->
  compute_phi3a T geo phi dest idx =
    (if is_DC (mode_of geo idx) then Czero
     else Cdivr (- FourierTransformForward T (phi3a_combination T geo phi) idx)%C
                (norm_squared geo idx))
  /\ main_compute_phi3a T geo phi dest idx = compute_phi3a T geo phi dest idx.
Proof.
  intros HT Hidx. split.
  - rewrite Run_phi3a_combination by assumption.
    apply apply_InverseLaplacian_at. exact Hidx.
  - rewrite Run_phi3a_combination, main_phi3a_combination by assumption.
    reflexivity.
Qed.

Lemma phi3a_inverse_laplacian_witness :
  linear_forward box2 /\ (7 < local_n geo2)%nat
  /\ compute_phi3a box2 geo2 phi_axes zero_grid 7%nat =
       (if is_DC (mode_of geo2 7%nat) then Czero
        else Cdivr (- FourierTransformForward box2
                        (phi3a_combination box2 geo2 phi_axes) 7%nat)%C
                   (norm_squared geo2 7)).
Proof.
  split; [exact box2_linear|]. split; [simpl; lia|].
  apply (phi3a_inverse_laplacian box2 geo2 phi_axes zero_grid 7%nat).
  - exact box2_linear.
  - simpl; lia.
Defined.

(** ** The first-order potential and the fixing of modes *)

Lemma compute_phi1_at (geo : geometry) (bDoFixing : bool) (amp : R -> R)
    (vol : R) (noise : kgrid) (idx : nat) :
  (idx < local_n geo)%nat ->
  compute_phi1 geo bDoFixing amp vol noise idx =
  if is_DC (mode_of geo idx) then Czero
  else phi1_kernel bDoFixing amp vol (noise idx) (norm geo idx).
Proof.
  intros H. unfold compute_phi1, zero_DC_mode.
  rewrite !apply_function_k_dep_at. apply Nat.ltb_lt in H. rewrite H.
  reflexivity.
Qed.

Lemma norm_squared_nonneg (geo : geometry) (idx : nat) :
  0 <= norm_squared geo idx.
Proof. unfold norm_squared. nra. Qed.

Lemma phi1_kernel_eq (bDoFixing : bool) (amp : R -> R) (vol : R)
    (x : ccomplex_t) (geo : geometry) (idx : nat) :
  phi1_kernel bDoFixing amp vol x (norm geo idx) =
  Cdivr (- Cmulr (fix_mode bDoFixing x) (amp (norm geo idx)))%C
        (norm_squared geo idx * vol).
Proof.
  unfold phi1_kernel. cbv zeta. unfold norm at 2 3.
  rewrite sqrt_sqrt by apply norm_squared_nonneg.
  unfold Cdivr. simpl. unfold Rdiv. rewrite Rinv_mult.
  apply C_eq; simpl; ring.
Qed.

Lemma fix_mode_nonzero (x : ccomplex_t) :
  Cabs x <> 0 -> fix_mode true x = Cdivr x (Cabs x).
Proof.
  intros H. unfold fix_mode. destruct (Req_dec_T (Cabs x) 0) as [E|_].
  - contradiction.
  - reflexivity.
Qed.

Lemma fix_mode_zero (x : ccomplex_t) : Cabs x = 0 -> fix_mode true x = x.
Proof.
  intros H. unfold fix_mode. destruct (Req_dec_T (Cabs x) 0) as [_|N].
  - reflexivity.
  - contradiction.
Qed.

Lemma Cabs_Cone : Cabs Cone = 1.
Proof.
  unfold Cabs, Cone. simpl. replace (1 * 1 + 0 * 0) with 1 by ring.
  apply sqrt_1.
Qed.

Lemma Cabs_Czero : Cabs Czero = 0.
Proof.
  unfold Cabs, Czero. simpl. replace (0 * 0 + 0 * 0) with 0 by ring.
  apply sqrt_0.
Qed.

Lemma fix_mode_checked_value (bDoFixing : bool) (x : ccomplex_t) :
  fix_mode_checked bDoFixing x = Some (fix_mode bDoFixing x).
Proof.
  unfold fix_mode_checked, fix_mode, checked_Cdivr.
  destruct bDoFixing; [|reflexivity].
  destruct (Req_dec_T (Cabs x) 0); reflexivity.
Qed.

Lemma checked_Cdivr_zero (a : ccomplex_t) : checked_Cdivr a 0 = None.
Proof.
  unfold checked_Cdivr. destruct (Req_dec_T 0 0) as [_|N]; [reflexivity|].
  exfalso. apply N. reflexivity.
Qed.

Lemma checked_Cdivr_nonzero (a : ccomplex_t) (r : R) :
  r <> 0 -> checked_Cdivr a r = Some (Cdivr a r).
Proof.
  intros H. unfold checked_Cdivr. destruct (Req_dec_T r 0) as [E|_].
  - contradiction.
  - reflexivity.
Qed.

Lemma fix_mode_cases (bDoFixing : bool) (x : ccomplex_t) :
  fix_mode bDoFixing x =
  if bDoFixing
  then (if Req_dec_T (Cabs x) 0 then x else Cdivr x (Cabs x))
  else x.
Proof. reflexivity. Qed.

Lemma zero_mode_potential (a d : R) : Cdivr (- Cmulr Czero a)%C d = Czero.
Proof. apply C_eq; simpl; unfold Rdiv; ring. Qed.

Lemma Cabs_two_i : Cabs (mkC 0 2) = 2.
Proof.
  unfold Cabs. simpl. replace (0 * 0 + 2 * 2) with (2 * 2) by ring.
  apply sqrt_square. lra.
Qed.

(** C5 (amended).  In the 1LPT step of [Run] a mode other than DC with noise
    value x is set to -(x' Phat(|k|)) / (|k|^2 V_f), with
    V_f = (L/N/(2 pi))^(3/2), where x' is x without fixing and, with fixing,
    x/|x| when |x| is not zero and x itself when |x| is zero, the potential
    being zero then; the replacement forms no quotient by zero.  Where the
    wording of the specification gives a value, it is this one.  [main] sets
    the mode to the value without fixing.  The DC mode is zero afterwards. *)
Theorem phi1_mode_value (geo : geometry) (bDoFixing : bool) (amp : R -> R)
    (L : R) (N : nat) (noise : kgrid) (idx : nat) :
  (idx < local_n geo)%nat ->
  is_DC (mode_of geo idx) = false ->
  let x := noise idx in
  let x' := if bDoFixing
            then (if Req_dec_T (Cabs x) 0 then x else Cdivr x (Cabs x))
            else x in
  compute_phi1 geo bDoFixing amp (volfac L N) noise idx =
    Cdivr (- Cmulr x' (amp (norm geo idx)))%C
          (norm_squared geo idx * volfac L N)
  /\ fix_mode_checked bDoFixing x = Some x'
  /\ (bDoFixing = true -> Cabs x = 0 ->
      compute_phi1 geo bDoFixing amp (volfac L N) noise idx = Czero)
  /\ (bDoFixing = false \/ Cabs x <> 0 ->
      spec_phi1_value bDoFixing x (amp (norm geo idx)) (norm_squared geo idx)
        (volfac L N)
      = Some (compute_phi1 geo bDoFixing amp (volfac L N) noise idx))
  /\ main_compute_phi1 geo amp (volfac L N) noise idx =
       Cdivr (- Cmulr x (amp (norm geo idx)))%C
             (norm_squared geo idx * volfac L N)
  /\ volfac L N = Rpower (L / INR N / (2 * PI)) (3 / 2)
  /\ norm_squared geo idx = norm geo idx * norm geo idx
  /\ (forall j, (j < local_n geo)%nat -> is_DC (mode_of geo j) = true ->
        compute_phi1 geo bDoFixing amp (volfac L N) noise j = Czero
        /\ main_compute_phi1 geo amp (volfac L N) noise j = Czero).
Proof.
  intros Hidx Hdc. cbv zeta.
  assert (E : compute_phi1 geo bDoFixing amp (volfac L N) noise idx =
              Cdivr (- Cmulr (fix_mode bDoFixing (noise idx))
                             (amp (norm geo idx)))%C
                    (norm_squared geo idx * volfac L N)).
  { rewrite compute_phi1_at by exact Hidx. rewrite Hdc. apply phi1_kernel_eq. }
  split; [exact E|]. split; [apply fix_mode_checked_value|].
  split; [|split; [|split; [|split; [|split]]]].
  - intros Hb Hx. rewrite E, Hb. rewrite fix_mode_zero by exact Hx.
    rewrite (Cabs_zero_inv _ Hx). apply zero_mode_potential.
  - intros Hcase. rewrite E. unfold spec_phi1_value.
    destruct bDoFixing.
    + destruct Hcase as [Hb|Hx]; [discriminate|].
      rewrite checked_Cdivr_nonzero by exact Hx.
      rewrite fix_mode_nonzero by exact Hx. reflexivity.
    + reflexivity.
  - change (compute_phi1 geo false amp (volfac L N) noise idx =
            Cdivr (- Cmulr (noise idx) (amp (norm geo idx)))%C
                  (norm_squared geo idx * volfac L N)).
    rewrite compute_phi1_at by exact Hidx. rewrite Hdc, phi1_kernel_eq.
    reflexivity.
  - unfold volfac. f_equal.
    + unfold Rdiv. rewrite Rinv_mult. ring.
    + lra.
  - unfold norm. rewrite sqrt_sqrt by apply norm_squared_nonneg. reflexivity.
  - intros j Hj Hjdc. split.
    + rewrite compute_phi1_at by exact Hj. rewrite Hjdc. reflexivity.
    + change (compute_phi1 geo false amp (volfac L N) noise j = Czero).
      rewrite compute_phi1_at by exact Hj. rewrite Hjdc. reflexivity.
Qed.

(** a noise of modulus 2 and phase i at every mode: with fixing the mode
    (-1,0,0) of the two-cell box gets the potential of the phase i *)
Lemma phi1_mode_value_witness :
  (1 < local_n geo2)%nat
  /\ is_DC (mode_of geo2 1%nat) = false
  /\ compute_phi1 geo2 true amp_one (volfac (2 * PI) 2) (fun _ => mkC 0 2)
       1%nat =
     Cdivr (- Cmulr (if Req_dec_T (Cabs (mkC 0 2)) 0 then mkC 0 2
                     else Cdivr (mkC 0 2) (Cabs (mkC 0 2)))
                    (amp_one (norm geo2 1)))%C
           (norm_squared geo2 1 * volfac (2 * PI) 2).
Proof.
  assert (H1 : (1 < local_n geo2)%nat) by (simpl; lia).
  assert (H2 : is_DC (mode_of geo2 1%nat) = false) by reflexivity.
  split; [exact H1|]. split; [exact H2|].
  exact (proj1 (phi1_mode_value geo2 true amp_one (2 * PI) 2
                  (fun _ => mkC 0 2) 1 H1 H2)).
Defined.

(** C5 as stated has no value for a mode of modulus zero under fixing: the
    quotient x/|x| is a quotient by zero, while [Run] leaves the mode as it
    is and sets the potential to zero. *)
Lemma phi1_zero_mode_under_fixing :
  is_DC (mode_of geo2 1%nat) = false
  /\ Cabs (zero_grid 1%nat) = 0
  /\ spec_phi1_value true (zero_grid 1%nat) (amp_one (norm geo2 1))
       (norm_squared geo2 1) (volfac (2 * PI) 2) = None
  /\ compute_phi1 geo2 true amp_one (volfac (2 * PI) 2) zero_grid 1%nat
     = Czero.
Proof.
  split; [reflexivity|]. split; [exact Cabs_Czero|]. split.
  - unfold spec_phi1_value. change (zero_grid 1%nat) with Czero.
    rewrite Cabs_Czero, checked_Cdivr_zero. reflexivity.
  - rewrite compute_phi1_at by (simpl; lia).
    change (is_DC (mode_of geo2 1%nat)) with false. cbv iota.
    rewrite phi1_kernel_eq. change (zero_grid 1%nat) with Czero.
    rewrite fix_mode_zero by exact Cabs_Czero. apply zero_mode_potential.
Qed.

(** C9 (amended).  In [Run], when setup.DoFixing is true a noise mode of
    modulus other than zero is replaced by its phase x/|x|, of modulus one,
    and a mode of modulus zero is left as it is; when the key is absent or
    false the mode keeps its value; the amplitude is applied afterwards.
    [main] does not read the key: the mode keeps its value whatever the
    configuration. *)
Theorem fixing_follows_config (cfg : ConfigFile) (x : ccomplex_t) :
  (setup_DoFixing cfg = Some true ->
     (Cabs x <> 0 ->
        fix_mode (read_fixing cfg) x = Cdivr x (Cabs x)
        /\ fix_mode_checked (read_fixing cfg) x = Some (Cdivr x (Cabs x))
        /\ Cabs (fix_mode (read_fixing cfg) x) = 1)
     /\ (Cabs x = 0 ->
           fix_mode (read_fixing cfg) x = x
           /\ fix_mode_checked (read_fixing cfg) x = Some x))
  /\ (setup_DoFixing cfg <> Some true ->
        fix_mode (read_fixing cfg) x = x
        /\ fix_mode_checked (read_fixing cfg) x = Some x)
  /\ (forall amp vol kmod,
        phi1_kernel (read_fixing cfg) amp vol x kmod =
        Cdivr (Cdivr (- Cmulr (fix_mode (read_fixing cfg) x) (amp kmod))%C
                     (kmod * kmod)) vol)
  /\ (forall amp vol kmod,
        main_phi1_kernel amp vol x kmod =
        Cdivr (Cdivr (- Cmulr x (amp kmod))%C (kmod * kmod)) vol).
Proof.
  split; [|split; [|split]].
  - intros Hcfg. unfold read_fixing. rewrite Hcfg. cbn [GetValueSafe].
    split.
    + intros Hx. rewrite fix_mode_checked_value.
      rewrite fix_mode_nonzero by exact Hx.
      split; [reflexivity|]. split; [reflexivity|].
      apply Cabs_phase. exact Hx.
    + intros Hx. rewrite fix_mode_checked_value.
      rewrite fix_mode_zero by exact Hx. split; reflexivity.
  - intros Hcfg. unfold read_fixing, GetValueSafe.
    destruct (setup_DoFixing cfg) as [[|]|].
    + exfalso. apply Hcfg. reflexivity.
    + split; reflexivity.
    + split; reflexivity.
  - intros amp vol kmod. reflexivity.
  - intros amp vol kmod. reflexivity.
Qed.

Lemma fixing_follows_config_witness :
  setup_DoFixing cfg_fixing = Some true
  /\ Cabs (mkC 0 2) <> 0
  /\ fix_mode (read_fixing cfg_fixing) (mkC 0 2)
     = Cdivr (mkC 0 2) (Cabs (mkC 0 2))
  /\ Cabs (fix_mode (read_fixing cfg_fixing) (mkC 0 2)) = 1.
Proof.
  assert (Hc : setup_DoFixing cfg_fixing = Some true) by reflexivity.
  assert (H : Cabs (mkC 0 2) <> 0) by (rewrite Cabs_two_i; lra).
  split; [exact Hc|]. split; [exact H|].
  pose proof (proj1 (proj1 (fixing_follows_config cfg_fixing (mkC 0 2)) Hc) H)
    as (E1 & _ & E3).
  split; [exact E1|exact E3].
Defined.

(** C9 as stated fails twice.  In [Run], with setup.DoFixing set to true,
    the mode 0 is left as it is: its modulus is 0, not 1.  In [main] the key
    is not read: with setup.DoFixing set to true the mode 2 keeps its
    amplitude and gives the potential -2, where [Run] gives -1, that of the
    phase. *)
Lemma fixing_not_as_configured :
  setup_DoFixing cfg_fixing = Some true
  /\ fix_mode (read_fixing cfg_fixing) Czero = Czero
  /\ Cabs (fix_mode (read_fixing cfg_fixing) Czero) <> 1
  /\ main_phi1_kernel amp_one 1 (mkC 2 0) 1 = mkC (-2) 0
  /\ phi1_kernel (read_fixing cfg_fixing) amp_one 1 (mkC 2 0) 1 = mkC (-1) 0.
Proof.
  assert (E : fix_mode (read_fixing cfg_fixing) Czero = Czero).
  { apply fix_mode_zero. apply Cabs_Czero. }
  assert (A2 : Cabs (mkC 2 0) = 2).
  { unfold Cabs. simpl. replace (2 * 2 + 0 * 0) with (2 * 2) by ring.
    apply sqrt_square. lra. }
  split; [reflexivity|]. split; [exact E|]. split.
  - rewrite E, Cabs_Czero. lra.
  - split.
    + unfold main_phi1_kernel, main_bDoFixing, amp_one. cbv zeta.
      apply C_eq; simpl; field.
    + change (read_fixing cfg_fixing) with true.
      unfold phi1_kernel, amp_one. cbv zeta.
      rewrite fix_mode_nonzero by (rewrite A2; lra). rewrite A2.
      apply C_eq; simpl; field.
Qed.

(** C10.  With fixing enabled a mode whose modulus is exactly zero is left
    unchanged, and the potential it gets is that of the mode left alone.
    The quotient x/|x| is formed behind the test of |x|: the fixing of line
    131 has a value for every mode, that is, it never divides by zero,
    while the same quotient without the test, as main.cc line 196 writes
    it, has no value for a mode of modulus zero. *)
Theorem fixing_guard (x : ccomplex_t) :
  Cabs x = 0 ->
  fix_mode_checked true x = Some x
  /\ fix_mode true x = x
  /\ main_fix_mode_checked true x = None
  /\ (forall amp vol kmod,
        phi1_kernel true amp vol x kmod = phi1_kernel false amp vol x kmod)
  /\ (forall y, exists y',
        fix_mode_checked true y = Some y'
        /\ (Cabs y = 0 -> y' = y)
        /\ (Cabs y <> 0 ->
            y' = Cdivr y (Cabs y)
            /\ checked_Cdivr y (Cabs y) = Some y')).
Proof.
  intros Hx. split; [|split; [|split; [|split]]].
  - rewrite fix_mode_checked_value, fix_mode_zero by exact Hx. reflexivity.
  - apply fix_mode_zero. exact Hx.
  - unfold main_fix_mode_checked. rewrite Hx. apply checked_Cdivr_zero.
  - intros amp vol kmod. unfold phi1_kernel. cbv zeta.
    rewrite fix_mode_zero by exact Hx. reflexivity.
  - intros y. exists (fix_mode true y).
    split; [apply fix_mode_checked_value|]. split.
    + intros Hy. apply fix_mode_zero. exact Hy.
    + intros Hy. rewrite fix_mode_nonzero by exact Hy.
      split; [reflexivity|]. apply checked_Cdivr_nonzero. exact Hy.
Qed.

Lemma fixing_guard_witness :
  Cabs Czero = 0
  /\ fix_mode_checked true Czero = Some Czero
  /\ main_fix_mode_checked true Czero = None.
Proof.
  split; [exact Cabs_Czero|].
  pose proof (fixing_guard Czero Cabs_Czero) as (E1 & _ & E3 & _).
  split; [exact E1|exact E3].
Defined.

(** ** The order of the cascade *)

Lemma min_order_tests (n : Z) :
  (n >? 1)%Z = (Z.min n 3 >? 1)%Z /\ (n >? 2)%Z = (Z.min n 3 >? 2)%Z
  /\ (n =? 2)%Z = (Z.min n 3 =? 2)%Z.
Proof.
  repeat split.
  - destruct (Z.gtb_spec n 1), (Z.gtb_spec (Z.min n 3) 1); auto; lia.
  - destruct (Z.gtb_spec n 2), (Z.gtb_spec (Z.min n 3) 2); auto; lia.
  - destruct (Z.eqb_spec n 2), (Z.eqb_spec (Z.min n 3) 2); auto; lia.
Qed.

Lemma lpt_coefficients_tests (n m : Z) (Dplus0 vfac : R) :
  (n >? 1)%Z = (m >? 1)%Z -> (n >? 2)%Z = (m >? 2)%Z ->
  lpt_coefficients n Dplus0 vfac = lpt_coefficients m Dplus0 vfac.
Proof.
  intros H1 H2. unfold lpt_coefficients. rewrite H1, H2. reflexivity.
Qed.

(** the cascade looks at the order through two tests only *)
Lemma Run_cascade_tests (T : Transforms) (geo : geometry) (amp : R -> R)
    (bDoFixing bSymplecticPT : bool) (n m : Z) (Dplus0 vfac vol : R)
    (noise : kgrid) (F : fields) :
  (n >? 1)%Z = (m >? 1)%Z -> (n >? 2)%Z = (m >? 2)%Z ->
  Run_cascade T geo amp bDoFixing bSymplecticPT n Dplus0 vfac vol noise F =
  Run_cascade T geo amp bDoFixing bSymplecticPT m Dplus0 vfac vol noise F.
Proof.
  intros H1 H2. unfold Run_cascade.
  rewrite (lpt_coefficients_tests n m Dplus0 vfac H1 H2), H1, H2.
  reflexivity.
Qed.

(** [Run] looks at the order through three tests only *)
Lemma Run_terms_tests (T : Transforms) (geo : geometry) (amp : R -> R)
    (cfg : ConfigFile) (Dplus0 vfac : R) (noise : kgrid) (F : fields)
    (m : Z) :
  (read_LPTorder cfg >? 1)%Z = (m >? 1)%Z ->
  (read_LPTorder cfg >? 2)%Z = (m >? 2)%Z ->
  (read_LPTorder cfg =? 2)%Z = (m =? 2)%Z ->
  Run_terms T geo amp cfg Dplus0 vfac noise F =
  Run_terms T geo amp (with_LPTorder cfg (Some m)) Dplus0 vfac noise F.
Proof.
  intros H1 H2 H3.
  unfold Run_terms, Run_potentials, override_order.
  change (read_LPTorder (with_LPTorder cfg (Some m))) with m.
  change (read_symplectic (with_LPTorder cfg (Some m)))
    with (read_symplectic cfg).
  change (read_fixing (with_LPTorder cfg (Some m))) with (read_fixing cfg).
  simpl setup_BoxLength. simpl setup_GridRes.
  rewrite H3.
  destruct (read_symplectic cfg && negb (m =? 2)%Z).
  - reflexivity.
  - rewrite (Run_cascade_tests T geo amp (read_fixing cfg)
               (read_symplectic cfg) (read_LPTorder cfg) m) by assumption.
    destruct (Run_cascade T geo amp (read_fixing cfg) (read_symplectic cfg) m
                Dplus0 vfac
                (volfac (setup_BoxLength cfg) (setup_GridRes cfg)) noise F)
      as [F' log'].
    rewrite (lpt_coefficients_tests (read_LPTorder cfg) m) by assumption.
    reflexivity.
Qed.

(** ** Symplectic mode *)

Lemma Run_potentials_symplectic (T : Transforms) (geo : geometry)
    (amp : R -> R) (cfg : ConfigFile) (Dplus0 vfac : R) (noise : kgrid)
    (F : fields) :
  read_symplectic cfg = true ->
  Run_potentials T geo amp cfg Dplus0 vfac noise F =
  (2%Z,
   fst (Run_cascade T geo amp (read_fixing cfg) true 2 Dplus0 vfac
          (volfac (setup_BoxLength cfg) (setup_GridRes cfg)) noise F),
   (if (read_LPTorder cfg =? 2)%Z then [] else [warn_symplectic])
   ++ [ilog "Computing phi(1) term"; ilog "Computing phi(2) term";
       ilog "Computing vNLO(3) term"]).
Proof.
  intros Hs. unfold Run_potentials, override_order. rewrite Hs.
  destruct (Z.eqb_spec (read_LPTorder cfg) 2) as [E|N].
  - rewrite E. reflexivity.
  - reflexivity.
Qed.

(** C8.  When setup.SymplecticPT is true, [Run] proceeds with order 2, and
    writes the warning when the configured order is not 2; the terms
    phi(3a), phi(3b) and A(3) are not computed: they are not announced in
    the log and the grids phi3a and phi3b are only scaled (by zero); phi(2)
    and the term vNLO(3) are. *)
Theorem symplectic_forces_order_two (T : Transforms) (geo : geometry)
    (amp : R -> R) (cfg : ConfigFile) (Dplus0 vfac : R) (noise : kgrid)
    (F : fields) :
  setup_SymplecticPT cfg = Some true ->
  let r := Run_potentials T geo amp cfg Dplus0 vfac noise F in
  fst (fst r) = 2%Z
  /\ (read_LPTorder cfg <> 2%Z -> In warn_symplectic (snd r))
  /\ ~ In (ilog "Computing phi(3a) term") (snd r)
  /\ ~ In (ilog "Computing phi(3b) term") (snd r)
  /\ ~ In (ilog "Computing A(3) term") (snd r)
  /\ In (ilog "Computing phi(2) term") (snd r)
  /\ In (ilog "Computing vNLO(3) term") (snd r)
  /\ phi3a (snd (fst r)) = scale geo 0 (phi3a F)
  /\ phi3b (snd (fst r)) = scale geo 0 (phi3b F).
Proof.
  intros Hs. cbv zeta.
  assert (Hr : read_symplectic cfg = true)
    by (unfold read_symplectic; rewrite Hs; reflexivity).
  rewrite (Run_potentials_symplectic T geo amp cfg Dplus0 vfac noise F Hr).
  cbn [fst snd].
  split; [reflexivity|].
  split.
  { intros N. apply Z.eqb_neq in N. rewrite N. left. reflexivity. }
  assert (Hlog : forall e,
             e <> warn_symplectic ->
             e <> ilog "Computing phi(1) term" ->
             e <> ilog "Computing phi(2) term" ->
             e <> ilog "Computing vNLO(3) term" ->
             ~ In e ((if (read_LPTorder cfg =? 2)%Z then []
                      else [warn_symplectic])
                     ++ [ilog "Computing phi(1) term";
                         ilog "Computing phi(2) term";
                         ilog "Computing vNLO(3) term"])).
  { intros e H0 H1 H2 H3 Hin. apply in_app_or in Hin.
    destruct Hin as [Hin|Hin].
    - destruct (read_LPTorder cfg =? 2)%Z; simpl in Hin; intuition congruence.
    - simpl in Hin. intuition congruence. }
  repeat split; try (apply Hlog; discriminate).
  - apply in_or_app. right. simpl. auto.
  - apply in_or_app. right. simpl. auto.
Qed.

Lemma symplectic_forces_order_two_witness :
  setup_SymplecticPT cfg_symplectic = Some true
  /\ fst (fst (Run_potentials box2 geo2 (fun _ => 1) cfg_symplectic 1 1
                 phi_axes zero_fields)) = 2%Z
  /\ (read_LPTorder cfg_symplectic <> 2%Z ->
      In warn_symplectic
         (snd (Run_potentials box2 geo2 (fun _ => 1) cfg_symplectic 1 1
                 phi_axes zero_fields))).
Proof.
  split; [reflexivity|].
  pose proof (symplectic_forces_order_two box2 geo2 (fun _ => 1) cfg_symplectic
                1 1 phi_axes zero_fields eq_refl) as H.
  cbv zeta in H. split; [exact (proj1 H)|exact (proj1 (proj2 H))].
Defined.

(** ** The particle container *)

Lemma list_set_length {A : Type} (l : list A) (i : nat) (v : A) :
  length (list_set l i v) = length l.
Proof.
  revert i. induction l as [|h t IH]; intros [|i]; simpl; auto.
Qed.

Lemma list_set_nth_same {A : Type} (l : list A) (i : nat) (v d : A) :
  (i < length l)%nat -> nth i (list_set l i v) d = v.
Proof.
  revert i. induction l as [|h t IH]; intros [|i] H; simpl in *; try lia; auto.
  apply IH. lia.
Qed.

Lemma list_set_nth_other {A : Type} (l : list A) (i j : nat) (v d : A) :
  i <> j -> nth j (list_set l i v) d = nth j l d.
Proof.
  revert i j. induction l as [|h t IH]; intros [|i] [|j] H; simpl; auto; try lia.
Qed.

Lemma for_loop_const {S : Type} (n : nat) (f : S -> S) (s : S) :
  for_loop n (fun _ => f) s = Nat.iter n f s.
Proof.
  induction n as [|n IH].
  - reflexivity.
  - rewrite for_loop_S, IH. reflexivity.
Qed.

Lemma iter_mul {S : Type} (n m : nat) (f : S -> S) (s : S) :
  Nat.iter n (Nat.iter m f) s = Nat.iter (n * m) f s.
Proof.
  induction n as [|n IH].
  - reflexivity.
  - simpl Nat.iter at 1. rewrite IH. simpl Nat.mul.
    rewrite Nat.iter_add. reflexivity.
Qed.

(** the three nested loops of lines 368-379 run the body once for each cell *)
Lemma generate_ids_iter (b : bool) (off n0 n1 n2 : nat)
    (P : particle_container) :
  generate_ids b off n0 n1 n2 P =
  snd (Nat.iter (n0 * n1 * n2)
         (id_body b (wrap64 ((if b then 2 else 1) * Z.of_nat off))) (O, P)).
Proof.
  unfold generate_ids. cbv zeta. f_equal.
  rewrite (for_loop_ext n0 _ (fun _ => Nat.iter (n1 * n2)
             (id_body b (wrap64 ((if b then 2 else 1) * Z.of_nat off))))).
  - rewrite for_loop_const, iter_mul. f_equal. lia.
  - intros i st. cbv beta.
    rewrite (for_loop_ext n1 _ (fun _ => Nat.iter n2
               (id_body b (wrap64 ((if b then 2 else 1) * Z.of_nat off))))).
    + rewrite for_loop_const, iter_mul. reflexivity.
    + intros j st'. apply for_loop_const.
Qed.

Lemma wrap64_small (z : Z) : (0 <= z < 2 ^ 64)%Z -> wrap64 z = z.
Proof. intros H. unfold wrap64. apply Z.mod_small. exact H. Qed.

(** the state after [c] rounds of the innermost body of the id loop *)
Lemma id_iter_invariant (b : bool) (i0 : Z) (c : nat) (P : particle_container) :
  let k := (if b then 2 else 1)%nat in
  let st := Nat.iter c (id_body b i0) (O, P) in
  (k * c <= length (ids P))%nat ->
  fst st = (k * c)%nat
  /\ length (ids (snd st)) = length (ids P)
  /\ (forall p, (p < k * c)%nat ->
        nth p (ids (snd st)) 0%Z = wrap64 (Z.of_nat p + i0))
  /\ (forall p, (k * c <= p)%nat -> nth p (ids (snd st)) 0%Z = nth p (ids P) 0%Z)
  /\ positions (snd st) = positions P
  /\ velocities (snd st) = velocities P.
Proof.
  cbv zeta. destruct b.
  - induction c as [|c IH]; intros Hlen.
    + simpl. repeat split; auto. intros p Hp. lia.
    + simpl Nat.iter.
      destruct IH as (Hc & Hl & Hlow & Hhigh & Hpos & Hvel); [lia|].
      destruct (Nat.iter c (id_body true i0) (O, P)) as [cnt Pc].
      simpl in Hc, Hl, Hlow, Hhigh, Hpos, Hvel. subst cnt.
      unfold id_body, set_id. simpl fst; simpl snd; simpl ids;
        simpl positions; simpl velocities.
      split; [lia|]. split; [rewrite !list_set_length; exact Hl|].
      split; [|split; [|split; assumption]].
      * intros p Hp.
        destruct (Nat.eq_dec p (S (c + (c + 0)))) as [->|N1].
        { rewrite list_set_nth_same by (rewrite list_set_length; lia).
          reflexivity. }
        rewrite list_set_nth_other by lia.
        destruct (Nat.eq_dec p (c + (c + 0))) as [->|N2].
        { rewrite list_set_nth_same by lia. reflexivity. }
        rewrite list_set_nth_other by lia. apply Hlow. lia.
      * intros p Hp. rewrite !list_set_nth_other by lia. apply Hhigh. lia.
  - induction c as [|c IH]; intros Hlen.
    + simpl. repeat split; auto. intros p Hp. lia.
    + simpl Nat.iter.
      destruct IH as (Hc & Hl & Hlow & Hhigh & Hpos & Hvel); [lia|].
      destruct (Nat.iter c (id_body false i0) (O, P)) as [cnt Pc].
      simpl in Hc, Hl, Hlow, Hhigh, Hpos, Hvel. subst cnt.
      unfold id_body, set_id. simpl fst; simpl snd; simpl ids;
        simpl positions; simpl velocities.
      split; [lia|]. split; [rewrite !list_set_length; exact Hl|].
      split; [|split; [|split; assumption]].
      * intros p Hp.
        destruct (Nat.eq_dec p (c + 0)) as [->|N2].
        { rewrite list_set_nth_same by lia. reflexivity. }
        rewrite list_set_nth_other by lia. apply Hlow. lia.
      * intros p Hp. rewrite !list_set_nth_other by lia. apply Hhigh. lia.
Qed.

(** the ids that one rank generates are a block of consecutive numbers *)
Lemma rank_ids_block (b : bool) (N local_offset N_loc : nat) :
  let k := (if b then 2 else 1)%nat in
  (Z.of_nat (k * (local_offset + N_loc) * N * N) <= 2 ^ 64)%Z ->
  rank_ids b N local_offset N_loc =
  map Z.of_nat (seq (k * local_offset * N * N) (k * N_loc * N * N)).
Proof.
  cbv zeta. intros Hwrap. unfold rank_ids. rewrite generate_ids_iter.
  unfold get_local_offset, local_size.
  set (a := (local_offset * N * N)%nat).
  set (m := (N_loc * N * N)%nat).
  replace ((if b then 2 else 1) * local_offset * N * N)%nat
    with ((if b then 2 else 1) * a)%nat by (unfold a; ring).
  replace ((if b then 2 else 1) * N_loc * N * N)%nat
    with ((if b then 2 else 1) * m)%nat by (unfold m; ring).
  replace ((if b then 2 else 1) * (local_offset + N_loc) * N * N)%nat
    with ((if b then 2 else 1) * a + (if b then 2 else 1) * m)%nat in Hwrap
    by (unfold a, m; ring).
  set (i0 := wrap64 ((if b then 2 else 1) * Z.of_nat a)).
  set (P0 := allocate_particles b m).
  assert (HP0 : length (ids P0) = ((if b then 2 else 1) * m)%nat).
  { unfold P0, allocate_particles.
    destruct b; simpl ids; rewrite repeat_length; lia. }
  destruct (id_iter_invariant b i0 m P0) as (_ & Hl & Hlow & _); [lia|].
  apply (nth_ext _ _ 0%Z (Z.of_nat 0)).
  - rewrite Hl, HP0, length_map, length_seq. reflexivity.
  - intros p Hp. rewrite Hl, HP0 in Hp.
    rewrite Hlow by exact Hp. rewrite map_nth, seq_nth by exact Hp.
    assert (Hi0 : i0 = Z.of_nat ((if b then 2 else 1) * a)).
    { unfold i0. rewrite wrap64_small; destruct b; lia. }
    rewrite Hi0. rewrite wrap64_small; destruct b; lia.
Qed.

Lemma all_rank_ids_block (b : bool) (N : nat) (slabs : list nat)
    (local_offset : nat) :
  let k := (if b then 2 else 1)%nat in
  (Z.of_nat (k * (local_offset + list_sum slabs) * N * N) <= 2 ^ 64)%Z ->
  all_rank_ids b N slabs local_offset =
  map Z.of_nat (seq (k * local_offset * N * N) (k * list_sum slabs * N * N)).
Proof.
  cbv zeta. revert local_offset.
  induction slabs as [|N_loc rest IH]; intros local_offset Hwrap.
  - simpl. rewrite Nat.mul_0_r. reflexivity.
  - simpl all_rank_ids. simpl list_sum in *.
    rewrite rank_ids_block, IH.
    + rewrite <- map_app. f_equal.
      replace ((if b then 2 else 1) * (N_loc + list_sum rest) * N * N)%nat
        with ((if b then 2 else 1) * N_loc * N * N
              + (if b then 2 else 1) * list_sum rest * N * N)%nat by ring.
      rewrite seq_app. f_equal. f_equal. ring.
    + replace ((if b then 2 else 1) * (local_offset + N_loc + list_sum rest) * N * N)%nat
        with ((if b then 2 else 1) * (local_offset + (N_loc + list_sum rest)) * N * N)%nat
        by ring.
      exact Hwrap.
    + apply Z.le_trans with (2 := Hwrap). apply Nat2Z.inj_le.
      replace ((if b then 2 else 1) * (local_offset + (N_loc + list_sum rest)) * N * N)%nat
        with ((if b then 2 else 1) * (local_offset + N_loc) * N * N
              + (if b then 2 else 1) * list_sum rest * N * N)%nat by ring.
      lia.
Qed.

(** *** Positions *)

Lemma cells_S (n0 n1 n2 : nat) :
  cells (S n0) n1 n2 =
  cells n0 n1 n2
  ++ flat_map (fun j => map (fun k => (n0, j, k)) (seq 0 n2)) (seq 0 n1).
Proof.
  unfold cells. rewrite seq_S, flat_map_app. simpl. rewrite app_nil_r.
  reflexivity.
Qed.

Lemma cells_length (n0 n1 n2 : nat) :
  length (cells n0 n1 n2) = (n0 * n1 * n2)%nat.
Proof.
  assert (Hrow : forall (i n : nat), length (flat_map (fun j => map (fun k => (i, j, k))
                                (seq 0 n2)) (seq 0 n)) = (n * n2)%nat).
  { intros i n. induction n as [|n IH].
    - reflexivity.
    - rewrite seq_S, flat_map_app, length_app, IH. simpl.
      rewrite app_nil_r, length_map, length_seq. lia. }
  induction n0 as [|n0 IH].
  - reflexivity.
  - rewrite cells_S, length_app, IH, Hrow. lia.
Qed.

(** three nested loops are one pass over the cells in loop order *)
Lemma nested_loops_cells {S : Type} (body : nat -> nat -> nat -> S -> S)
    (n0 n1 n2 : nat) (s : S) :
  for_loop n0 (fun i => for_loop n1 (fun j => for_loop n2 (fun k => body i j k))) s
  = fold_left (fun st c => body (fst (fst c)) (snd (fst c)) (snd c) st)
      (cells n0 n1 n2) s.
Proof.
  assert (Hk : forall (i j n : nat) st,
             for_loop n (fun k => body i j k) st =
             fold_left (fun st c => body (fst (fst c)) (snd (fst c)) (snd c) st)
               (map (fun k => (i, j, k)) (seq 0 n)) st).
  { intros i j n st. induction n as [|n IH].
    - reflexivity.
    - rewrite for_loop_S, IH, seq_S, map_app, fold_left_app. reflexivity. }
  assert (Hj : forall (i n : nat) st,
             for_loop n (fun j => for_loop n2 (fun k => body i j k)) st =
             fold_left (fun st c => body (fst (fst c)) (snd (fst c)) (snd c) st)
               (flat_map (fun j => map (fun k => (i, j, k)) (seq 0 n2)) (seq 0 n))
               st).
  { intros i n st. induction n as [|n IH].
    - reflexivity.
    - rewrite for_loop_S, IH, seq_S, flat_map_app, fold_left_app. simpl.
      rewrite app_nil_r. apply Hk. }
  induction n0 as [|n0 IH].
  - reflexivity.
  - rewrite for_loop_S, IH, cells_S, fold_left_app. apply Hj.
Qed.

(** one pass that stores a value for each cell from slot [start] on *)
Lemma store_pass (val : nat * nat * nat -> R) (idim : nat)
    (l : list (nat * nat * nat)) (start : nat) (P : particle_container) :
  let body := fun (st : nat * particle_container) (c : nat * nat * nat) =>
                let '(ipcount, Q) := st in
                (S ipcount, set_pos Q ipcount idim (val c)) in
  let st := fold_left body l (start, P) in
  (start + length l <= length (positions P))%nat ->
  fst st = (start + length l)%nat
  /\ length (positions (snd st)) = length (positions P)
  /\ (forall q, (q < length l)%nat ->
        nth (start + q) (positions (snd st)) (fun _ => 0) idim
        = val (nth q l (O, O, O)))
  /\ (forall p, (p < start \/ start + length l <= p)%nat ->
        nth p (positions (snd st)) (fun _ => 0)
        = nth p (positions P) (fun _ => 0))
  /\ ids (snd st) = ids P.
Proof.
  cbv zeta. induction l as [|x l IH] using rev_ind; intros Hlen.
  - simpl. rewrite Nat.add_0_r. repeat split; auto. intros q Hq. lia.
  - rewrite length_app in *. simpl length in *. rewrite fold_left_app.
    destruct IH as (Hc & Hl & Hin & Hout & Hid); [lia|].
    destruct (fold_left _ l (start, P)) as [cnt Q].
    simpl in Hc, Hl, Hin, Hout, Hid. subst cnt.
    simpl fold_left. unfold set_pos. simpl fst; simpl snd; simpl positions;
      simpl ids.
    split; [lia|]. split; [rewrite list_set_length; exact Hl|].
    split; [|split; [|exact Hid]].
    + intros q Hq. destruct (Nat.eq_dec q (length l)) as [->|N].
      * rewrite list_set_nth_same by lia. unfold set_comp.
        rewrite Nat.eqb_refl. rewrite app_nth2 by lia.
        rewrite Nat.sub_diag. reflexivity.
      * rewrite list_set_nth_other by lia. rewrite app_nth1 by lia.
        apply Hin. lia.
    + intros p Hp. rewrite list_set_nth_other by lia. apply Hout. lia.
Qed.

Lemma store_positions_pass (lunit : R) (unit_r : nat -> nat -> nat -> vec3)
    (relem : nat -> nat -> nat -> R) (idim n0 n1 n2 start : nat)
    (P : particle_container) :
  store_positions lunit unit_r relem idim n0 n1 n2 start P =
  snd (fold_left
         (fun (st : nat * particle_container) (c : nat * nat * nat) =>
            let '(ipcount, Q) := st in
            (S ipcount,
             set_pos Q ipcount idim
               (unit_r (fst (fst c)) (snd (fst c)) (snd c) idim * lunit
                + relem (fst (fst c)) (snd (fst c)) (snd c))))
         (cells n0 n1 n2) (start, P)).
Proof.
  unfold store_positions. f_equal.
  apply (nested_loops_cells
           (fun i j k (st : nat * particle_container) =>
              let '(ipcount, Q) := st in
              (S ipcount,
               set_pos Q ipcount idim (unit_r i j k idim * lunit + relem i j k)))).
Qed.

Lemma generate_ids_positions (b : bool) (off n0 n1 n2 : nat)
    (P : particle_container) :
  ((if b then 2 else 1) * (n0 * n1 * n2) <= length (ids P))%nat ->
  positions (generate_ids b off n0 n1 n2 P) = positions P.
Proof.
  intros H. rewrite generate_ids_iter.
  destruct (id_iter_invariant b
              (wrap64 ((if b then 2 else 1) * Z.of_nat off)) (n0 * n1 * n2) P)
    as (_ & _ & _ & _ & Hpos & _); [exact H|exact Hpos].
Qed.

(** C6.  With particle output and BCC a rank allocates 2 N_loc N^2
    particles; slot p gets the id 2 local_offset N^2 + p, so the ids of a
    rank are the block of 2 N_loc N^2 consecutive numbers from
    2 local_offset N^2 on, and the ids of all ranks, in rank order, are the
    numbers from 0 on without gap or repetition; the positions of the
    primary lattice fill the slots from 0, those of the staggered lattice the
    slots from N_loc N^2. *)
Theorem bcc_particle_layout (N N_loc local_offset : nat) (slabs : list nat)
    (lunit : R) (unit_r unit_r_staggered : nat -> nat -> nat -> vec3)
    (relem relem_s : nat -> nat -> nat -> R) (idim : nat) :
  (Z.of_nat (2 * (local_offset + N_loc) * N * N) <= 2 ^ 64)%Z ->
  (Z.of_nat (2 * list_sum slabs * N * N) <= 2 ^ 64)%Z ->
  let M := local_size N_loc N in
  let P0 := allocate_particles true M in
  let P := generate_ids true (get_local_offset local_offset N) N_loc N N P0 in
  let Q := emit_positions true lunit unit_r unit_r_staggered relem relem_s
             idim N_loc N N M P in
  length (ids P0) = (2 * N_loc * N * N)%nat
  /\ length (positions P0) = (2 * N_loc * N * N)%nat
  /\ ids P = map Z.of_nat (seq (2 * local_offset * N * N) (2 * N_loc * N * N))
  /\ all_rank_ids true N slabs 0 =
     map Z.of_nat (seq 0 (2 * list_sum slabs * N * N))
  /\ NoDup (all_rank_ids true N slabs 0)
  /\ (forall q, (q < N_loc * N * N)%nat ->
        let c := nth q (cells N_loc N N) (O, O, O) in
        nth q (positions Q) (fun _ => 0) idim
          = unit_r (fst (fst c)) (snd (fst c)) (snd c) idim * lunit
            + relem (fst (fst c)) (snd (fst c)) (snd c)
        /\ nth (N_loc * N * N + q) (positions Q) (fun _ => 0) idim
           = unit_r_staggered (fst (fst c)) (snd (fst c)) (snd c) idim * lunit
             + relem_s (fst (fst c)) (snd (fst c)) (snd c))
  /\ ids Q = ids P.
Proof.
  intros Hw1 Hw2. cbv zeta. unfold local_size.
  set (M := (N_loc * N * N)%nat).
  assert (Hids0 : length (ids (allocate_particles true M)) = (2 * M)%nat)
    by (simpl; apply repeat_length).
  assert (Hpos0 : length (positions (allocate_particles true M)) = (2 * M)%nat)
    by (simpl; apply repeat_length).
  assert (HM : (2 * N_loc * N * N = 2 * M)%nat) by (unfold M; ring).
  split; [rewrite HM; exact Hids0|]. split; [rewrite HM; exact Hpos0|].
  split; [exact (rank_ids_block true N local_offset N_loc Hw1)|].
  assert (Hall : all_rank_ids true N slabs 0 =
                 map Z.of_nat (seq 0 (2 * list_sum slabs * N * N))).
  { rewrite (all_rank_ids_block true N slabs 0) by exact Hw2.
    reflexivity. }
  split; [exact Hall|].
  split.
  { rewrite Hall. apply NoDup_map_NoDup_ForallPairs.
    - intros x y _ _. apply Nat2Z.inj.
    - apply seq_NoDup. }
  set (P := generate_ids true (get_local_offset local_offset N) N_loc N N
              (allocate_particles true M)).
  assert (HposP : length (positions P) = (2 * M)%nat).
  { unfold P. rewrite generate_ids_positions; [exact Hpos0|].
    rewrite Hids0. unfold M. lia. }
  unfold emit_positions. rewrite !store_positions_pass.
  pose proof (cells_length N_loc N N) as Hcl. fold M in Hcl.
  destruct (store_pass
              (fun c => unit_r (fst (fst c)) (snd (fst c)) (snd c) idim * lunit
                        + relem (fst (fst c)) (snd (fst c)) (snd c))
              idim (cells N_loc N N) 0 P)
    as (_ & Hl1 & Hin1 & _ & Hid1); [rewrite Hcl, HposP; lia|].
  match type of Hl1 with
  | length (positions (snd ?st)) = _ => set (st1 := st) in *
  end.
  destruct (store_pass
              (fun c => unit_r_staggered (fst (fst c)) (snd (fst c)) (snd c) idim
                        * lunit
                        + relem_s (fst (fst c)) (snd (fst c)) (snd c))
              idim (cells N_loc N N) M (snd st1))
    as (_ & _ & Hin2 & Hout2 & Hid2); [rewrite Hcl, Hl1, HposP; lia|].
  split.
  - intros q Hq. cbv zeta. split.
    + rewrite Hout2 by lia. rewrite <- (Hin1 q) by lia. reflexivity.
    + apply Hin2. lia.
  - rewrite Hid2, Hid1. reflexivity.
Qed.

Lemma bcc_particle_layout_witness :
  (Z.of_nat (2 * (1 + 1) * 2 * 2) <= 2 ^ 64)%Z
  /\ (Z.of_nat (2 * list_sum [1; 1]%nat * 2 * 2) <= 2 ^ 64)%Z
  /\ ids (generate_ids true (get_local_offset 1 2) 1 2 2
            (allocate_particles true (local_size 1 2)))
     = map Z.of_nat (seq (2 * 1 * 2 * 2) (2 * 1 * 2 * 2)).
Proof.
  assert (H1 : (Z.of_nat (2 * (1 + 1) * 2 * 2) <= 2 ^ 64)%Z)
    by (vm_compute; discriminate).
  assert (H2 : (Z.of_nat (2 * list_sum [1; 1]%nat * 2 * 2) <= 2 ^ 64)%Z)
    by (vm_compute; discriminate).
  split; [exact H1|]. split; [exact H2|].
  exact (proj1 (proj2 (proj2
           (bcc_particle_layout 2 1 1 [1; 1]%nat 1
              (fun _ _ _ _ => 0) (fun _ _ _ _ => 0)
              (fun _ _ _ => 0) (fun _ _ _ => 0) 0 H1 H2)))).
Defined.

(** the second of two ranks on a grid with N = 2: eight particles with the
    ids 8 to 15 *)
Example rank_ids_second_of_two :
  rank_ids true 2 1 1 = [8; 9; 10; 11; 12; 13; 14; 15]%Z.
Proof. vm_compute. reflexivity. Qed.

Example rank_ids_without_bcc :
  rank_ids false 2 1 1 = [4; 5; 6; 7]%Z.
Proof. vm_compute. reflexivity. Qed.

(** ** Runs on the box with two cells per axis *)

(** closes an equation between real expressions built from the transforms
    of the box with two cells per axis on concrete grids *)
Ltac box2_eval :=
  unfold Hess, hessian_component; simpl FourierTransformBackward;
  simpl FourierTransformForward; unfold sum8;
  rewrite ?get_k_geo2;
  unfold chi, sgn, phi_axes, phi2_axes, delta_mode, Cscal, RtoC, Cone, Czero;
  simpl; unfold neg_bit; simpl; lra.

Lemma vol2_pos : 0 < vol2.
Proof. unfold vol2, volfac, Rpower. apply exp_pos. Qed.

Lemma norm_squared_geo2_at (idx : nat) :
  norm_squared geo2 idx =
  IZR (neg_bit idx 0) * IZR (neg_bit idx 0)
  + IZR (neg_bit idx 1) * IZR (neg_bit idx 1)
  + IZR (neg_bit idx 2) * IZR (neg_bit idx 2).
Proof. unfold norm_squared. rewrite !get_k_geo2. reflexivity. Qed.

(** the backward transform of the box reads the eight modes only *)
Lemma Hess_box2_ext (g h : kgrid) (ab : nat * nat) (x : nat) :
  (forall i, (i < 8)%nat -> g i = h i) ->
  Hess box2 geo2 g ab x = Hess box2 geo2 h ab x.
Proof.
  intros H. unfold Hess, hessian_component. simpl FourierTransformBackward.
  unfold sum8. rewrite !H by lia. reflexivity.
Qed.

Lemma phi2_combination_ext (g h : kgrid) (x : nat) :
  (forall i, (i < 8)%nat -> g i = h i) ->
  phi2_combination box2 geo2 g x = phi2_combination box2 geo2 h x.
Proof.
  intros H. unfold phi2_combination.
  rewrite !(Hess_box2_ext g h _ x H). reflexivity.
Qed.

Lemma phi3a_combination_ext (g h : kgrid) (x : nat) :
  (forall i, (i < 8)%nat -> g i = h i) ->
  phi3a_combination box2 geo2 g x = phi3a_combination box2 geo2 h x.
Proof.
  intros H. unfold phi3a_combination.
  rewrite !(Hess_box2_ext g h _ x H). reflexivity.
Qed.

(** the first-order potential of the noise [noise_axes] *)
Lemma phi1_axes (idx : nat) :
  (idx < 8)%nat ->
  compute_phi1 geo2 false amp_one vol2 noise_axes idx = phi_axes idx.
Proof.
  intros H. pose proof vol2_pos as Hv.
  rewrite compute_phi1_at by exact H.
  do 8 (destruct idx as [|idx];
        [ simpl is_DC; cbv iota; try reflexivity;
          rewrite phi1_kernel_eq, norm_squared_geo2_at;
          unfold fix_mode, noise_axes, phi_axes, amp_one, neg_bit; simpl;
          apply C_eq; simpl; field; lra |]).
  lia.
Qed.

(** the first-order potential of the noise [noise_single] *)
Lemma phi1_single (idx : nat) :
  (idx < 8)%nat ->
  compute_phi1 geo2 false amp_one vol2 noise_single idx = delta_mode 1 idx.
Proof.
  intros H. pose proof vol2_pos as Hv.
  rewrite compute_phi1_at by exact H.
  do 8 (destruct idx as [|idx];
        [ simpl is_DC; cbv iota; try reflexivity;
          rewrite phi1_kernel_eq, norm_squared_geo2_at;
          unfold fix_mode, noise_single, delta_mode, amp_one, neg_bit; simpl;
          apply C_eq; simpl; field; lra |]).
  lia.
Qed.

Lemma Run_phi2_combination (T : Transforms) (geo : geometry)
    (phi dest : kgrid) (idx : nat) :
  linear_forward T -> (idx < local_n geo)%nat ->
  compute_phi2 T geo phi dest idx =
  apply_InverseLaplacian geo
    (FourierTransformForward T (phi2_combination T geo phi)) idx.
Proof.
  intros HT Hidx. unfold compute_phi2. apply apply_InverseLaplacian_ext.
  unfold convolve_SumOfHessians, convolve_Hessians.
  rewrite !stream_subtract_from, stream_add_to, stream_assign_to by exact Hidx.
  unfold phi2_combination.
  rewrite !(forward_minus T HT).
  rewrite (forward_plus T HT
             (fun x => Hess T geo phi (0, 0)%nat x
                       * (Hess T geo phi (1, 1)%nat x
                          + Hess T geo phi (2, 2)%nat x))
             (fun x => Hess T geo phi (1, 1)%nat x
                       * Hess T geo phi (2, 2)%nat x)).
  reflexivity.
Qed.

Lemma main_phi2_same (T : Transforms) (geo : geometry)
    (phi dest : kgrid) (idx : nat) :
  (idx < local_n geo)%nat ->
  main_compute_phi2 T geo phi dest idx = compute_phi2 T geo phi dest idx.
Proof.
  intros Hidx. unfold main_compute_phi2, compute_phi2.
  apply apply_InverseLaplacian_ext.
  unfold main_convolve_SumOfHessians, main_convolve_Hessians,
    convolve_SumOfHessians, convolve_Hessians.
  rewrite !stream_op_in by exact Hidx.
  rewrite !stream_subtract_from, stream_add_to, stream_assign_to by exact Hidx.
  reflexivity.
Qed.

Lemma phi2_combination_single (idx : nat) :
  (idx < 8)%nat ->
  FourierTransformForward box2 (phi2_combination box2 geo2 (delta_mode 1)) idx
  = Czero.
Proof.
  intros H. unfold phi2_combination.
  do 8 (destruct idx as [|idx]; [apply C_eq; box2_eval|]).
  lia.
Qed.

Lemma phi2_of_single (phi : kgrid) (idx : nat) :
  (forall i, (i < 8)%nat -> phi i = delta_mode 1 i) ->
  (idx < 8)%nat ->
  compute_phi2 box2 geo2 phi zero_grid idx = Czero.
Proof.
  intros Hphi H.
  rewrite Run_phi2_combination by (exact box2_linear || exact H).
  rewrite apply_InverseLaplacian_at by exact H.
  rewrite (forward_ext box2 box2_linear _
             (phi2_combination box2 geo2 (delta_mode 1)))
    by (intros x; apply phi2_combination_ext; exact Hphi).
  rewrite phi2_combination_single by exact H.
  destruct (is_DC (mode_of geo2 idx)); [reflexivity|].
  apply C_eq; simpl; unfold Rdiv; ring.
Qed.

Lemma phi3a_axes_value :
  FourierTransformForward box2 (phi3a_combination box2 geo2 phi_axes) 7%nat =
  mkC (-1 / 64) 0.
Proof.
  unfold phi3a_combination. apply C_eq; box2_eval.
Qed.

(** C4 as stated fails.  On the box with two cells per axis, for the white
    noise [noise_axes] and unit amplitude, the combination has the value
    -1/64 at the mode (-1,-1,-1), and phi3a holds 1/192 there after the 3a
    step. *)
Lemma phi3a_not_bare_combination :
  let phi := compute_phi1 geo2 false amp_one vol2 noise_axes in
  FourierTransformForward box2 (phi3a_combination box2 geo2 phi) 7%nat
    = mkC (-1 / 64) 0
  /\ compute_phi3a box2 geo2 phi zero_grid 7%nat = mkC (1 / 192) 0
  /\ compute_phi3a box2 geo2 phi zero_grid 7%nat <>
     FourierTransformForward box2 (phi3a_combination box2 geo2 phi) 7%nat.
Proof.
  cbv zeta.
  set (phi := compute_phi1 geo2 false amp_one vol2 noise_axes).
  assert (E0 : FourierTransformForward box2 (phi3a_combination box2 geo2 phi)
                 7%nat = mkC (-1 / 64) 0).
  { rewrite (forward_ext box2 box2_linear _
               (phi3a_combination box2 geo2 phi_axes))
      by (intros x; apply phi3a_combination_ext; exact phi1_axes).
    exact phi3a_axes_value. }
  assert (E : compute_phi3a box2 geo2 phi zero_grid 7%nat = mkC (1 / 192) 0).
  { rewrite Run_phi3a_combination by (exact box2_linear || (simpl; lia)).
    rewrite apply_InverseLaplacian_at by (simpl; lia).
    rewrite E0, norm_squared_geo2_at.
    apply C_eq; simpl; unfold neg_bit; simpl; lra. }
  split; [exact E0|]. split; [exact E|].
  rewrite E, E0. intros H.
  apply (f_equal Re) in H. simpl in H. lra.
Qed.

(** ** The transverse term in [main] *)

(** the tables [cos6] and [sin6] hold the cosine and the sine *)
Lemma cos6_sin6_table (m : Z) :
  (0 <= m < 6)%Z ->
  cos6 m = cos (IZR m * (PI / 3)) /\ sin6 m = sin (IZR m * (PI / 3)).
Proof.
  intros Hm.
  assert (Hcases : (m = 0 \/ m = 1 \/ m = 2 \/ m = 3 \/ m = 4 \/ m = 5)%Z)
    by lia.
  destruct Hcases as [E|[E|[E|[E|[E|E]]]]]; subst m;
    unfold cos6, sin6; cbn [Z.modulo Z.div_eucl Z.pos_div_eucl]; simpl.
  - rewrite Rmult_0_l, cos_0, sin_0. split; reflexivity.
  - rewrite Rmult_1_l, cos_PI3, sin_PI3. split; reflexivity.
  - rewrite cos_2PI3, sin_2PI3. split; reflexivity.
  - replace (3 * (PI / 3)) with PI by field.
    rewrite cos_PI, sin_PI. split; reflexivity.
  - replace (4 * (PI / 3)) with (PI / 3 + PI) by field.
    rewrite neg_cos, neg_sin, cos_PI3, sin_PI3. split; lra.
  - replace (5 * (PI / 3)) with (2 * (PI / 3) + PI) by field.
    rewrite neg_cos, neg_sin, cos_2PI3, sin_2PI3. split; lra.
Qed.

(** the wave numbers of the 64 modes lie in the band *)
Lemma geo4_band (idx a : nat) :
  (idx < 64)%nat ->
  (-2 <= mode_comp (mode_of geo4 idx) a <= 1)%Z.
Proof.
  intros H.
  assert (H0 : (idx / 16 < 4)%nat) by (apply Nat.Div0.div_lt_upper_bound; lia).
  assert (H1 : ((idx / 4) mod 4 < 4)%nat) by (apply Nat.mod_upper_bound; lia).
  assert (H2 : (idx mod 4 < 4)%nat) by (apply Nat.mod_upper_bound; lia).
  assert (Hc : forall i, (i < 4)%nat -> (-2 <= cent4 i <= 1)%Z).
  { intros i Hi. unfold cent4. destruct (Nat.ltb_spec i 2); lia. }
  destruct a as [|[|a]]; simpl; apply Hc; assumption.
Qed.

(** on the padded grid the sum of two wave numbers of the band meets a wave
    number of the band only when it is equal to it: the products of two
    fields are not aliased *)
Lemma pad6_no_alias (p q m : Z) :
  (-2 <= p <= 1)%Z -> (-2 <= q <= 1)%Z -> (-2 <= m <= 1)%Z ->
  ((p + q - m) mod 6 = 0)%Z -> (p + q = m)%Z.
Proof.
  intros Hp Hq Hm H.
  apply Z.mod_divide in H; [|lia]. destruct H as [k Hk]. lia.
Qed.
















(** the padded transforms invert each other on a field of the band: the
    wave of [phi_diag4] comes back with the value 1 at its mode (0,1,1) and
    nothing at the mode (0,0,1) *)
Lemma pad6_round_trip :
  FourierTransformForward pad6 (FourierTransformBackward pad6 phi_diag4) 5%nat
  = Cone
  /\ FourierTransformForward pad6 (FourierTransformBackward pad6 phi_diag4)
       1%nat = Czero.
Proof.
  split; apply C_eq; cbv -[Rplus Rmult Rminus Ropp Rdiv Rinv IZR sqrt]; lra.
Qed.



(** ** The emitted velocity *)

Lemma scale_at (geo : geometry) (alpha : R) (g : kgrid) (idx : nat) :
  (idx < local_n geo)%nat -> scale geo alpha g idx = Cscal alpha (g idx).
Proof.
  intros H. unfold scale. rewrite apply_function_k_dep_at.
  apply Nat.ltb_lt in H. rewrite H. reflexivity.
Qed.

(** the loop of lines 447-462 writes [velocity_mode] to every mode *)
Lemma velocity_grid_at (geo : geometry) (bSymplecticPT : bool) (vunit : R)
    (c : coefficients) (F : fields) (idim : nat) (tmp : kgrid) (idx : nat) :
  (idx < local_n geo)%nat ->
  velocity_grid geo bSymplecticPT vunit c F idim tmp idx =
  velocity_mode geo bSymplecticPT vunit c F idim idx.
Proof.
  intros H. unfold velocity_grid.
  rewrite (pointwise_loop
             (fun i _ => velocity_mode geo bSymplecticPT vunit c F idim i)).
  apply Nat.ltb_lt in H. rewrite H. reflexivity.
Qed.

(** in symplectic mode the value written is not divided by the box length *)
Lemma velocity_mode_symplectic (geo : geometry) (vunit : R) (c : coefficients)
    (F : fields) (d idx : nat) :
  velocity_mode geo true vunit c F d idx =
  (Cscal vunit Ci
   * Cscal (get_k geo idx d)
       (Cscal (vfac1 c) (phi F idx) + Cscal (vfac2 c) (phi2 F idx))
   + Cscal (vfac1 c) (A3 F d idx))%C.
Proof. reflexivity. Qed.

(** the potentials that [Run] leaves in symplectic mode for the noise
    [noise_single], at the excited mode *)
Lemma symplectic_run_fields :
  let F := snd (fst (Run_potentials box2 geo2 amp_one cfg_symplectic 1 1
                       noise_single zero_fields)) in
  phi F 1%nat = mkC (-1) 0 /\ phi2 F 1%nat = Czero /\ A3 F 0%nat 1%nat = Czero.
Proof.
  cbv zeta.
  rewrite (Run_potentials_symplectic box2 geo2 amp_one cfg_symplectic 1 1
             noise_single zero_fields eq_refl).
  cbn [fst snd]. unfold Run_cascade.
  change ((2 >? 1)%Z) with true. change ((2 >? 2)%Z) with false.
  cbn [orb andb negb fst snd]. unfold scale_fields.
  change (read_fixing cfg_symplectic) with false.
  change (volfac (setup_BoxLength cfg_symplectic) (setup_GridRes cfg_symplectic))
    with vol2.
  cbn [phi phi2 A3].
  assert (HL : (1 < local_n geo2)%nat) by (simpl; lia).
  rewrite !scale_at by exact HL.
  unfold loop_vNLO, for_loop. cbn [seq fold_left set_A3 set_phi2 set_phi
    phi phi2 A3].
  split; [|split].
  - rewrite phi1_single by lia. apply C_eq; simpl; lra.
  - rewrite phi2_of_single by (exact phi1_single || lia).
    apply C_eq; simpl; lra.
  - apply C_eq; simpl; lra.
Qed.

(** C2 at a failing input.  The symplectic run with LPTorder = 3 on the box
    with two cells per axis (L = 2 pi), for the white noise [noise_single],
    unit amplitude, growth factor, velocity factor and velocity unit: the
    mode (-1,0,0) of the velocity along axis 0 is written as i; the formula
    of C2 gives i/(2 pi), which is what the branch that is not symplectic
    writes for the same potentials. *)
Theorem velocity_symplectic_not_divided_by_boxlen :
  let F := snd (fst (Run_potentials box2 geo2 amp_one cfg_symplectic 1 1
                       noise_single zero_fields)) in
  let c := lpt_coefficients 2 1 1 in
  velocity_mode geo2 true 1 c F 0 1 = mkC 0 1
  /\ spec_symplectic_velocity geo2 c F 0 1 = mkC 0 (1 / (2 * PI))
  /\ velocity_mode geo2 false 1 c F 0 1 = mkC 0 (1 / (2 * PI))
  /\ velocity_mode geo2 true 1 c F 0 1 <> spec_symplectic_velocity geo2 c F 0 1.
Proof.
  cbv zeta. destruct symplectic_run_fields as (Ephi & Ephi2 & EA).
  set (F := snd (fst (Run_potentials box2 geo2 amp_one cfg_symplectic 1 1
                        noise_single zero_fields))) in *.
  assert (Hpi : PI <> 0) by apply PI_neq0.
  assert (Hk : get_k geo2 1 0 = -1)
    by (rewrite get_k_geo2; simpl; unfold neg_bit; simpl; lra).
  assert (E1 : velocity_mode geo2 true 1 (lpt_coefficients 2 1 1) F 0 1
               = mkC 0 1).
  { rewrite velocity_mode_symplectic, Ephi, Ephi2, EA, Hk.
    apply C_eq; simpl; lra. }
  assert (E2 : spec_symplectic_velocity geo2 (lpt_coefficients 2 1 1) F 0 1
               = mkC 0 (1 / (2 * PI))).
  { unfold spec_symplectic_velocity. rewrite Ephi, Ephi2, EA, Hk.
    apply C_eq; simpl; field; exact Hpi. }
  assert (E3 : velocity_mode geo2 false 1 (lpt_coefficients 2 1 1) F 0 1
               = mkC 0 (1 / (2 * PI))).
  { unfold velocity_mode. cbv zeta. simpl negb. cbv iota.
    rewrite Ephi, Ephi2, Hk.
    apply C_eq; simpl; field; exact Hpi. }
  repeat split; try assumption.
  rewrite E1, E2. intros H. apply (f_equal Im) in H. simpl in H.
  pose proof PI2_1 as Hgt.
  assert (Hq : 1 * (2 * PI) = 1) by (rewrite H at 1; field; exact Hpi).
  lra.
Qed.

(** ** The 3a step inside the cascade *)

(** with an order above 2 and without the symplectic flag, the grid phi3a
    that [Run] hands to the emission is the result of the 3a step on the
    first-order potential, scaled by g3a *)
Lemma Run_cascade_phi3a (T : Transforms) (geo : geometry) (amp : R -> R)
    (bDoFixing : bool) (LPTorder : Z) (Dplus0 vfac vol : R)
    (noise : kgrid) (F : fields) (idx : nat) :
  (LPTorder > 2)%Z -> (idx < local_n geo)%nat ->
  phi3a (fst (Run_cascade T geo amp bDoFixing false LPTorder Dplus0 vfac vol
                noise F)) idx =
  Cscal (-1 / 3 * Dplus0 * Dplus0 * Dplus0)
    (compute_phi3a T geo (compute_phi1 geo bDoFixing amp vol noise)
       (phi3a F) idx).
Proof.
  intros Ho Hidx. unfold Run_cascade.
  assert (H1 : (LPTorder >? 1)%Z = true) by (apply Z.gtb_lt; lia).
  assert (H2 : (LPTorder >? 2)%Z = true) by (apply Z.gtb_lt; lia).
  unfold lpt_coefficients. rewrite H1, H2.
  cbn [orb andb negb fst snd]. unfold scale_fields. cbn [phi3a g3a].
  rewrite scale_at by exact Hidx.
  unfold loop_A3, for_loop.
  cbn [seq fold_left set_A3 set_phi3b set_phi3a set_phi2 set_phi
         phi phi2 phi3a phi3b A3].
  reflexivity.
Qed.

(** * Further properties of the code *)

(** ** The second-order and the 3b potential, the symplectic term *)

Lemma apply_InverseLaplacian_zero (geo : geometry) (g : kgrid) (idx : nat) :
  (idx < local_n geo)%nat -> g idx = Czero ->
  apply_InverseLaplacian geo g idx = Czero.
Proof.
  intros H E. rewrite apply_InverseLaplacian_at by exact H. rewrite E.
  destruct (is_DC (mode_of geo idx)); [reflexivity|].
  apply C_eq; simpl; unfold Rdiv; ring.
Qed.

Lemma forward_zero (T : Transforms) (u : rcell T -> R) (idx : nat) :
  linear_forward T -> (forall x, u x = 0) ->
  FourierTransformForward T u idx = Czero.
Proof.
  intros HT H.
  rewrite (forward_ext T HT u (fun x => 0 * u x)) by (intros x; rewrite H; ring).
  rewrite (forward_scal T HT 0 u). apply C_eq; simpl; ring.
Qed.

(** X1.  The second-order potential of [Run] is the inverse Laplacian of
    phi_00 (phi_11 + phi_22) + phi_11 phi_22 - phi_01^2 - phi_02^2 - phi_12^2,
    whatever the destination grid held before, and [main] computes the same
    grid. *)
Theorem phi2_inverse_laplacian (T : Transforms) (geo : geometry)
    (phi dest dest' : kgrid) (idx : nat) :
  linear_forward T -> (idx < local_n geo)%nat ->
  compute_phi2 T geo phi dest idx =
    (if is_DC (mode_of geo idx) then Czero
     else Cdivr (- FourierTransformForward T (phi2_combination T geo phi) idx)%C
                (norm_squared geo idx))
  /\ compute_phi2 T geo phi dest' idx = compute_phi2 T geo phi dest idx
  /\ main_compute_phi2 T geo phi dest idx = compute_phi2 T geo phi dest idx.
Proof.
  intros HT Hidx. split; [|split].
  - rewrite Run_phi2_combination by assumption.
    apply apply_InverseLaplacian_at. exact Hidx.
  - rewrite !Run_phi2_combination by assumption. reflexivity.
  - apply main_phi2_same. exact Hidx.
Qed.

Lemma phi2_inverse_laplacian_witness :
  linear_forward box2 /\ (3 < local_n geo2)%nat
  /\ main_compute_phi2 box2 geo2 phi_axes zero_grid 3%nat =
     compute_phi2 box2 geo2 phi_axes zero_grid 3%nat.
Proof.
  assert (H : (3 < local_n geo2)%nat) by (simpl; lia).
  split; [exact box2_linear|]. split; [exact H|].
  exact (proj2 (proj2 (phi2_inverse_laplacian box2 geo2 phi_axes zero_grid
                         zero_grid 3 box2_linear H))).
Defined.

Lemma forward_six (T : Transforms) (a b c d e f : rcell T -> R) (idx : nat) :
  linear_forward T ->
  FourierTransformForward T
    (fun x => a x + b x + c x - 2 * d x - 2 * e x - 2 * f x) idx =
  (FourierTransformForward T a idx + FourierTransformForward T b idx
   + FourierTransformForward T c idx
   - Cscal 2 (FourierTransformForward T d idx)
   - Cscal 2 (FourierTransformForward T e idx)
   - Cscal 2 (FourierTransformForward T f idx))%C.
Proof.
  intros HT.
  rewrite (forward_minus T HT
             (fun x => a x + b x + c x - 2 * d x - 2 * e x) (fun x => 2 * f x)).
  rewrite (forward_minus T HT
             (fun x => a x + b x + c x - 2 * d x) (fun x => 2 * e x)).
  rewrite (forward_minus T HT (fun x => a x + b x + c x) (fun x => 2 * d x)).
  rewrite (forward_plus T HT (fun x => a x + b x) c).
  rewrite (forward_plus T HT a b).
  rewrite !(forward_scal T HT 2). reflexivity.
Qed.

Lemma Run_phi3b_combination (T : Transforms) (geo : geometry)
    (phi phi2 dest : kgrid) (idx : nat) :
  linear_forward T -> (idx < local_n geo)%nat ->
  compute_phi3b T geo phi phi2 dest idx =
  Cscal 0.5
    (apply_InverseLaplacian geo
       (FourierTransformForward T (phi3b_combination T geo phi phi2)) idx).
Proof.
  intros HT Hidx. unfold compute_phi3b. rewrite scale_at by exact Hidx.
  f_equal. apply apply_InverseLaplacian_ext.
  unfold convolve_SumOfHessians, convolve_Hessians.
  rewrite !stream_subtract_twice_from, !stream_add_to, stream_assign_to
    by exact Hidx.
  unfold phi3b_combination.
  rewrite (forward_six T) by exact HT. reflexivity.
Qed.

Lemma main_phi3b_same (T : Transforms) (geo : geometry)
    (phi phi2 dest : kgrid) (idx : nat) :
  (idx < local_n geo)%nat ->
  main_compute_phi3b T geo phi phi2 dest idx =
  compute_phi3b T geo phi phi2 dest idx.
Proof.
  intros Hidx. unfold main_compute_phi3b, compute_phi3b.
  rewrite !scale_at by exact Hidx. apply (f_equal (Cscal 0.5)).
  apply apply_InverseLaplacian_ext.
  unfold main_convolve_SumOfHessians, main_convolve_Hessians,
    convolve_SumOfHessians, convolve_Hessians.
  rewrite !stream_op_in by exact Hidx.
  rewrite !stream_subtract_twice_from, !stream_add_to, stream_assign_to
    by exact Hidx.
  reflexivity.
Qed.

(** X2.  The potential phi(3b) of [Run] is one half of the inverse
    Laplacian of the six mixed products of Hessians of phi and phi2,
    whatever the destination grid held before, and [main] computes the same
    grid. *)
Theorem phi3b_half_inverse_laplacian (T : Transforms) (geo : geometry)
    (phi phi2 dest dest' : kgrid) (idx : nat) :
  linear_forward T -> (idx < local_n geo)%nat ->
  compute_phi3b T geo phi phi2 dest idx =
    (if is_DC (mode_of geo idx) then Czero
     else Cscal 0.5
            (Cdivr (- FourierTransformForward T
                        (phi3b_combination T geo phi phi2) idx)%C
                   (norm_squared geo idx)))
  /\ compute_phi3b T geo phi phi2 dest' idx = compute_phi3b T geo phi phi2 dest idx
  /\ main_compute_phi3b T geo phi phi2 dest idx =
     compute_phi3b T geo phi phi2 dest idx.
Proof.
  intros HT Hidx. split; [|split].
  - rewrite Run_phi3b_combination by assumption.
    rewrite apply_InverseLaplacian_at by exact Hidx.
    destruct (is_DC (mode_of geo idx)); [apply C_eq; simpl; ring|reflexivity].
  - rewrite !Run_phi3b_combination by assumption. reflexivity.
  - apply main_phi3b_same. exact Hidx.
Qed.

Lemma phi3b_half_inverse_laplacian_witness :
  linear_forward box2 /\ (3 < local_n geo2)%nat
  /\ main_compute_phi3b box2 geo2 phi_axes phi2_axes zero_grid 3%nat =
     compute_phi3b box2 geo2 phi_axes phi2_axes zero_grid 3%nat.
Proof.
  assert (H : (3 < local_n geo2)%nat) by (simpl; lia).
  split; [exact box2_linear|]. split; [exact H|].
  exact (proj2 (proj2 (phi3b_half_inverse_laplacian box2 geo2 phi_axes
                         phi2_axes zero_grid zero_grid 3 box2_linear H))).
Defined.

(** X3.  In symplectic mode [Run] leaves in A[d] the transform of
    the sum over e of (grad_e phi) (phi2_de), before the scaling: no inverse
    Laplacian is applied, and the content that the grid held is gone. *)
Theorem vNLO_is_gradient_times_hessian (T : Transforms) (geo : geometry)
    (phi phi2 dest : kgrid) (d idx : nat) :
  linear_forward T -> (idx < local_n geo)%nat ->
  compute_vNLO T geo phi phi2 d dest idx =
  FourierTransformForward T (vNLO_combination T geo phi phi2 d) idx.
Proof.
  intros HT Hidx. unfold compute_vNLO, convolve_Gradient_and_Hessian.
  rewrite !stream_add_to, stream_assign_to by exact Hidx.
  unfold vNLO_combination.
  rewrite (forward_plus T HT
             (fun x => Grad T geo phi 0 x * Hess T geo phi2 (d, 0%nat) x
                       + Grad T geo phi 1 x * Hess T geo phi2 (d, 1%nat) x)
             (fun x => Grad T geo phi 2 x * Hess T geo phi2 (d, 2%nat) x)).
  rewrite (forward_plus T HT
             (fun x => Grad T geo phi 0 x * Hess T geo phi2 (d, 0%nat) x)
             (fun x => Grad T geo phi 1 x * Hess T geo phi2 (d, 1%nat) x)).
  reflexivity.
Qed.

Lemma vNLO_is_gradient_times_hessian_witness :
  linear_forward box2 /\ (1 < local_n geo2)%nat
  /\ compute_vNLO box2 geo2 phi_axes phi2_axes 0 zero_grid 1%nat =
     FourierTransformForward box2
       (vNLO_combination box2 geo2 phi_axes phi2_axes 0) 1%nat.
Proof.
  assert (H : (1 < local_n geo2)%nat) by (simpl; lia).
  split; [exact box2_linear|]. split; [exact H|].
  exact (vNLO_is_gradient_times_hessian box2 geo2 phi_axes phi2_axes zero_grid
           0 1 box2_linear H).
Defined.

(** X4.  For every linear transform and every pair of potentials, the
    transverse component that [main] assembles is the opposite of the one
    that [Run] assembles from the same potentials. *)
Theorem main_A3_is_opposite (T : Transforms) (geo : geometry)
    (phi phi2 dest dest' : kgrid) (d idx : nat) :
  linear_forward T -> (idx < local_n geo)%nat ->
  main_compute_A3 T geo phi phi2 d dest idx =
  (- compute_A3 T geo phi phi2 d dest' idx)%C.
Proof.
  intros HT Hidx.
  rewrite main_A3_combination, Run_A3_combination by assumption.
  rewrite !apply_InverseLaplacian_at by exact Hidx.
  rewrite (forward_opp T HT).
  destruct (is_DC (mode_of geo idx)).
  - apply C_eq; simpl; ring.
  - apply C_eq; simpl; unfold Rdiv; ring.
Qed.

Lemma main_A3_is_opposite_witness :
  linear_forward box2 /\ (2 < local_n geo2)%nat
  /\ main_compute_A3 box2 geo2 phi_axes phi2_axes 0 zero_grid 2%nat =
     (- compute_A3 box2 geo2 phi_axes phi2_axes 0 zero_grid 2%nat)%C.
Proof.
  assert (H : (2 < local_n geo2)%nat) by (simpl; lia).
  split; [exact box2_linear|]. split; [exact H|].
  exact (main_A3_is_opposite box2 geo2 phi_axes phi2_axes zero_grid zero_grid
           0 2 box2_linear H).
Defined.

(** X5.  The transverse component vanishes when both operands are the
    same potential: the four products cancel in pairs, in [Run] and in
    [main]. *)
Theorem A3_of_equal_operands_vanishes (T : Transforms) (geo : geometry)
    (phi dest : kgrid) (d idx : nat) :
  linear_forward T -> (idx < local_n geo)%nat ->
  compute_A3 T geo phi phi d dest idx = Czero
  /\ main_compute_A3 T geo phi phi d dest idx = Czero.
Proof.
  intros HT Hidx.
  assert (E : compute_A3 T geo phi phi d dest idx = Czero).
  { rewrite Run_A3_combination by assumption.
    apply apply_InverseLaplacian_zero; [exact Hidx|].
    apply forward_zero; [exact HT|].
    intros x. unfold A3_combination. cbv zeta. ring. }
  split; [exact E|].
  rewrite main_A3_combination by assumption.
  apply apply_InverseLaplacian_zero; [exact Hidx|].
  apply forward_zero; [exact HT|].
  intros x. unfold A3_combination. cbv zeta. ring.
Qed.

Lemma A3_of_equal_operands_vanishes_witness :
  linear_forward box2 /\ (2 < local_n geo2)%nat
  /\ compute_A3 box2 geo2 phi_axes phi_axes 0 zero_grid 2%nat = Czero.
Proof.
  assert (H : (2 < local_n geo2)%nat) by (simpl; lia).
  split; [exact box2_linear|]. split; [exact H|].
  exact (proj1 (A3_of_equal_operands_vanishes box2 geo2 phi_axes zero_grid
                  0 2 box2_linear H)).
Defined.

(** ** What the cascade hands to the emission *)

Lemma loop_A3_at (T : Transforms) (geo : geometry) (F : fields) (d : nat) :
  phi (loop_A3 T geo F) = phi F
  /\ phi2 (loop_A3 T geo F) = phi2 F
  /\ phi3a (loop_A3 T geo F) = phi3a F
  /\ phi3b (loop_A3 T geo F) = phi3b F
  /\ ((d < 3)%nat ->
      A3 (loop_A3 T geo F) d = compute_A3 T geo (phi F) (phi2 F) d (A3 F d)).
Proof.
  unfold loop_A3, for_loop.
  cbn [seq fold_left set_A3 phi phi2 phi3a phi3b A3].
  repeat split. intros Hd.
  destruct d as [|[|[|d]]]; try reflexivity. lia.
Qed.

Lemma loop_vNLO_at (T : Transforms) (geo : geometry) (F : fields) (d : nat) :
  phi (loop_vNLO T geo F) = phi F
  /\ phi2 (loop_vNLO T geo F) = phi2 F
  /\ phi3a (loop_vNLO T geo F) = phi3a F
  /\ phi3b (loop_vNLO T geo F) = phi3b F
  /\ ((d < 3)%nat ->
      A3 (loop_vNLO T geo F) d = compute_vNLO T geo (phi F) (phi2 F) d (A3 F d)).
Proof.
  unfold loop_vNLO, for_loop.
  cbn [seq fold_left set_A3 phi phi2 phi3a phi3b A3].
  repeat split. intros Hd.
  destruct d as [|[|[|d]]]; try reflexivity. lia.
Qed.

(** the potentials of the cascade, term by term *)
Lemma Run_cascade_fields (T : Transforms) (geo : geometry) (amp : R -> R)
    (bDoFixing bSymplecticPT : bool) (LPTorder : Z) (Dplus0 vfac vol : R)
    (noise : kgrid) (F : fields) :
  let c := lpt_coefficients LPTorder Dplus0 vfac in
  let F' := fst (Run_cascade T geo amp bDoFixing bSymplecticPT LPTorder
                   Dplus0 vfac vol noise F) in
  let p1 := compute_phi1 geo bDoFixing amp vol noise in
  let p2 := if (LPTorder >? 1)%Z || bSymplecticPT
            then compute_phi2 T geo p1 (phi2 F) else phi2 F in
  phi F' = scale geo (g1 c) p1
  /\ phi2 F' = scale geo (g2 c) p2
  /\ phi3a F' =
     scale geo (g3a c)
       (if (LPTorder >? 2)%Z && negb bSymplecticPT
        then compute_phi3a T geo p1 (phi3a F) else phi3a F)
  /\ phi3b F' =
     scale geo (g3b c)
       (if (LPTorder >? 2)%Z && negb bSymplecticPT
        then compute_phi3b T geo p1 p2 (phi3b F) else phi3b F)
  /\ forall d, (d < 3)%nat ->
       A3 F' d =
       scale geo (g3c c)
         (if (LPTorder >? 2)%Z && negb bSymplecticPT
          then compute_A3 T geo p1 p2 d (A3 F d)
          else if bSymplecticPT then compute_vNLO T geo p1 p2 d (A3 F d)
               else A3 F d).
Proof.
  cbv zeta. unfold Run_cascade.
  destruct (LPTorder >? 1)%Z, (LPTorder >? 2)%Z, bSymplecticPT;
    cbn [orb andb negb fst snd];
    unfold scale_fields, loop_A3, loop_vNLO, for_loop;
    cbn [seq fold_left set_A3 set_phi set_phi2 set_phi3a set_phi3b
           phi phi2 phi3a phi3b A3];
    (repeat split; try reflexivity);
    intros d Hd; destruct d as [|[|[|d]]]; try reflexivity; lia.
Qed.

Lemma Cscal_zero_l (x : ccomplex_t) : Cscal 0 x = Czero.
Proof. apply C_eq; simpl; ring. Qed.

Lemma Cscal_zero_r (a : R) : Cscal a Czero = Czero.
Proof. apply C_eq; simpl; ring. Qed.

Lemma apply_InverseLaplacian_DC (geo : geometry) (g : kgrid) (idx : nat) :
  (idx < local_n geo)%nat -> is_DC (mode_of geo idx) = true ->
  apply_InverseLaplacian geo g idx = Czero.
Proof.
  intros H E. rewrite apply_InverseLaplacian_at by exact H. rewrite E.
  reflexivity.
Qed.

Lemma Run_potentials_eq (T : Transforms) (geo : geometry) (amp : R -> R)
    (cfg : ConfigFile) (Dplus0 vfac : R) (noise : kgrid) (F : fields) :
  let o := override_order (read_symplectic cfg) (read_LPTorder cfg) in
  let r := Run_cascade T geo amp (read_fixing cfg) (read_symplectic cfg)
             (fst o) Dplus0 vfac
             (volfac (setup_BoxLength cfg) (setup_GridRes cfg)) noise F in
  Run_potentials T geo amp cfg Dplus0 vfac noise F =
  (fst o, fst r, snd o ++ snd r).
Proof.
  cbv zeta. unfold Run_potentials.
  destruct (override_order (read_symplectic cfg) (read_LPTorder cfg))
    as [n log0].
  cbn [fst snd].
  destruct (Run_cascade T geo amp (read_fixing cfg) (read_symplectic cfg) n
              Dplus0 vfac (volfac (setup_BoxLength cfg) (setup_GridRes cfg))
              noise F) as [F' log].
  reflexivity.
Qed.

Lemma override_order_symplectic (n : Z) : fst (override_order true n) = 2%Z.
Proof.
  unfold override_order. destruct (Z.eqb_spec n 2) as [E|N]; simpl; auto.
Qed.

Lemma override_order_plain (n : Z) : override_order false n = (n, []).
Proof. reflexivity. Qed.

(** the potentials above the order in use are cleared by the scaling *)
Lemma unused_potentials_cleared (T : Transforms) (geo : geometry)
    (amp : R -> R) (cfg : ConfigFile) (Dplus0 vfac : R) (noise : kgrid)
    (F : fields) (idx : nat) :
  (idx < local_n geo)%nat ->
  let n := fst (override_order (read_symplectic cfg) (read_LPTorder cfg)) in
  let F' := snd (fst (Run_potentials T geo amp cfg Dplus0 vfac noise F)) in
  ((n <= 2)%Z ->
   phi3a F' idx = Czero /\ phi3b F' idx = Czero
   /\ forall d, (d < 3)%nat -> A3 F' d idx = Czero)
  /\ ((n <= 1)%Z -> phi2 F' idx = Czero).
Proof.
  intros Hidx. cbv zeta. rewrite Run_potentials_eq. cbn [fst snd].
  set (n := fst (override_order (read_symplectic cfg) (read_LPTorder cfg))).
  destruct (Run_cascade_fields T geo amp (read_fixing cfg)
              (read_symplectic cfg) n Dplus0 vfac
              (volfac (setup_BoxLength cfg) (setup_GridRes cfg)) noise F)
    as (_ & E2 & E3a & E3b & EA).
  split.
  - intros Hn.
    assert (H2 : (n >? 2)%Z = false)
      by (destruct (Z.gtb_spec n 2); [lia|reflexivity]).
    rewrite E3a, E3b. rewrite !scale_at by exact Hidx.
    unfold lpt_coefficients. cbn [g3a g3b g3c]. rewrite H2.
    split; [apply Cscal_zero_l|]. split; [apply Cscal_zero_l|].
    intros d Hd. rewrite (EA d Hd). rewrite scale_at by exact Hidx.
    unfold lpt_coefficients. cbn [g3c]. rewrite H2. apply Cscal_zero_l.
  - intros Hn.
    assert (H1 : (n >? 1)%Z = false)
      by (destruct (Z.gtb_spec n 1); [lia|reflexivity]).
    rewrite E2. rewrite scale_at by exact Hidx.
    unfold lpt_coefficients. cbn [g2]. rewrite H1. apply Cscal_zero_l.
Qed.

(** X6.  After the cascade of [Run] the DC mode of every potential (phi,
    phi2, phi3a, phi3b and the three components of A) is exactly zero,
    whatever the configuration, the noise and the content that the grids
    held before. *)
Theorem potentials_vanish_at_DC (T : Transforms) (geo : geometry)
    (amp : R -> R) (cfg : ConfigFile) (Dplus0 vfac : R) (noise : kgrid)
    (F : fields) (idx : nat) :
  (idx < local_n geo)%nat -> is_DC (mode_of geo idx) = true ->
  let F' := snd (fst (Run_potentials T geo amp cfg Dplus0 vfac noise F)) in
  phi F' idx = Czero /\ phi2 F' idx = Czero /\ phi3a F' idx = Czero
  /\ phi3b F' idx = Czero /\ forall d, (d < 3)%nat -> A3 F' d idx = Czero.
Proof.
  intros Hidx Hdc. cbv zeta.
  destruct (unused_potentials_cleared T geo amp cfg Dplus0 vfac noise F idx
              Hidx) as (Hle2 & Hle1).
  cbv zeta in Hle2, Hle1. revert Hle2 Hle1.
  rewrite Run_potentials_eq. cbn [fst snd].
  set (n := fst (override_order (read_symplectic cfg) (read_LPTorder cfg))).
  assert (Hsym : read_symplectic cfg = true -> n = 2%Z).
  { intros E. unfold n. rewrite E. apply override_order_symplectic. }
  destruct (Run_cascade_fields T geo amp (read_fixing cfg)
              (read_symplectic cfg) n Dplus0 vfac
              (volfac (setup_BoxLength cfg) (setup_GridRes cfg)) noise F)
    as (E1 & E2 & E3a & E3b & EA).
  intros Hle2 Hle1.
  assert (Hinv : forall g, apply_InverseLaplacian geo g idx = Czero)
    by (intros g; apply apply_InverseLaplacian_DC; assumption).
  split.
  { rewrite E1, scale_at by exact Hidx. rewrite compute_phi1_at by exact Hidx.
    rewrite Hdc. apply Cscal_zero_r. }
  split.
  { destruct (Z.gtb_spec n 1) as [Hgt|Hle]; [|apply Hle1; lia].
    rewrite E2, scale_at by exact Hidx. cbn [orb].
    unfold compute_phi2. cbv zeta. rewrite Hinv. apply Cscal_zero_r. }
  destruct (Z.gtb_spec n 2) as [Hgt|Hle]; [|apply Hle2; lia].
  assert (Hns : read_symplectic cfg = false).
  { destruct (read_symplectic cfg); [|reflexivity].
    specialize (Hsym eq_refl). lia. }
  rewrite Hns in *. cbn [andb negb] in *.
  split; [|split].
  - rewrite E3a, scale_at by exact Hidx.
    unfold compute_phi3a. cbv zeta. rewrite Hinv. apply Cscal_zero_r.
  - rewrite E3b, scale_at by exact Hidx.
    unfold compute_phi3b. cbv zeta. rewrite scale_at by exact Hidx.
    rewrite Hinv, !Cscal_zero_r. reflexivity.
  - intros d Hd. rewrite (EA d Hd), scale_at by exact Hidx.
    unfold compute_A3. cbv zeta. rewrite Hinv. apply Cscal_zero_r.
Qed.

Lemma potentials_vanish_at_DC_witness :
  (0 < local_n geo2)%nat /\ is_DC (mode_of geo2 0%nat) = true
  /\ phi (snd (fst (Run_potentials box2 geo2 amp_one cfg_symplectic 1 1
                      noise_axes zero_fields))) 0%nat = Czero.
Proof.
  assert (H : (0 < local_n geo2)%nat) by (simpl; lia).
  split; [exact H|]. split; [reflexivity|].
  exact (proj1 (potentials_vanish_at_DC box2 geo2 amp_one cfg_symplectic 1 1
                  noise_axes zero_fields 0 H eq_refl)).
Defined.

(** X7.  The potentials above the order in use are zero on the whole
    local slab when the cascade ends, whatever the grids held before (the
    grids are reused from one species to the next): phi3a, phi3b and A for
    an order of at most 2, phi2 as well for an order of at most 1. *)
Theorem potentials_above_order_vanish (T : Transforms) (geo : geometry)
    (amp : R -> R) (cfg : ConfigFile) (Dplus0 vfac : R) (noise : kgrid)
    (F : fields) (idx : nat) :
  (idx < local_n geo)%nat ->
  read_symplectic cfg = false ->
  (read_LPTorder cfg <= 2)%Z ->
  let F' := snd (fst (Run_potentials T geo amp cfg Dplus0 vfac noise F)) in
  phi3a F' idx = Czero /\ phi3b F' idx = Czero
  /\ (forall d, (d < 3)%nat -> A3 F' d idx = Czero)
  /\ ((read_LPTorder cfg <= 1)%Z -> phi2 F' idx = Czero).
Proof.
  intros Hidx Hs Hn. cbv zeta.
  destruct (unused_potentials_cleared T geo amp cfg Dplus0 vfac noise F idx
              Hidx) as (Hle2 & Hle1).
  cbv zeta in Hle2, Hle1. rewrite Hs, override_order_plain in Hle2, Hle1.
  cbn [fst] in Hle2, Hle1.
  destruct (Hle2 Hn) as (H3a & H3b & HA).
  repeat split; auto.
Qed.

Lemma potentials_above_order_vanish_witness :
  (1 < local_n geo2)%nat
  /\ read_symplectic (with_LPTorder cfg_fixing (Some 1%Z)) = false
  /\ (read_LPTorder (with_LPTorder cfg_fixing (Some 1%Z)) <= 2)%Z
  /\ phi3a (snd (fst (Run_potentials box2 geo2 amp_one
                        (with_LPTorder cfg_fixing (Some 1%Z)) 1 1
                        noise_axes zero_fields))) 1%nat = Czero.
Proof.
  assert (H : (1 < local_n geo2)%nat) by (simpl; lia).
  assert (Hn : (read_LPTorder (with_LPTorder cfg_fixing (Some 1%Z)) <= 2)%Z)
    by (vm_compute; discriminate).
  split; [exact H|]. split; [reflexivity|]. split; [exact Hn|].
  exact (proj1 (potentials_above_order_vanish box2 geo2 amp_one
                  (with_LPTorder cfg_fixing (Some 1%Z)) 1 1 noise_axes
                  zero_fields 1 H eq_refl Hn)).
Defined.

(** X8.  In symplectic mode the order is 2, so the coefficient g3c that
    scales A is zero: the term vNLO(3) that was computed into A is zero on
    the local slab when the cascade ends, and the velocity written in
    symplectic mode is vunit i k_d (vfac1 phi + vfac2 phi2). *)
Theorem symplectic_term_is_scaled_away (T : Transforms) (geo : geometry)
    (amp : R -> R) (cfg : ConfigFile) (Dplus0 vfac vunit : R) (noise : kgrid)
    (F : fields) (d idx : nat) :
  (idx < local_n geo)%nat -> (d < 3)%nat ->
  setup_SymplecticPT cfg = Some true ->
  let F' := snd (fst (Run_potentials T geo amp cfg Dplus0 vfac noise F)) in
  let c := lpt_coefficients 2 Dplus0 vfac in
  (forall e, (e < 3)%nat -> A3 F' e idx = Czero)
  /\ velocity_mode geo true vunit c F' d idx =
     (Cscal vunit Ci
      * Cscal (get_k geo idx d)
          (Cscal vfac (phi F' idx) + Cscal (2 * vfac) (phi2 F' idx)))%C.
Proof.
  intros Hidx Hd Hs. cbv zeta.
  assert (Hr : read_symplectic cfg = true)
    by (unfold read_symplectic; rewrite Hs; reflexivity).
  destruct (unused_potentials_cleared T geo amp cfg Dplus0 vfac noise F idx
              Hidx) as (Hle2 & _).
  cbv zeta in Hle2. rewrite Hr, override_order_symplectic in Hle2.
  destruct (Hle2 ltac:(lia)) as (_ & _ & HA).
  split; [exact HA|].
  rewrite velocity_mode_symplectic.
  rewrite (HA d Hd).
  cbn [vfac1 vfac2 lpt_coefficients]. apply C_eq; simpl; ring.
Qed.

Lemma symplectic_term_is_scaled_away_witness :
  (1 < local_n geo2)%nat /\ (0 < 3)%nat
  /\ setup_SymplecticPT cfg_symplectic = Some true
  /\ (forall e, (e < 3)%nat ->
        A3 (snd (fst (Run_potentials box2 geo2 amp_one cfg_symplectic 1 1
                        noise_axes zero_fields))) e 1%nat = Czero).
Proof.
  assert (H : (1 < local_n geo2)%nat) by (simpl; lia).
  assert (Hd : (0 < 3)%nat) by lia.
  split; [exact H|]. split; [exact Hd|]. split; [reflexivity|].
  exact (proj1 (symplectic_term_is_scaled_away box2 geo2 amp_one cfg_symplectic
                  1 1 1 noise_axes zero_fields 0 1 H Hd eq_refl)).
Defined.

(** X9.  Without the symplectic flag [Run] keeps the configured order,
    writes no warning and announces phi(1), then phi(2) for an order above
    1, then phi(3a), phi(3b) and A(3) for an order above 2, in this order;
    the term vNLO(3) is never announced. *)
Theorem terms_computed_by_order (T : Transforms) (geo : geometry)
    (amp : R -> R) (cfg : ConfigFile) (Dplus0 vfac : R) (noise : kgrid)
    (F : fields) :
  read_symplectic cfg = false ->
  let r := Run_potentials T geo amp cfg Dplus0 vfac noise F in
  fst (fst r) = read_LPTorder cfg
  /\ snd r =
     [ilog "Computing phi(1) term"]
     ++ (if (read_LPTorder cfg >? 1)%Z then [ilog "Computing phi(2) term"]
         else [])
     ++ (if (read_LPTorder cfg >? 2)%Z
         then [ilog "Computing phi(3a) term"; ilog "Computing phi(3b) term";
               ilog "Computing A(3) term"]
         else [])
  /\ ~ In warn_symplectic (snd r)
  /\ ~ In (ilog "Computing vNLO(3) term") (snd r).
Proof.
  intros Hs. cbv zeta. rewrite Run_potentials_eq. rewrite Hs.
  rewrite override_order_plain. cbn [fst snd app].
  unfold Run_cascade.
  destruct (read_LPTorder cfg >? 1)%Z, (read_LPTorder cfg >? 2)%Z;
    cbn [orb andb negb fst snd app];
    (split; [reflexivity|]); (split; [reflexivity|]);
    split; simpl; intuition discriminate.
Qed.

Lemma terms_computed_by_order_witness :
  read_symplectic cfg_fixing = false
  /\ snd (Run_potentials box2 geo2 amp_one cfg_fixing 1 1 noise_axes
            zero_fields) =
     [ilog "Computing phi(1) term"; ilog "Computing phi(2) term";
      ilog "Computing phi(3a) term"; ilog "Computing phi(3b) term";
      ilog "Computing A(3) term"].
Proof.
  split; [reflexivity|].
  exact (proj1 (proj2 (terms_computed_by_order box2 geo2 amp_one cfg_fixing
                         1 1 noise_axes zero_fields eq_refl))).
Defined.

(** ** Emission *)

(** X10.  The transverse term does not contribute to the divergence: for
    every mode, the sum over the three axes of k_d times the displacement
    written for axis d is lunit i |k|^2 (phi + phi2 + phi3a + phi3b) / L, and
    the same holds for the velocity outside symplectic mode with the
    velocity factors. *)
Theorem divergence_has_no_transverse_part (geo : geometry) (lunit vunit : R)
    (c : coefficients) (F : fields) (idx : nat) :
  (Cscal (get_k geo idx 0) (displacement_mode geo lunit F 0 idx)
   + Cscal (get_k geo idx 1) (displacement_mode geo lunit F 1 idx)
   + Cscal (get_k geo idx 2) (displacement_mode geo lunit F 2 idx))%C
  = Cdivr (Cscal lunit Ci
           * Cscal (norm_squared geo idx)
               (phi F idx + phi2 F idx + phi3a F idx + phi3b F idx))%C
          (boxlen geo)
  /\ (Cscal (get_k geo idx 0) (velocity_mode geo false vunit c F 0 idx)
      + Cscal (get_k geo idx 1) (velocity_mode geo false vunit c F 1 idx)
      + Cscal (get_k geo idx 2) (velocity_mode geo false vunit c F 2 idx))%C
     = Cdivr (Cscal vunit Ci
              * Cscal (norm_squared geo idx)
                  (Cscal (vfac1 c) (phi F idx) + Cscal (vfac2 c) (phi2 F idx)
                   + Cscal (vfac3 c) (phi3a F idx + phi3b F idx)))%C
             (boxlen geo).
Proof.
  unfold displacement_mode, velocity_mode, norm_squared. cbv zeta.
  cbn [negb Nat.add Nat.modulo Nat.divmod fst snd Nat.sub].
  split; apply C_eq; simpl; unfold Rdiv; ring.
Qed.

(** X11.  For an order of at most 1 without the symplectic flag (the
    Zel'dovich approximation) the displacement written for a mode is
    lunit i k_d phi / L, and the velocity is the displacement times the
    velocity factor, up to the units: lunit V_d = vunit vfac Psi_d. *)
Theorem first_order_velocity_follows_displacement (T : Transforms)
    (geo : geometry) (amp : R -> R) (cfg : ConfigFile)
    (Dplus0 vfac lunit vunit : R) (noise : kgrid) (F : fields) (d idx : nat) :
  (idx < local_n geo)%nat ->
  read_symplectic cfg = false ->
  (read_LPTorder cfg <= 1)%Z ->
  let F' := snd (fst (Run_potentials T geo amp cfg Dplus0 vfac noise F)) in
  let c := lpt_coefficients (read_LPTorder cfg) Dplus0 vfac in
  displacement_mode geo lunit F' d idx =
    Cdivr (Cscal lunit Ci * Cscal (get_k geo idx d) (phi F' idx))%C (boxlen geo)
  /\ Cscal lunit (velocity_mode geo false vunit c F' d idx) =
     Cscal (vunit * vfac) (displacement_mode geo lunit F' d idx).
Proof.
  intros Hidx Hs Hn. cbv zeta.
  destruct (unused_potentials_cleared T geo amp cfg Dplus0 vfac noise F idx
              Hidx) as (Hle2 & Hle1).
  cbv zeta in Hle2, Hle1. rewrite Hs, override_order_plain in Hle2, Hle1.
  cbn [fst] in Hle2, Hle1.
  destruct (Hle2 ltac:(lia)) as (H3a & H3b & HA).
  specialize (Hle1 Hn).
  assert (Hp : ((d + 1) mod 3 < 3)%nat) by (apply Nat.mod_upper_bound; lia).
  assert (Hpp : ((d + 2) mod 3 < 3)%nat) by (apply Nat.mod_upper_bound; lia).
  unfold displacement_mode, velocity_mode. cbv zeta. cbn [negb].
  rewrite Hle1, H3a, H3b, (HA _ Hp), (HA _ Hpp).
  cbn [vfac1 vfac2 vfac3 lpt_coefficients].
  split; apply C_eq; simpl; unfold Rdiv; ring.
Qed.

Lemma first_order_velocity_follows_displacement_witness :
  (1 < local_n geo2)%nat
  /\ read_symplectic (with_LPTorder cfg_fixing (Some 1%Z)) = false
  /\ (read_LPTorder (with_LPTorder cfg_fixing (Some 1%Z)) <= 1)%Z
  /\ Cscal 1
       (velocity_mode geo2 false 1
          (lpt_coefficients
             (read_LPTorder (with_LPTorder cfg_fixing (Some 1%Z))) 1 1)
          (snd (fst (Run_potentials box2 geo2 amp_one
                       (with_LPTorder cfg_fixing (Some 1%Z)) 1 1
                       noise_axes zero_fields))) 0 1) =
     Cscal (1 * 1)
       (displacement_mode geo2 1
          (snd (fst (Run_potentials box2 geo2 amp_one
                       (with_LPTorder cfg_fixing (Some 1%Z)) 1 1
                       noise_axes zero_fields))) 0 1).
Proof.
  assert (H : (1 < local_n geo2)%nat) by (simpl; lia).
  assert (Hn : (read_LPTorder (with_LPTorder cfg_fixing (Some 1%Z)) <= 1)%Z)
    by (vm_compute; discriminate).
  split; [exact H|]. split; [reflexivity|]. split; [exact Hn|].
  exact (proj2 (first_order_velocity_follows_displacement box2 geo2 amp_one
                  (with_LPTorder cfg_fixing (Some 1%Z)) 1 1 1 1 noise_axes
                  zero_fields 0 1 H eq_refl Hn)).
Defined.

(** X12.  What [main] writes for the displacement and for the velocity of
    a mode is what [Run] writes outside symplectic mode with both units
    equal to one. *)
Theorem main_emission_is_Run_with_unit_one (geo : geometry) (c : coefficients)
    (F : fields) (d idx : nat) :
  main_displacement_mode geo F d idx = displacement_mode geo 1 F d idx
  /\ main_velocity_mode geo c F d idx = velocity_mode geo false 1 c F d idx.
Proof.
  unfold main_displacement_mode, displacement_mode, main_velocity_mode,
    velocity_mode. cbv zeta. cbn [negb].
  split; apply C_eq; simpl; unfold Rdiv; ring.
Qed.

(** ** The first-order potential *)

Lemma Cabs_scaled (s : R) (u : ccomplex_t) :
  Cabs (mkC (s * Re u) (s * Im u)) = Rabs s * Cabs u.
Proof.
  unfold Cabs. simpl.
  replace (s * Re u * (s * Re u) + s * Im u * (s * Im u))
    with (s * s * (Re u * Re u + Im u * Im u)) by ring.
  rewrite sqrt_mult by nra.
  f_equal. fold (Rsqr s). apply sqrt_Rsqr_abs.
Qed.

Lemma fix_mode_scale_invariant (c : R) (x : ccomplex_t) :
  0 < c -> fix_mode true (Cscal c x) = fix_mode true x.
Proof.
  intros Hc.
  assert (Ha : Cabs (Cscal c x) = c * Cabs x).
  { unfold Cscal. rewrite Cabs_scaled. rewrite Rabs_pos_eq by lra.
    reflexivity. }
  destruct (Req_dec_T (Cabs x) 0) as [E|N].
  - assert (Hx : x = Czero) by (apply Cabs_zero_inv; exact E).
    subst x. rewrite Cscal_zero_r. reflexivity.
  - rewrite (fix_mode_nonzero x N).
    rewrite (fix_mode_nonzero (Cscal c x)) by (rewrite Ha; nra).
    rewrite Ha. apply C_eq; simpl; field; repeat split; (exact N || lra).
Qed.

(** X13.  With fixing enabled the first-order potential keeps only the
    phases of the noise: multiplying the white noise by a positive number
    leaves every mode of phi(1) as it is. *)
Theorem fixed_potential_ignores_noise_amplitude (geo : geometry)
    (amp : R -> R) (vol c : R) (noise : kgrid) (idx : nat) :
  0 < c -> (idx < local_n geo)%nat ->
  compute_phi1 geo true amp vol (fun i => Cscal c (noise i)) idx =
  compute_phi1 geo true amp vol noise idx.
Proof.
  intros Hc Hidx. rewrite !compute_phi1_at by exact Hidx.
  destruct (is_DC (mode_of geo idx)); [reflexivity|].
  unfold phi1_kernel. cbv zeta.
  rewrite fix_mode_scale_invariant by exact Hc. reflexivity.
Qed.

Lemma fixed_potential_ignores_noise_amplitude_witness :
  0 < 2 /\ (1 < local_n geo2)%nat
  /\ compute_phi1 geo2 true amp_one vol2 (fun i => Cscal 2 (noise_axes i)) 1%nat
     = compute_phi1 geo2 true amp_one vol2 noise_axes 1%nat.
Proof.
  assert (Hc : 0 < 2) by lra.
  assert (H : (1 < local_n geo2)%nat) by (simpl; lia).
  split; [exact Hc|]. split; [exact H|].
  exact (fixed_potential_ignores_noise_amplitude geo2 amp_one vol2 2 noise_axes
           1 Hc H).
Defined.

(** X14.  With fixing enabled, a mode other than DC whose noise value is
    not zero gets a potential of modulus |Phat(|k|)| / (|k|^2 V_f): the
    modulus does not depend on the noise. *)
Theorem fixed_potential_modulus (geo : geometry) (amp : R -> R) (vol : R)
    (noise : kgrid) (idx : nat) :
  (idx < local_n geo)%nat ->
  is_DC (mode_of geo idx) = false ->
  Cabs (noise idx) <> 0 ->
  0 < norm_squared geo idx -> 0 < vol ->
  Cabs (compute_phi1 geo true amp vol noise idx) =
  Rabs (amp (norm geo idx)) / (norm_squared geo idx * vol).
Proof.
  intros Hidx Hdc Hx Hk Hv.
  rewrite compute_phi1_at by exact Hidx. rewrite Hdc, phi1_kernel_eq.
  rewrite fix_mode_nonzero by exact Hx.
  set (u := Cdivr (noise idx) (Cabs (noise idx))).
  assert (Hu : Cabs u = 1) by (apply Cabs_phase; exact Hx).
  set (a := amp (norm geo idx)). set (dn := norm_squared geo idx * vol).
  assert (Hd : 0 < dn) by (unfold dn; nra).
  replace (Cdivr (- Cmulr u a)%C dn)
    with (mkC ((- a / dn) * Re u) ((- a / dn) * Im u))
    by (apply C_eq; simpl; field; lra).
  rewrite Cabs_scaled, Hu.
  unfold Rdiv. rewrite Rabs_mult, Rabs_Ropp.
  rewrite (Rabs_pos_eq (/ dn)) by (left; apply Rinv_0_lt_compat; exact Hd).
  ring.
Qed.

Lemma fixed_potential_modulus_witness :
  (1 < local_n geo2)%nat /\ is_DC (mode_of geo2 1%nat) = false
  /\ Cabs (noise_axes 1%nat) <> 0 /\ 0 < norm_squared geo2 1 /\ 0 < vol2
  /\ Cabs (compute_phi1 geo2 true amp_one vol2 noise_axes 1%nat) =
     Rabs (amp_one (norm geo2 1)) / (norm_squared geo2 1 * vol2).
Proof.
  assert (H : (1 < local_n geo2)%nat) by (simpl; lia).
  assert (Hx : Cabs (noise_axes 1%nat) <> 0).
  { intros E. apply Cabs_zero_inv in E. apply (f_equal Re) in E.
    simpl in E. pose proof vol2_pos. lra. }
  assert (Hk : 0 < norm_squared geo2 1)
    by (rewrite norm_squared_geo2_at; unfold neg_bit; simpl; lra).
  split; [exact H|]. split; [reflexivity|]. split; [exact Hx|].
  split; [exact Hk|]. split; [exact vol2_pos|].
  exact (fixed_potential_modulus geo2 amp_one vol2 noise_axes 1 H eq_refl Hx
           Hk vol2_pos).
Defined.

(** X15.  Without fixing the first-order potential is linear in the white
    noise: the potential of a sum of two noise fields is the sum of their
    potentials, and scaling the noise scales the potential. *)
Theorem unfixed_potential_is_linear (geo : geometry) (amp : R -> R)
    (vol c : R) (noise noise' : kgrid) (idx : nat) :
  (idx < local_n geo)%nat ->
  compute_phi1 geo false amp vol (fun i => (noise i + noise' i)%C) idx =
    (compute_phi1 geo false amp vol noise idx
     + compute_phi1 geo false amp vol noise' idx)%C
  /\ compute_phi1 geo false amp vol (fun i => Cscal c (noise i)) idx =
     Cscal c (compute_phi1 geo false amp vol noise idx).
Proof.
  intros Hidx. rewrite !compute_phi1_at by exact Hidx.
  destruct (is_DC (mode_of geo idx)).
  - split; apply C_eq; simpl; ring.
  - unfold phi1_kernel, fix_mode. cbv zeta.
    split; apply C_eq; simpl; unfold Rdiv; ring.
Qed.

Lemma unfixed_potential_is_linear_witness :
  (1 < local_n geo2)%nat
  /\ compute_phi1 geo2 false amp_one vol2 (fun i => Cscal 2 (noise_axes i)) 1%nat
     = Cscal 2 (compute_phi1 geo2 false amp_one vol2 noise_axes 1%nat).
Proof.
  assert (H : (1 < local_n geo2)%nat) by (simpl; lia).
  split; [exact H|].
  exact (proj2 (unfixed_potential_is_linear geo2 amp_one vol2 2 noise_axes
                  noise_axes 1 H)).
Defined.

(** ** The wave function of the semiclassical path *)

Lemma Cabs_mult (a b : ccomplex_t) : Cabs (a * b)%C = Cabs a * Cabs b.
Proof.
  unfold Cabs, Cmult. simpl.
  rewrite <- sqrt_mult by nra. f_equal. ring.
Qed.

Lemma Cabs_Cexp (z : ccomplex_t) : Cabs (Cexp z) = exp (Re z).
Proof.
  unfold Cexp. rewrite Cabs_scaled with (u := mkC (cos (Im z)) (sin (Im z))).
  rewrite Rabs_pos_eq by (left; apply exp_pos).
  unfold Cabs. simpl.
  replace (cos (Im z) * cos (Im z) + sin (Im z) * sin (Im z)) with 1.
  - rewrite sqrt_1. ring.
  - pose proof (sin2_cos2 (Im z)) as H. unfold Rsqr in H. lra.
Qed.

Lemma rho_zero_of_unit (p : ccomplex_t) : Cabs p = 1 -> rho_of_psi p = 0.
Proof. intros H. rewrite rho_of_psi_abs, H. ring. Qed.

Lemma psi_init1_unit (hbar Dplus0 pphi : R) :
  Cabs (psi_init1 hbar Dplus0 pphi) = 1.
Proof.
  unfold psi_init1. rewrite Cabs_Cexp. simpl.
  rewrite Rmult_0_l. apply exp_0.
Qed.

Lemma psi_init2_unit (hbar Dplus0 pphi pphi2 : R) :
  Cabs (psi_init2 hbar Dplus0 pphi pphi2) = 1.
Proof.
  unfold psi_init2. rewrite Cabs_Cexp. simpl.
  unfold Rdiv. rewrite !Rmult_0_l. apply exp_0.
Qed.

Lemma phase_factor_unit (hbar Dplus0 pphi2 : R) :
  Cabs (Cexp (Cdivr (Cmulr (mkC 0 (1 / hbar)) pphi2) Dplus0)) = 1.
Proof.
  rewrite Cabs_Cexp. simpl. unfold Rdiv. rewrite !Rmult_0_l. apply exp_0.
Qed.

Lemma drift_factor_unit (hbar Dplus0 k2 : R) :
  Cabs (Cexp (Cmulr (Cmulr (Cmulr (- mkC 0 0.5) hbar) k2) Dplus0)) = 1.
Proof.
  rewrite Cabs_Cexp. simpl.
  replace (- 0 * hbar * k2 * Dplus0) with 0 by ring. apply exp_0.
Qed.

(** X16.  For an order of at least 1, with hbar and D+ other than zero (the
    exponent of lines 285 and 291 divides by both), the wave function that
    [Run] builds from the potentials has modulus one at every cell, so the
    density |psi|^2 - 1 is zero before the drift. *)
Theorem initial_wave_function_is_unit (T : Transforms) (hbar Dplus0 : R)
    (LPTorder : Z) (phi_r phi2_r : rcell T -> R)
    (psi0 : rcell T -> ccomplex_t) (x : rcell T) :
  hbar <> 0 -> Dplus0 <> 0 -> (1 <= LPTorder)%Z ->
  Cabs (qpt_psi_init T hbar Dplus0 LPTorder phi_r phi2_r psi0 x) = 1
  /\ rho_of_psi (qpt_psi_init T hbar Dplus0 LPTorder phi_r phi2_r psi0 x) = 0.
Proof.
  intros _ _ Hn.
  assert (E : Cabs (qpt_psi_init T hbar Dplus0 LPTorder phi_r phi2_r psi0 x)
              = 1).
  { unfold qpt_psi_init. destruct (Z.eqb_spec LPTorder 1) as [_|N].
    - apply psi_init1_unit.
    - assert (H2 : (LPTorder >=? 2)%Z = true)
        by (rewrite Z.geb_leb; apply Z.leb_le; lia).
      rewrite H2. apply psi_init2_unit. }
  split; [exact E|apply rho_zero_of_unit; exact E].
Qed.

Lemma initial_wave_function_is_unit_witness :
  2 <> 0 /\ 1 <> 0 /\ (1 <= 3)%Z
  /\ Cabs (qpt_psi_init box2 2 1 3 (fun _ => 1) (fun _ => 1) psi_nyquist 0%nat)
     = 1.
Proof.
  assert (Hh : 2 <> 0) by lra.
  assert (HD : 1 <> 0) by lra.
  assert (H : (1 <= 3)%Z) by lia.
  split; [exact Hh|]. split; [exact HD|]. split; [exact H|].
  exact (proj1 (initial_wave_function_is_unit box2 2 1 3 (fun _ => 1)
                  (fun _ => 1) psi_nyquist 0%nat Hh HD H)).
Defined.

(** X17.  The drift multiplies every local mode of psi by a phase: the
    modulus of each mode is the same before and after the drift. *)
Theorem drift_preserves_mode_modulus (T : Transforms) (geo : geometry)
    (hbar Dplus0 : R) (psi : rcell T -> ccomplex_t) (idx : nat) :
  Cabs (qpt_psi_drifted_k T geo hbar Dplus0 psi idx) =
  Cabs (cFourierTransformForward T psi idx).
Proof.
  unfold qpt_psi_drifted_k. rewrite apply_function_k_dep_at.
  destruct (idx <? local_n geo)%nat; [|reflexivity].
  unfold drift_kernel. rewrite Cabs_mult, drift_factor_unit. ring.
Qed.

(** X18.  The second multiplication by the phase of phi2, for an order of
    2 or more, does not change the density: the density taken from the
    final wave function is that of the wave function after the drift. *)
Theorem density_ignores_second_phase (T : Transforms) (geo : geometry)
    (hbar Dplus0 : R) (LPTorder : Z) (phi_r phi2_r : rcell T -> R)
    (psi0 : rcell T -> ccomplex_t) (x : rcell T) :
  rho_of_psi (qpt_psi T geo hbar Dplus0 LPTorder phi_r phi2_r psi0 x) =
  rho_of_psi
    (cFourierTransformBackward T
       (qpt_psi_drifted_k T geo hbar Dplus0
          (qpt_psi_init T hbar Dplus0 LPTorder phi_r phi2_r psi0)) x).
Proof.
  unfold qpt_psi. cbv zeta. destruct (LPTorder >=? 2)%Z; [|reflexivity].
  rewrite !rho_of_psi_abs. unfold kick_kernel.
  rewrite Cabs_mult, phase_factor_unit. ring.
Qed.

(** X19.  For a configured order of 0 or less the wave function is never
    assigned from the potentials: what is evolved and written out is the
    grid psi as it was constructed, drifted, whatever phi and phi2 are. *)
Theorem wave_function_unset_below_order_one (T : Transforms) (geo : geometry)
    (hbar Dplus0 : R) (LPTorder : Z) (phi_r phi2_r : rcell T -> R)
    (psi0 : rcell T -> ccomplex_t) :
  (LPTorder <= 0)%Z ->
  qpt_psi T geo hbar Dplus0 LPTorder phi_r phi2_r psi0 =
  cFourierTransformBackward T (qpt_psi_drifted_k T geo hbar Dplus0 psi0).
Proof.
  intros Hn. unfold qpt_psi, qpt_psi_init.
  assert (H1 : (LPTorder =? 1)%Z = false) by (apply Z.eqb_neq; lia).
  assert (H2 : (LPTorder >=? 2)%Z = false)
    by (rewrite Z.geb_leb; apply Z.leb_gt; lia).
  rewrite H1, H2. reflexivity.
Qed.

Lemma wave_function_unset_below_order_one_witness :
  (0 <= 0)%Z
  /\ qpt_psi box2 geo2 2 1 0 (fun _ => 1) (fun _ => 1) psi_nyquist =
     cFourierTransformBackward box2 (qpt_psi_drifted_k box2 geo2 2 1 psi_nyquist).
Proof.
  assert (H : (0 <= 0)%Z) by lia.
  split; [exact H|].
  exact (wave_function_unset_below_order_one box2 geo2 2 1 0 (fun _ => 1)
           (fun _ => 1) psi_nyquist H).
Defined.

(** X20.  Where the gradient of psi is i g / hbar times psi (a wave of
    local phase gradient g) and psi is not zero, the velocity written out
    is g. *)
Theorem velocity_of_phase_gradient (hbar g : R) (ppsi : ccomplex_t) :
  hbar <> 0 -> Cabs ppsi <> 0 ->
  qpt_velocity hbar ppsi (mkC 0 (g / hbar) * ppsi)%C (rho_of_psi ppsi) = g.
Proof.
  intros Hh Hp. rewrite qpt_velocity_eq by exact Hh.
  assert (Hm : Re ppsi * Re ppsi + Im ppsi * Im ppsi <> 0).
  { intros E. apply Hp. unfold Cabs. rewrite E. apply sqrt_0. }
  assert (Hm' : 1 + (Re ppsi * Re ppsi + Im ppsi * Im ppsi - 1) <> 0).
  { replace (1 + (Re ppsi * Re ppsi + Im ppsi * Im ppsi - 1))
      with (Re ppsi * Re ppsi + Im ppsi * Im ppsi) by ring.
    exact Hm. }
  unfold rho_of_psi, Cmult, Cconj. simpl. field. split; assumption.
Qed.

Lemma velocity_of_phase_gradient_witness :
  2 <> 0 /\ Cabs Cone <> 0
  /\ qpt_velocity 2 Cone (mkC 0 (3 / 2) * Cone)%C (rho_of_psi Cone) = 3.
Proof.
  assert (Hh : 2 <> 0) by lra.
  assert (Hp : Cabs Cone <> 0) by (rewrite Cabs_Cone; lra).
  split; [exact Hh|]. split; [exact Hp|].
  exact (velocity_of_phase_gradient 2 3 Cone Hh Hp).
Defined.

(** ** Velocities of the particles and the simple-cubic lattice *)

(** one pass that stores a velocity for each cell from slot [start] on *)
Lemma store_pass_vel (val : nat * nat * nat -> R) (idim : nat)
    (l : list (nat * nat * nat)) (start : nat) (P : particle_container) :
  let body := fun (st : nat * particle_container) (c : nat * nat * nat) =>
                let '(ipcount, Q) := st in
                (S ipcount, set_vel Q ipcount idim (val c)) in
  let st := fold_left body l (start, P) in
  (start + length l <= length (velocities P))%nat ->
  length (velocities (snd st)) = length (velocities P)
  /\ (forall q, (q < length l)%nat ->
        nth (start + q) (velocities (snd st)) (fun _ => 0) idim
        = val (nth q l (O, O, O)))
  /\ (forall p, (p < start \/ start + length l <= p)%nat ->
        nth p (velocities (snd st)) (fun _ => 0)
        = nth p (velocities P) (fun _ => 0))
  /\ ids (snd st) = ids P
  /\ positions (snd st) = positions P.
Proof.
  cbv zeta.
  assert (G : (start + length l <= length (velocities P))%nat ->
              fst (fold_left
                     (fun (st : nat * particle_container) c =>
                        let '(ipcount, Q) := st in
                        (S ipcount, set_vel Q ipcount idim (val c)))
                     l (start, P)) = (start + length l)%nat
              /\ length (velocities (snd (fold_left
                     (fun (st : nat * particle_container) c =>
                        let '(ipcount, Q) := st in
                        (S ipcount, set_vel Q ipcount idim (val c)))
                     l (start, P)))) = length (velocities P)
              /\ (forall q, (q < length l)%nat ->
                    nth (start + q) (velocities (snd (fold_left
                     (fun (st : nat * particle_container) c =>
                        let '(ipcount, Q) := st in
                        (S ipcount, set_vel Q ipcount idim (val c)))
                     l (start, P)))) (fun _ => 0) idim
                    = val (nth q l (O, O, O)))
              /\ (forall p, (p < start \/ start + length l <= p)%nat ->
                    nth p (velocities (snd (fold_left
                     (fun (st : nat * particle_container) c =>
                        let '(ipcount, Q) := st in
                        (S ipcount, set_vel Q ipcount idim (val c)))
                     l (start, P)))) (fun _ => 0)
                    = nth p (velocities P) (fun _ => 0))
              /\ ids (snd (fold_left
                     (fun (st : nat * particle_container) c =>
                        let '(ipcount, Q) := st in
                        (S ipcount, set_vel Q ipcount idim (val c)))
                     l (start, P))) = ids P
              /\ positions (snd (fold_left
                     (fun (st : nat * particle_container) c =>
                        let '(ipcount, Q) := st in
                        (S ipcount, set_vel Q ipcount idim (val c)))
                     l (start, P))) = positions P).
  { induction l as [|x l IH] using rev_ind; intros Hlen.
    - simpl. rewrite Nat.add_0_r. repeat split; auto. intros q Hq. lia.
    - rewrite length_app in *. simpl length in *. rewrite fold_left_app.
      destruct IH as (Hc & Hl & Hin & Hout & Hid & Hpos); [lia|].
      destruct (fold_left _ l (start, P)) as [cnt Q].
      simpl in Hc, Hl, Hin, Hout, Hid, Hpos. subst cnt.
      simpl fold_left. unfold set_vel. simpl fst; simpl snd;
        simpl velocities; simpl ids; simpl positions.
      split; [lia|]. split; [rewrite list_set_length; exact Hl|].
      split; [|split; [|split; assumption]].
      + intros q Hq. destruct (Nat.eq_dec q (length l)) as [->|N].
        * rewrite list_set_nth_same by lia. unfold set_comp.
          rewrite Nat.eqb_refl. rewrite app_nth2 by lia.
          rewrite Nat.sub_diag. reflexivity.
        * rewrite list_set_nth_other by lia. rewrite app_nth1 by lia.
          apply Hin. lia.
      + intros p Hp. rewrite list_set_nth_other by lia. apply Hout. lia. }
  intros Hlen. destruct (G Hlen) as (_ & H). exact H.
Qed.

Lemma store_velocities_pass (relem : nat -> nat -> nat -> R)
    (idim n0 n1 n2 start : nat) (P : particle_container) :
  store_velocities relem idim n0 n1 n2 start P =
  snd (fold_left
         (fun (st : nat * particle_container) (c : nat * nat * nat) =>
            let '(ipcount, Q) := st in
            (S ipcount,
             set_vel Q ipcount idim (relem (fst (fst c)) (snd (fst c)) (snd c))))
         (cells n0 n1 n2) (start, P)).
Proof.
  unfold store_velocities. f_equal.
  apply (nested_loops_cells
           (fun i j k (st : nat * particle_container) =>
              let '(ipcount, Q) := st in
              (S ipcount, set_vel Q ipcount idim (relem i j k)))).
Qed.

Lemma store_positions_keeps_velocities (lunit : R)
    (unit_r : nat -> nat -> nat -> vec3) (relem : nat -> nat -> nat -> R)
    (idim n0 n1 n2 start : nat) (P : particle_container) :
  velocities (store_positions lunit unit_r relem idim n0 n1 n2 start P)
  = velocities P.
Proof.
  rewrite store_positions_pass.
  generalize (cells n0 n1 n2). intros l. revert start P.
  induction l as [|x l IH]; intros start P.
  - reflexivity.
  - simpl fold_left. rewrite IH. reflexivity.
Qed.

Lemma emit_positions_keeps_velocities (b : bool) (lunit : R)
    (unit_r unit_r_s : nat -> nat -> nat -> vec3)
    (relem relem_s : nat -> nat -> nat -> R) (idim n0 n1 n2 M : nat)
    (P : particle_container) :
  velocities (emit_positions b lunit unit_r unit_r_s relem relem_s idim
                n0 n1 n2 M P) = velocities P.
Proof.
  unfold emit_positions. destruct b;
    rewrite !store_positions_keeps_velocities; reflexivity.
Qed.

(** X21.  With BCC, the velocity of a cell is stored in the slot that
    holds its position: for the primary lattice the slot of the cell in
    loop order, for the staggered lattice that slot plus N_loc N^2; storing
    the velocities changes neither the positions nor the ids. *)
Theorem velocities_share_the_slots_of_positions (n0 n1 n2 : nat) (lunit : R)
    (unit_r unit_r_s : nat -> nat -> nat -> vec3)
    (relem relem_s vrelem vrelem_s : nat -> nat -> nat -> R) (idim jdim : nat)
    (P : particle_container) :
  (2 * (n0 * n1 * n2) <= length (positions P))%nat ->
  (2 * (n0 * n1 * n2) <= length (velocities P))%nat ->
  let M := (n0 * n1 * n2)%nat in
  let P1 := emit_positions true lunit unit_r unit_r_s relem relem_s idim
              n0 n1 n2 M P in
  let Q := emit_velocities true vrelem vrelem_s jdim n0 n1 n2 M P1 in
  (forall q, (q < M)%nat ->
     let c := nth q (cells n0 n1 n2) (O, O, O) in
     nth q (positions Q) (fun _ => 0) idim
       = unit_r (fst (fst c)) (snd (fst c)) (snd c) idim * lunit
         + relem (fst (fst c)) (snd (fst c)) (snd c)
     /\ nth q (velocities Q) (fun _ => 0) jdim
        = vrelem (fst (fst c)) (snd (fst c)) (snd c)
     /\ nth (M + q) (positions Q) (fun _ => 0) idim
        = unit_r_s (fst (fst c)) (snd (fst c)) (snd c) idim * lunit
          + relem_s (fst (fst c)) (snd (fst c)) (snd c)
     /\ nth (M + q) (velocities Q) (fun _ => 0) jdim
        = vrelem_s (fst (fst c)) (snd (fst c)) (snd c))
  /\ positions Q = positions P1
  /\ ids Q = ids P.
Proof.
  intros Hlp Hlv. cbv zeta.
  set (P1 := emit_positions true lunit unit_r unit_r_s relem relem_s idim
               n0 n1 n2 (n0 * n1 * n2) P).
  assert (Hv1 : velocities P1 = velocities P)
    by apply emit_positions_keeps_velocities.
  pose proof (cells_length n0 n1 n2) as Hcl.
  (* the two passes over the positions *)
  assert (HP1 : (forall q, (q < n0 * n1 * n2)%nat ->
                   nth q (positions P1) (fun _ => 0) idim
                   = (fun c => unit_r (fst (fst c)) (snd (fst c)) (snd c) idim
                               * lunit
                               + relem (fst (fst c)) (snd (fst c)) (snd c))
                       (nth q (cells n0 n1 n2) (O, O, O))
                   /\ nth (n0 * n1 * n2 + q) (positions P1) (fun _ => 0) idim
                      = (fun c => unit_r_s (fst (fst c)) (snd (fst c)) (snd c)
                                    idim * lunit
                                  + relem_s (fst (fst c)) (snd (fst c)) (snd c))
                          (nth q (cells n0 n1 n2) (O, O, O)))
                /\ ids P1 = ids P).
  { unfold P1, emit_positions. rewrite !store_positions_pass.
    destruct (store_pass
                (fun c => unit_r (fst (fst c)) (snd (fst c)) (snd c) idim
                          * lunit
                          + relem (fst (fst c)) (snd (fst c)) (snd c))
                idim (cells n0 n1 n2) 0 P)
      as (_ & Hl1 & Hin1 & _ & Hid1); [rewrite Hcl; lia|].
    match type of Hl1 with
    | length (positions (snd ?st)) = _ => set (st1 := st) in *
    end.
    destruct (store_pass
                (fun c => unit_r_s (fst (fst c)) (snd (fst c)) (snd c) idim
                          * lunit
                          + relem_s (fst (fst c)) (snd (fst c)) (snd c))
                idim (cells n0 n1 n2) (n0 * n1 * n2) (snd st1))
      as (_ & _ & Hin2 & Hout2 & Hid2); [rewrite Hcl, Hl1; lia|].
    split.
    - intros q Hq. split.
      + rewrite Hout2 by lia. rewrite <- (Hin1 q) by lia. reflexivity.
      + apply Hin2. lia.
    - rewrite Hid2, Hid1. reflexivity. }
  destruct HP1 as (Hpos & HidP1).
  (* the two passes over the velocities *)
  unfold emit_velocities. rewrite !store_velocities_pass.
  destruct (store_pass_vel
              (fun c => vrelem (fst (fst c)) (snd (fst c)) (snd c))
              jdim (cells n0 n1 n2) 0 P1)
    as (Hl1 & Hin1 & _ & Hid1 & Hp1); [rewrite Hcl, Hv1; lia|].
  match type of Hl1 with
  | length (velocities (snd ?st)) = _ => set (st1 := st) in *
  end.
  destruct (store_pass_vel
              (fun c => vrelem_s (fst (fst c)) (snd (fst c)) (snd c))
              jdim (cells n0 n1 n2) (n0 * n1 * n2) (snd st1))
    as (Hl2 & Hin2 & Hout2 & Hid2 & Hp2); [rewrite Hcl, Hl1, Hv1; lia|].
  assert (HposQ : positions (snd (fold_left
                     (fun (st : nat * particle_container) c =>
                        let '(ipcount, Q) := st in
                        (S ipcount,
                         set_vel Q ipcount jdim
                           (vrelem_s (fst (fst c)) (snd (fst c)) (snd c))))
                     (cells n0 n1 n2) ((n0 * n1 * n2)%nat, snd st1)))
                  = positions P1)
    by (rewrite Hp2, Hp1; reflexivity).
  split; [|split].
  - intros q Hq. cbv zeta. rewrite HposQ.
    destruct (Hpos q Hq) as (Ha & Hb).
    split; [exact Ha|]. split.
    + rewrite Hout2 by lia. rewrite <- (Hin1 q) by lia. reflexivity.
    + split; [exact Hb|]. apply Hin2. lia.
  - exact HposQ.
  - rewrite Hid2, Hid1. exact HidP1.
Qed.

Lemma velocities_share_the_slots_of_positions_witness :
  (2 * (1 * 2 * 2) <= length (positions (allocate 8)))%nat
  /\ (2 * (1 * 2 * 2) <= length (velocities (allocate 8)))%nat
  /\ ids (emit_velocities true (fun _ _ _ => 1) (fun _ _ _ => 2) 0 1 2 2
            (1 * 2 * 2)
            (emit_positions true 1 (fun _ _ _ _ => 0) (fun _ _ _ _ => 0)
               (fun _ _ _ => 0) (fun _ _ _ => 0) 0 1 2 2 (1 * 2 * 2)
               (allocate 8)))
     = ids (allocate 8).
Proof.
  assert (H1 : (2 * (1 * 2 * 2) <= length (positions (allocate 8)))%nat)
    by (simpl; lia).
  assert (H2 : (2 * (1 * 2 * 2) <= length (velocities (allocate 8)))%nat)
    by (simpl; lia).
  split; [exact H1|]. split; [exact H2|].
  exact (proj2 (proj2 (velocities_share_the_slots_of_positions 1 2 2 1
                         (fun _ _ _ _ => 0) (fun _ _ _ _ => 0)
                         (fun _ _ _ => 0) (fun _ _ _ => 0)
                         (fun _ _ _ => 1) (fun _ _ _ => 2) 0 0 (allocate 8)
                         H1 H2))).
Defined.

(** X22.  Without BCC a rank allocates N_loc N^2 particles; slot p gets
    the id local_offset N^2 + p, the ids of all ranks in rank order are the
    numbers from 0 on without gap or repetition, and the positions fill the
    slots from 0 only. *)
Theorem simple_cubic_particle_layout (N N_loc local_offset : nat)
    (slabs : list nat) (lunit : R)
    (unit_r unit_r_staggered : nat -> nat -> nat -> vec3)
    (relem relem_s : nat -> nat -> nat -> R) (idim : nat) :
  (Z.of_nat ((local_offset + N_loc) * N * N) <= 2 ^ 64)%Z ->
  (Z.of_nat (list_sum slabs * N * N) <= 2 ^ 64)%Z ->
  let M := local_size N_loc N in
  let P0 := allocate_particles false M in
  let P := generate_ids false (get_local_offset local_offset N) N_loc N N P0 in
  let Q := emit_positions false lunit unit_r unit_r_staggered relem relem_s
             idim N_loc N N M P in
  length (ids P0) = (N_loc * N * N)%nat
  /\ ids P = map Z.of_nat (seq (local_offset * N * N) (N_loc * N * N))
  /\ all_rank_ids false N slabs 0 = map Z.of_nat (seq 0 (list_sum slabs * N * N))
  /\ NoDup (all_rank_ids false N slabs 0)
  /\ (forall q, (q < N_loc * N * N)%nat ->
        let c := nth q (cells N_loc N N) (O, O, O) in
        nth q (positions Q) (fun _ => 0) idim
          = unit_r (fst (fst c)) (snd (fst c)) (snd c) idim * lunit
            + relem (fst (fst c)) (snd (fst c)) (snd c))
  /\ length (positions Q) = (N_loc * N * N)%nat
  /\ ids Q = ids P.
Proof.
  intros Hw1 Hw2. cbv zeta. unfold local_size.
  set (M := (N_loc * N * N)%nat).
  assert (Hids0 : length (ids (allocate_particles false M)) = M)
    by (simpl; apply repeat_length).
  assert (Hpos0 : length (positions (allocate_particles false M)) = M)
    by (simpl; apply repeat_length).
  split; [exact Hids0|].
  assert (Hrank : rank_ids false N local_offset N_loc =
                  map Z.of_nat (seq (local_offset * N * N) M)).
  { rewrite (rank_ids_block false N local_offset N_loc).
    - cbv zeta. f_equal. f_equal; unfold M; lia.
    - cbv zeta. replace (1 * (local_offset + N_loc) * N * N)%nat
        with ((local_offset + N_loc) * N * N)%nat by lia. exact Hw1. }
  split; [exact Hrank|].
  assert (Hall : all_rank_ids false N slabs 0 =
                 map Z.of_nat (seq 0 (list_sum slabs * N * N))).
  { rewrite (all_rank_ids_block false N slabs 0).
    - cbv zeta. f_equal. f_equal; lia.
    - cbv zeta. replace (1 * (0 + list_sum slabs) * N * N)%nat
        with (list_sum slabs * N * N)%nat by lia. exact Hw2. }
  split; [exact Hall|].
  split.
  { rewrite Hall. apply NoDup_map_NoDup_ForallPairs.
    - intros x y _ _. apply Nat2Z.inj.
    - apply seq_NoDup. }
  set (P := generate_ids false (get_local_offset local_offset N) N_loc N N
              (allocate_particles false M)).
  assert (HposP : length (positions P) = M).
  { unfold P. rewrite generate_ids_positions; [exact Hpos0|].
    rewrite Hids0. unfold M. lia. }
  unfold emit_positions. rewrite store_positions_pass.
  pose proof (cells_length N_loc N N) as Hcl. fold M in Hcl.
  destruct (store_pass
              (fun c => unit_r (fst (fst c)) (snd (fst c)) (snd c) idim * lunit
                        + relem (fst (fst c)) (snd (fst c)) (snd c))
              idim (cells N_loc N N) 0 P)
    as (_ & Hl1 & Hin1 & _ & Hid1); [rewrite Hcl, HposP; lia|].
  split; [|split].
  - intros q Hq. cbv zeta. rewrite <- (Hin1 q) by lia. reflexivity.
  - rewrite Hl1. exact HposP.
  - exact Hid1.
Qed.

Lemma simple_cubic_particle_layout_witness :
  (Z.of_nat ((1 + 1) * 2 * 2) <= 2 ^ 64)%Z
  /\ (Z.of_nat (list_sum [1; 1]%nat * 2 * 2) <= 2 ^ 64)%Z
  /\ ids (generate_ids false (get_local_offset 1 2) 1 2 2
            (allocate_particles false (local_size 1 2)))
     = map Z.of_nat (seq (1 * 2 * 2) (1 * 2 * 2)).
Proof.
  assert (H1 : (Z.of_nat ((1 + 1) * 2 * 2) <= 2 ^ 64)%Z)
    by (vm_compute; discriminate).
  assert (H2 : (Z.of_nat (list_sum [1; 1]%nat * 2 * 2) <= 2 ^ 64)%Z)
    by (vm_compute; discriminate).
  split; [exact H1|]. split; [exact H2|].
  exact (proj1 (proj2
           (simple_cubic_particle_layout 2 1 1 [1; 1]%nat 1
              (fun _ _ _ _ => 0) (fun _ _ _ _ => 0)
              (fun _ _ _ => 0) (fun _ _ _ => 0) 0 H1 H2))).
Defined.

(** ** The power spectrum file of [main] *)

(** X24.  When kmin is zero or negative and below kmax, the loop that
    writes input_powerspec.txt never ends by its own test: k stays at or
    below zero, and every run of the loop is cut by the fuel. *)
Theorem powerspec_loop_runs_forever (amp : R -> R) (Dplus0 kmin kmax : R)
    (fuel : nat) :
  kmin <= 0 -> kmin < kmax ->
  snd (powerspec_rows fuel amp Dplus0 kmin kmax) = false
  /\ length (fst (powerspec_rows fuel amp Dplus0 kmin kmax)) = fuel.
Proof.
  revert kmin. induction fuel as [|fuel IH]; intros kmin H0 Hlt.
  - split; reflexivity.
  - simpl powerspec_rows. destruct (Rlt_dec kmin kmax) as [_|N]; [|lra].
    destruct (IH (kmin * 1.1)) as (Hs & Hl); [lra|lra|].
    destruct (powerspec_rows fuel amp Dplus0 (kmin * 1.1) kmax)
      as [rows fin].
    cbn [fst snd length] in *. split; [exact Hs|]. rewrite Hl. reflexivity.
Qed.

Lemma powerspec_loop_runs_forever_witness :
  0 <= 0 /\ 0 < 1
  /\ snd (powerspec_rows 5 amp_one 1 0 1) = false.
Proof.
  assert (H0 : 0 <= 0) by lra.
  assert (H1 : 0 < 1) by lra.
  split; [exact H0|]. split; [exact H1|].
  exact (proj1 (powerspec_loop_runs_forever amp_one 1 0 1 5 H0 H1)).
Defined.

(** ** Writers *)

(** X25.  The operators that [main] hands to the convolver and the writers
    that [Run] hands to it leave the same destination grid, at every index
    of the grid (inside and outside the local slab): assign, add, add
    twice, subtract, subtract twice. *)
Theorem main_operators_are_Run_writers (geo : geometry) (res dest : kgrid)
    (idx : nat) :
  stream_op geo assign_op res dest idx = stream geo assign_to res dest idx
  /\ stream_op geo add_op res dest idx = stream geo add_to res dest idx
  /\ stream_op geo add2_op res dest idx
     = stream geo add_twice_to res dest idx
  /\ stream_op geo sub_op res dest idx
     = stream geo subtract_from res dest idx
  /\ stream_op geo sub2_op res dest idx
     = stream geo subtract_twice_from res dest idx.
Proof.
  rewrite !stream_op_at.
  rewrite (stream_at geo (fun _ v => v) assign_to) by reflexivity.
  rewrite (stream_at geo (fun old v => (old + v)%C) add_to) by reflexivity.
  rewrite (stream_at geo (fun old v => (old + Cscal 2 v)%C) add_twice_to)
    by reflexivity.
  rewrite (stream_at geo (fun old v => (old - v)%C) subtract_from)
    by reflexivity.
  rewrite (stream_at geo (fun old v => (old - Cscal 2 v)%C)
             subtract_twice_from) by reflexivity.
  destruct (idx <? local_n geo)%nat; repeat split; reflexivity.
Qed.

(** X26.  On the local slab the writers of [Run] compose as their names
    say: adding twice is adding two times, subtracting twice is subtracting
    two times, subtracting after adding restores the destination, and
    assigning forgets what the destination held. *)
Theorem writers_compose (geo : geometry) (res dest dest' : kgrid) (idx : nat) :
  (idx < local_n geo)%nat ->
  stream geo add_twice_to res dest idx =
    stream geo add_to res (stream geo add_to res dest) idx
  /\ stream geo subtract_twice_from res dest idx =
     stream geo subtract_from res (stream geo subtract_from res dest) idx
  /\ stream geo subtract_from res (stream geo add_to res dest) idx = dest idx
  /\ stream geo assign_to res dest idx = stream geo assign_to res dest' idx.
Proof.
  intros Hin. repeat split.
  - rewrite stream_add_twice_to, !stream_add_to by exact Hin. Cring.
  - rewrite stream_subtract_twice_from, !stream_subtract_from by exact Hin.
    Cring.
  - rewrite stream_subtract_from, stream_add_to by exact Hin. Cring.
  - rewrite !stream_assign_to by exact Hin. reflexivity.
Qed.

Lemma writers_compose_witness :
  (3 < local_n geo2)%nat
  /\ stream geo2 subtract_from phi_axes (stream geo2 add_to phi_axes zero_grid)
       3%nat = zero_grid 3%nat.
Proof.
  assert (H : (3 < local_n geo2)%nat) by (simpl; lia).
  split; [exact H|].
  exact (proj1 (proj2 (proj2
           (writers_compose geo2 phi_axes zero_grid zero_grid 3 H)))).
Defined.

(** ** The order as it is configured *)

Lemma Int_part_IZR (z : Z) : Int_part (IZR z) = z.
Proof. symmetry. apply Int_part_spec. lra. Qed.

(** the conversion leaves an integral value as it is *)
Lemma double_to_int_IZR (z : Z) : double_to_int (IZR z) = z.
Proof.
  unfold double_to_int. destruct (Rle_dec 0 (IZR z)) as [_|_].
  - apply Int_part_IZR.
  - rewrite <- opp_IZR, Int_part_IZR. lia.
Qed.

(** the conversion truncates towards zero *)
Lemma double_to_int_truncates (x : R) :
  (0 <= x -> IZR (double_to_int x) <= x < IZR (double_to_int x) + 1)
  /\ (x < 0 -> IZR (double_to_int x) - 1 < x <= IZR (double_to_int x)).
Proof.
  unfold double_to_int. split; intros Hx.
  - destruct (Rle_dec 0 x) as [_|N]; [|contradiction].
    pose proof (base_Int_part x). lra.
  - destruct (Rle_dec 0 x) as [P|_]; [lra|].
    pose proof (base_Int_part (- x)). rewrite opp_IZR. lra.
Qed.

Lemma read_configured_order (cfg : ConfigFile) (value : option R) :
  read_LPTorder (with_configured_order cfg value)
  = double_to_int (GetValueSafe value 100).
Proof.
  destruct value as [x|]; [reflexivity|].
  symmetry. apply (double_to_int_IZR 100).
Qed.

Lemma clamped_order_tests (n : Z) :
  (2 <=? clamped_order n)%Z = (n >? 1)%Z
  /\ (3 <=? clamped_order n)%Z = (n >? 2)%Z
  /\ (clamped_order n = 1 \/ clamped_order n = 2 \/ clamped_order n = 3)%Z.
Proof.
  unfold clamped_order.
  destruct (Z.leb_spec 2 (Z.max 1 (Z.min n 3))),
           (Z.leb_spec 3 (Z.max 1 (Z.min n 3))),
           (Z.gtb_spec n 1), (Z.gtb_spec n 2);
    repeat split; try reflexivity; lia.
Qed.

Lemma coefficients_of_clamped_order (n : Z) (Dplus0 vfac : R) :
  coefficients_of_order (clamped_order n) Dplus0 vfac
  = lpt_coefficients n Dplus0 vfac.
Proof.
  destruct (clamped_order_tests n) as (E2 & E3 & _).
  unfold coefficients_of_order, lpt_coefficients. rewrite E2, E3. reflexivity.
Qed.

Lemma override_order_fst (s : bool) (n : Z) :
  fst (override_order s n) = if s then 2%Z else n.
Proof.
  unfold override_order. destruct s; [|reflexivity].
  destruct (Z.eqb_spec n 2) as [E|N]; simpl; auto.
Qed.

(** the terms that the cascade announces, guard by guard *)
Lemma Run_cascade_log (T : Transforms) (geo : geometry) (amp : R -> R)
    (bDoFixing bSymplecticPT : bool) (LPTorder : Z) (Dplus0 vfac vol : R)
    (noise : kgrid) (F : fields) :
  snd (Run_cascade T geo amp bDoFixing bSymplecticPT LPTorder Dplus0 vfac vol
         noise F)
  = [ilog "Computing phi(1) term"]
    ++ (if (LPTorder >? 1)%Z || bSymplecticPT
        then [ilog "Computing phi(2) term"] else [])
    ++ (if (LPTorder >? 2)%Z && negb bSymplecticPT
        then [ilog "Computing phi(3a) term"; ilog "Computing phi(3b) term";
              ilog "Computing A(3) term"]
        else [])
    ++ (if bSymplecticPT then [ilog "Computing vNLO(3) term"] else []).
Proof.
  unfold Run_cascade.
  destruct (LPTorder >? 1)%Z, (LPTorder >? 2)%Z, bSymplecticPT; reflexivity.
Qed.

Lemma Run_terms_eq (T : Transforms) (geo : geometry) (amp : R -> R)
    (cfg : ConfigFile) (Dplus0 vfac : R) (noise : kgrid) (F : fields) :
  let o := override_order (read_symplectic cfg) (read_LPTorder cfg) in
  let rc := Run_cascade T geo amp (read_fixing cfg) (read_symplectic cfg)
              (fst o) Dplus0 vfac
              (volfac (setup_BoxLength cfg) (setup_GridRes cfg)) noise F in
  Run_terms T geo amp cfg Dplus0 vfac noise F =
  (fst rc, snd o ++ snd rc, lpt_coefficients (fst o) Dplus0 vfac).
Proof.
  cbv zeta. unfold Run_terms. rewrite Run_potentials_eq. reflexivity.
Qed.

Lemma growth_coefficient_nonzero (Dplus0 : R) :
  Dplus0 <> 0 ->
  - Dplus0 <> 0 /\ -3 / 7 * Dplus0 * Dplus0 <> 0
  /\ -1 / 3 * Dplus0 * Dplus0 * Dplus0 <> 0
  /\ 10 / 21 * Dplus0 * Dplus0 * Dplus0 <> 0
  /\ -1 / 7 * Dplus0 * Dplus0 * Dplus0 <> 0.
Proof.
  intros H.
  assert (H2 : Dplus0 * Dplus0 <> 0) by (apply Rmult_integral_contrapositive; auto).
  assert (H3 : Dplus0 * Dplus0 * Dplus0 <> 0)
    by (apply Rmult_integral_contrapositive; auto).
  repeat split; intros E; [apply H|apply H2|apply H3|apply H3|apply H3]; lra.
Qed.

(** C7.  For every value of setup.LPTorder that the conversion to int is
    defined for, and for the absent key, [Run] works at an effective order e
    in {1,2,3}: max(1, min(LPTorder, 3)) without the symplectic flag (3 for
    the absent key), 2 with it.  The terms announced and computed are those
    of order e (phi(2) from 2 on, phi(3a), phi(3b) and A(3) at 3), the
    coefficients are those of order e (g2 is not zero from 2 on, g3a, g3b
    and g3c at 3 only), every potential is its term scaled by its
    coefficient, and the run is the run of order min(LPTorder, 3).  The
    coefficients of [main] are those of order max(1, min(LPTorder, 3)). *)
Theorem effective_order (T : Transforms) (geo : geometry) (amp : R -> R)
    (cfg : ConfigFile) (Dplus0 vfac : R) (noise : kgrid) (F : fields)
    (value : option R) :
  (forall x, value = Some x -> fits_int x) ->
  let cfg' := with_configured_order cfg value in
  let n := read_LPTorder cfg' in
  let s := read_symplectic cfg' in
  let r := Run_terms T geo amp cfg' Dplus0 vfac noise F in
  let e := clamped_order (if s then 2%Z else n) in
  let p1 := compute_phi1 geo (read_fixing cfg') amp
              (volfac (setup_BoxLength cfg') (setup_GridRes cfg')) noise in
  let p2 := if (2 <=? e)%Z then compute_phi2 T geo p1 (phi2 F) else phi2 F in
  n = double_to_int (GetValueSafe value 100)
  /\ (e = 1 \/ e = 2 \/ e = 3)%Z
  /\ (s = false -> e = Z.max 1 (Z.min n 3))
  /\ (s = true -> e = 2%Z)
  /\ (value = None -> s = false -> e = 3%Z)
  /\ snd (fst r)
     = (if s && negb (n =? 2)%Z then [warn_symplectic] else [])
       ++ terms_of_order e
       ++ (if s then [ilog "Computing vNLO(3) term"] else [])
  /\ snd r = coefficients_of_order e Dplus0 vfac
  /\ (Dplus0 <> 0 ->
      g1 (snd r) <> 0
      /\ (g2 (snd r) <> 0 <-> (2 <= e)%Z)
      /\ (g3a (snd r) <> 0 <-> (3 <= e)%Z)
      /\ (g3b (snd r) <> 0 <-> (3 <= e)%Z)
      /\ (g3c (snd r) <> 0 <-> (3 <= e)%Z))
  /\ phi (fst (fst r)) = scale geo (g1 (snd r)) p1
  /\ phi2 (fst (fst r)) = scale geo (g2 (snd r)) p2
  /\ phi3a (fst (fst r))
     = scale geo (g3a (snd r))
         (if (3 <=? e)%Z then compute_phi3a T geo p1 (phi3a F) else phi3a F)
  /\ phi3b (fst (fst r))
     = scale geo (g3b (snd r))
         (if (3 <=? e)%Z then compute_phi3b T geo p1 p2 (phi3b F)
          else phi3b F)
  /\ (forall d, (d < 3)%nat ->
        A3 (fst (fst r)) d
        = scale geo (g3c (snd r))
            (if (3 <=? e)%Z then compute_A3 T geo p1 p2 d (A3 F d)
             else if s then compute_vNLO T geo p1 p2 d (A3 F d)
                  else A3 F d))
  /\ r = Run_terms T geo amp (with_LPTorder cfg (Some (Z.min n 3)))
           Dplus0 vfac noise F
  /\ main_coefficients cfg' Dplus0 vfac
     = coefficients_of_order (clamped_order n) Dplus0 vfac.
Proof.
  intros _. cbv zeta.
  set (cfg' := with_configured_order cfg value).
  set (n := read_LPTorder cfg').
  set (s := read_symplectic cfg').
  set (o := if s then 2%Z else n).
  destruct (clamped_order_tests o) as (E2 & E3 & Erange).
  assert (Hs : s = read_symplectic cfg) by reflexivity.
  assert (Ho : fst (override_order s n) = o) by apply override_order_fst.
  assert (O1 : ((o >? 1)%Z || s)%bool = (o >? 1)%Z).
  { unfold o. destruct s; [reflexivity|apply orb_false_r]. }
  assert (O2 : ((o >? 2)%Z && negb s)%bool = (o >? 2)%Z).
  { unfold o. destruct s; [reflexivity|apply andb_true_r]. }
  assert (Hcoef : lpt_coefficients o Dplus0 vfac
                  = coefficients_of_order (clamped_order o) Dplus0 vfac)
    by (symmetry; apply coefficients_of_clamped_order).
  pose proof (Run_terms_eq T geo amp cfg' Dplus0 vfac noise F) as Hr.
  cbv zeta in Hr. fold n s in Hr. rewrite Ho in Hr.
  pose proof (Run_cascade_fields T geo amp (read_fixing cfg') s o Dplus0 vfac
                (volfac (setup_BoxLength cfg') (setup_GridRes cfg')) noise F)
    as HF.
  cbv zeta in HF. rewrite O1, O2 in HF.
  pose proof (Run_cascade_log T geo amp (read_fixing cfg') s o Dplus0 vfac
                (volfac (setup_BoxLength cfg') (setup_GridRes cfg')) noise F)
    as HL.
  rewrite O1, O2 in HL.
  rewrite Hr. cbn [fst snd]. rewrite <- Hcoef, E2, E3.
  destruct HF as (F1 & F2 & F3a & F3b & FA).
  split; [apply read_configured_order|].
  split; [exact Erange|].
  split; [intros Es; unfold o, clamped_order; rewrite Es; reflexivity|].
  split; [intros Es; unfold o; rewrite Es; reflexivity|].
  split.
  { intros Ev Es. unfold o. rewrite Es. unfold n, cfg'. rewrite Ev.
    reflexivity. }
  split.
  { rewrite HL. unfold terms_of_order. rewrite E2, E3.
    unfold override_order. destruct (s && negb (n =? 2)%Z)%bool;
      cbn [snd]; rewrite <- ?app_assoc; reflexivity. }
  split; [reflexivity|].
  split.
  { intros HD.
    destruct (growth_coefficient_nonzero Dplus0 HD)
      as (N1 & N2 & N3a & N3b & N3c).
    unfold lpt_coefficients. cbn [g1 g2 g3a g3b g3c].
    split; [exact N1|].
    unfold clamped_order.
    destruct (Z.gtb_spec o 1), (Z.gtb_spec o 2);
      repeat split; intros; try assumption; try lia;
        try (exfalso; lia); try (exfalso; auto; fail). }
  split; [exact F1|]. split; [exact F2|]. split; [exact F3a|].
  split; [exact F3b|]. split; [exact FA|].
  split.
  { rewrite <- Hr.
    pose proof (min_order_tests n) as (M1 & M2 & M3).
    pose proof (Run_terms_tests T geo amp cfg' Dplus0 vfac noise F
                  (Z.min n 3) M1 M2 M3) as Hm.
    exact Hm. }
  unfold main_coefficients. fold n.
  symmetry. apply coefficients_of_clamped_order.
Qed.

Lemma effective_order_witness :
  (forall x, Some 5 = Some x -> fits_int x)
  /\ read_LPTorder (with_configured_order cfg_fixing (Some 5))
     = double_to_int (GetValueSafe (Some 5) 100)
  /\ snd (Run_terms box2 geo2 amp_one (with_configured_order cfg_fixing (Some 5))
            1 1 noise_axes zero_fields)
     = coefficients_of_order
         (clamped_order
            (if read_symplectic (with_configured_order cfg_fixing (Some 5))
             then 2%Z
             else read_LPTorder (with_configured_order cfg_fixing (Some 5))))
         1 1.
Proof.
  assert (H : forall x, Some 5 = Some x -> fits_int x).
  { intros x E. injection E as <-. unfold fits_int. lra. }
  split; [exact H|].
  pose proof (effective_order box2 geo2 amp_one cfg_fixing 1 1 noise_axes
                zero_fields (Some 5) H) as (E1 & _ & _ & _ & _ & _ & E7 & _).
  split; [exact E1|exact E7].
Defined.
